(** * The RTF attribute scope stack of editeng (svxrtf.cxx)

    A shallow embedding of [SvxRTFParser] and [SvxRTFItemStackType] from
    editeng/source/rtf/svxrtf.cxx: the scope records, group-close resolution
    ([AttrGroupEnd]), the range compressor ([Compress]), the text-token
    dispatch of [NextToken] and the colour and font table readers. *)

From stdpp Require Import base gmap list fin_maps.
From Stdlib Require Import ZArith Lia.

Local Open Scope Z_scope.

(** ** Item sets

    An [SfxItemSet] maps which-ids (sal_uInt16) to pool items.  Items are
    only ever compared with [operator==], so an item is represented by an
    integer code.  All lookups of scope records in this file are made with
    [bSrchInParent = false], so the parent pointer of a set is not
    represented. *)

Abbreviation SfxItemSet := (gmap Z Z).

Module ItemSet.

(** [SfxItemSet::Count] *)
Definition Count (s : SfxItemSet) : nat := size s.

(** [SfxItemSet::ClearItem(nWhich)] for a which-id of a set item. *)
Definition ClearItem (nWhich : Z) (s : SfxItemSet) : SfxItemSet :=
  delete nWhich s.

(** [SfxItemSet::Put(const SfxItemSet&)]: every item set in [src] is put
    into the target, replacing the item under the same which-id. *)
Definition Put (src dst : SfxItemSet) : SfxItemSet := src ∪ dst.

(** [SfxItemSet::Differentiate]: removes every which-id set in [r]. *)
Definition Differentiate (r s : SfxItemSet) : SfxItemSet := s ∖ r.

(** The loop "if SET == other.GetItemState(which, false, &p) && *item == *p
    then ClearItem(which)" over all items of [s]. *)
Definition ClearEqual (other s : SfxItemSet) : SfxItemSet :=
  filter (λ kv, other !! kv.1 ≠ Some kv.2) s.

(** The loop "if SET != other.GetItemState(which, false, &p) || *p != *item
    then ClearItem(which)" over all items of [s]. *)
Definition KeepEqual (other s : SfxItemSet) : SfxItemSet :=
  filter (λ kv, other !! kv.1 = Some kv.2) s.

(** Removes the which-ids of the list one after the other, skipping the
    zero entries and stopping as soon as the set is empty. *)
Fixpoint ClearIds (ids : list Z) (s : SfxItemSet) : SfxItemSet :=
  match ids with
  | [] => s
  | w :: ids' =>
      if decide (Count s = 0%nat) then s
      else ClearIds ids' (if decide (w = 0) then s else ClearItem w s)
  end.

End ItemSet.

(** ** Scope records

    Node handles ([EditNodeIdx]) are represented by the index they report
    through [GetIdx]; none of the functions below inserts or removes a
    paragraph between two reads of a handle. *)

#[local] Unset Elimination Schemes.
Inductive SvxRTFItemStackType := MkStk {
  aAttrSet : SfxItemSet;
  pSttNd : Z;
  nSttCnt : Z;
  pEndNd : Z;
  nEndCnt : Z;
  nStyleNo : Z;
  m_pChildList : option (list SvxRTFItemStackType)
}.
#[local] Set Elimination Schemes.

Abbreviation Stk := SvxRTFItemStackType.

Definition set_attrs (a : SfxItemSet) (r : Stk) : Stk :=
  MkStk a (pSttNd r) (nSttCnt r) (pEndNd r) (nEndCnt r) (nStyleNo r)
        (m_pChildList r).

Definition set_children (l : option (list Stk)) (r : Stk) : Stk :=
  MkStk (aAttrSet r) (pSttNd r) (nSttCnt r) (pEndNd r) (nEndCnt r)
        (nStyleNo r) l.

Definition set_end (nd cnt : Z) (r : Stk) : Stk :=
  MkStk (aAttrSet r) (pSttNd r) (nSttCnt r) nd cnt (nStyleNo r)
        (m_pChildList r).

Definition has_children (r : Stk) : bool :=
  match m_pChildList r with Some _ => true | None => false end.

(** [SvxRTFItemStackType::Add] *)
Definition Add (pIns : Stk) (r : Stk) : Stk :=
  match m_pChildList r with
  | None => set_children (Some [pIns]) r
  | Some l => set_children (Some (l ++ [pIns])) r
  end.

(** ** The range compressor *)

Section Compress.

(** [rParser.IsEndPara(pNd, nCnt)], a query of the document model. *)
Variable IsEndPara : Z → Z → bool.

(** The test of the loop that ends the merge: the child does not start
    where the previous one ended. *)
Definition not_adjacent (lastNd lastCnt : Z) (c : Stk) : bool :=
  if nSttCnt c =? 0
  then negb (lastNd + 1 =? pSttNd c) || negb (IsEndPara lastNd lastCnt)
  else negb (nSttCnt c =? lastCnt) || negb (lastNd =? pSttNd c).

(** How the loop over the children 1.. ended. *)
Inductive LoopExit :=
| Returned
| Finished (aMrgSet : SfxItemSet) (lastNd lastCnt : Z).

Section Loop.
Variable rec : Stk → Stk.

Definition compress_child (c : Stk) : Stk :=
  if has_children c then rec c else c.

Fixpoint compress_rest (cs : list Stk) : list Stk :=
  match cs with
  | [] => []
  | c :: cs' => compress_child c :: compress_rest cs'
  end.

Fixpoint Compress_loop (cs : list Stk) (lastNd lastCnt : Z)
         (aMrgSet : SfxItemSet) : list Stk * LoopExit :=
  match cs with
  | [] => ([], Finished aMrgSet lastNd lastCnt)
  | c :: cs' =>
      let pTmp := compress_child c in
      if not_adjacent lastNd lastCnt pTmp
      then (pTmp :: compress_rest cs', Returned)
      else
        let aMrgSet' := ItemSet.KeepEqual (aAttrSet pTmp) aMrgSet in
        if decide (ItemSet.Count aMrgSet' = 0%nat)
        then (pTmp :: cs', Returned)
        else
          let '(rest, e) :=
            Compress_loop cs' (pEndNd pTmp) (nEndCnt pTmp) aMrgSet' in
          (pTmp :: rest, e)
  end.
End Loop.

(** The final loop of [Compress]: subtract the merged set from every child
    and erase the children left without attributes, style and children. *)
Fixpoint subtract_merged (aMrgSet : SfxItemSet) (cs : list Stk) : list Stk :=
  match cs with
  | [] => []
  | c :: cs' =>
      let pTmp := set_attrs (ItemSet.Differentiate aMrgSet (aAttrSet c)) c in
      if negb (has_children pTmp)
         && bool_decide (ItemSet.Count (aAttrSet pTmp) = 0%nat)
         && (nStyleNo pTmp =? 0)
      then subtract_merged aMrgSet cs'
      else pTmp :: subtract_merged aMrgSet cs'
  end.

Definition reset_if_empty (cs : list Stk) : option (list Stk) :=
  match cs with [] => None | _ => Some cs end.

(** [SvxRTFItemStackType::Compress] *)
Fixpoint Compress (r : Stk) : Stk :=
  match m_pChildList r with
  | None => r
  | Some [] => r
  | Some (c0 :: cs) =>
      if bool_decide (ItemSet.Count (aAttrSet c0) = 0%nat)
         || negb (pSttNd r =? pSttNd c0)
         || negb (nSttCnt r =? nSttCnt c0)
      then r
      else
        match Compress_loop Compress cs (pEndNd c0) (nEndCnt c0)
                            (aAttrSet c0) with
        | (cs', Returned) => set_children (Some (c0 :: cs')) r
        | (cs', Finished aMrgSet lastNd lastCnt) =>
            if negb (pEndNd r =? lastNd) || negb (nEndCnt r =? lastCnt)
            then set_children (Some (c0 :: cs')) r
            else
              set_children
                (reset_if_empty (subtract_merged aMrgSet (c0 :: cs')))
                (set_attrs (ItemSet.Put aMrgSet (aAttrSet r)) r)
        end
  end.

End Compress.

(** ** Resource records *)

(** An [OUString]: a sequence of UTF-16 code units. *)
Abbreviation OUString := (list Z) (only parsing).

(** A [Color] built from three channels, or the symbolic [COL_AUTO]. *)
Inductive Color :=
| RGB (nRed nGreen nBlue : Z)
| COL_AUTO.

Inductive FontFamily :=
| FAMILY_DONTKNOW | FAMILY_DECORATIVE | FAMILY_MODERN
| FAMILY_ROMAN | FAMILY_SCRIPT | FAMILY_SWISS.

Inductive FontPitch := PITCH_DONTKNOW | PITCH_FIXED | PITCH_VARIABLE.

Inductive rtl_TextEncoding :=
| RTL_TEXTENCODING_DONTKNOW
| RTL_TEXTENCODING_MS_1251
| RTL_TEXTENCODING_MS_1252
| RTL_TEXTENCODING_MS_1254
| RTL_TEXTENCODING_SYMBOL
| RTL_TEXTENCODING_OTHER (code : Z).

(** The members of [vcl::Font] the font table reader sets. *)
Record Font := MkFont {
  FamilyName : OUString;
  Family : FontFamily;
  Pitch : FontPitch;
  CharSet : rtl_TextEncoding
}.

(** [new vcl::Font] *)
Definition new_Font : Font :=
  MkFont [] FAMILY_DONTKNOW PITCH_DONTKNOW RTL_TEXTENCODING_DONTKNOW.

Record SvxRTFStyleType := MkStyle {
  style_aAttrSet : SfxItemSet;
  sName : OUString;
  nBasedOn : Z;
  nOutlineNo : Z
}.

(** [RTFPardAttrMapIds]: the which-ids of the paragraph attributes, in the
    order the constructor fills them; the parser also reads the structure
    as an array of sal_uInt16. *)
Record RTFPardAttrMapIds := MkPardMap {
  nLinespacing : Z; nAdjust : Z; nTabStop : Z; nHyphenzone : Z;
  nLRSpace : Z; nULSpace : Z; nBrush : Z; nBox : Z; nShadow : Z;
  nOutlineLvl : Z; nSplit : Z; nKeep : Z; nFontAlign : Z;
  nScriptSpace : Z; nHangPunct : Z; nForbRule : Z; nDirection : Z
}.

Definition PardMap_array (m : RTFPardAttrMapIds) : list Z :=
  [ nLinespacing m; nAdjust m; nTabStop m; nHyphenzone m; nLRSpace m;
    nULSpace m; nBrush m; nBox m; nShadow m; nOutlineLvl m; nSplit m;
    nKeep m; nFontAlign m; nScriptSpace m; nHangPunct m; nForbRule m;
    nDirection m ].

(** The tokens [SetDefault] is called with. *)
Inductive DefaultToken := RTF_DEFF | RTF_DEFTAB | RTF_DEFLANG.

(** ** The collaborators of the parser

    Everything the functions of svxrtf.cxx reach outside the file: the
    insertion position [pInsPos] and the pure virtual methods a document
    implements, the attribute pool, [SetDefault] of rtfitem.cxx with the
    flag [bIsSetDfltTab] it owns, and two library functions.  The laws say
    that writing a pool default does not move the insertion position. *)

Class External (D : Type) := {
  GetNodeIdx : D → Z;
  GetCntIdx : D → Z;
  InsertText : OUString → D → D;
  InsertPara : D → D;
  MovePos : bool → D → D;
  SetEndPrevPara : D → Z * Z;
  IsEndPara : D → Z → Z → bool;
  SetAttrInDoc : Stk → D → D;
  GetDefaultItem : D → Z → Z;
  SetPoolDefaultItem : Z → Z → D → D;
  IsWhich : Z → bool;
  IsSetDfltTab : D → bool;
  SetDefault : DefaultToken → Z → D → D;
  getTextEncodingFromWindowsCharset : Z → rtl_TextEncoding;
  getLanguage : D → OUString;
  GetNodeIdx_pool : ∀ w v d, GetNodeIdx (SetPoolDefaultItem w v d) = GetNodeIdx d;
  GetCntIdx_pool : ∀ w v d, GetCntIdx (SetPoolDefaultItem w v d) = GetCntIdx d;
  SetEndPrevPara_pool :
    ∀ w v d, SetEndPrevPara (SetPoolDefaultItem w v d) = SetEndPrevPara d
}.

(** ** Tokens

    The tokens the modelled functions distinguish, with [nTokenValue] or
    [aToken] where the function reads it. *)
Inductive Token :=
| T_OpenBrace | T_CloseBrace | T_Semicolon
| RTF_TEXTTOKEN (aToken : OUString)
| RTF_IGNOREFLAG | RTF_UNKNOWNCONTROL
| RTF_RED (nTokenValue : Z) | RTF_GREEN (nTokenValue : Z)
| RTF_BLUE (nTokenValue : Z)
| RTF_F (nTokenValue : Z)
| RTF_FNIL | RTF_FROMAN | RTF_FSWISS | RTF_FMODERN | RTF_FSCRIPT
| RTF_FDECOR | RTF_FTECH
| RTF_FCHARSET (nTokenValue : Z) | RTF_FPRQ (nTokenValue : Z)
| RTF_FALT | RTF_PANOSE | RTF_FNAME | RTF_FONTEMB | RTF_FONTFILE
| RTF_PAR | RTF_LINE | RTF_TAB | RTF_SUBENTRYINDEX
| RTF_EMDASH | RTF_ENDASH | RTF_BULLET
| RTF_LQUOTE | RTF_RQUOTE | RTF_LDBLQUOTE | RTF_RDBLQUOTE
| RTF_EOF
| RTF_OTHER (nToken nTokenValue : Z).

(** The token source of [SvRTFParser]: the tokens handed out so far (latest
    first), the tokens still to come, whether the parser is working, and
    the source encoding set through [SetEncoding]. *)
Record Lexer := MkLexer {
  consumed : list Token;
  pending : list Token;
  working : bool;
  eSrcEnc : rtl_TextEncoding
}.

(** ** The parser state *)

Record SvxRTFParser (D : Type) := MkParser {
  ext : D;
  lexer : Lexer;
  aColorTbl : list Color;
  m_FontTable : gmap Z Font;
  m_StyleTable : gmap Z SvxRTFStyleType;
  aAttrStack : list Stk;
  m_AttrSetList : list Stk;
  aPardMap : RTFPardAttrMapIds;
  pRTFDefaults : option SfxItemSet;
  nDfltFont : Z;
  bNewDoc : bool;
  bNewGroup : bool;
  bChkStyleAttr : bool
}.

Arguments MkParser {D}.
Arguments ext {D}.
Arguments lexer {D}.
Arguments aColorTbl {D}.
Arguments m_FontTable {D}.
Arguments m_StyleTable {D}.
Arguments aAttrStack {D}.
Arguments m_AttrSetList {D}.
Arguments aPardMap {D}.
Arguments pRTFDefaults {D}.
Arguments nDfltFont {D}.
Arguments bNewDoc {D}.
Arguments bNewGroup {D}.
Arguments bChkStyleAttr {D}.

(** [aAttrStack] is kept with its [back()] at the head of the list;
    [m_AttrSetList] and the child lists are kept in [push_back] order. *)

Section Setters.
Context {D : Type}.
Implicit Type p : SvxRTFParser D.

Definition with_ext (d : D) p :=
  MkParser d (lexer p) (aColorTbl p) (m_FontTable p) (m_StyleTable p)
    (aAttrStack p) (m_AttrSetList p) (aPardMap p) (pRTFDefaults p)
    (nDfltFont p) (bNewDoc p) (bNewGroup p) (bChkStyleAttr p).

Definition with_lexer (l : Lexer) p :=
  MkParser (ext p) l (aColorTbl p) (m_FontTable p) (m_StyleTable p)
    (aAttrStack p) (m_AttrSetList p) (aPardMap p) (pRTFDefaults p)
    (nDfltFont p) (bNewDoc p) (bNewGroup p) (bChkStyleAttr p).

Definition with_aColorTbl (t : list Color) p :=
  MkParser (ext p) (lexer p) t (m_FontTable p) (m_StyleTable p)
    (aAttrStack p) (m_AttrSetList p) (aPardMap p) (pRTFDefaults p)
    (nDfltFont p) (bNewDoc p) (bNewGroup p) (bChkStyleAttr p).

Definition with_m_FontTable (t : gmap Z Font) p :=
  MkParser (ext p) (lexer p) (aColorTbl p) t (m_StyleTable p)
    (aAttrStack p) (m_AttrSetList p) (aPardMap p) (pRTFDefaults p)
    (nDfltFont p) (bNewDoc p) (bNewGroup p) (bChkStyleAttr p).

Definition with_aAttrStack (s : list Stk) p :=
  MkParser (ext p) (lexer p) (aColorTbl p) (m_FontTable p) (m_StyleTable p)
    s (m_AttrSetList p) (aPardMap p) (pRTFDefaults p)
    (nDfltFont p) (bNewDoc p) (bNewGroup p) (bChkStyleAttr p).

Definition with_m_AttrSetList (l : list Stk) p :=
  MkParser (ext p) (lexer p) (aColorTbl p) (m_FontTable p) (m_StyleTable p)
    (aAttrStack p) l (aPardMap p) (pRTFDefaults p)
    (nDfltFont p) (bNewDoc p) (bNewGroup p) (bChkStyleAttr p).

Definition with_pRTFDefaults (o : option SfxItemSet) p :=
  MkParser (ext p) (lexer p) (aColorTbl p) (m_FontTable p) (m_StyleTable p)
    (aAttrStack p) (m_AttrSetList p) (aPardMap p) o
    (nDfltFont p) (bNewDoc p) (bNewGroup p) (bChkStyleAttr p).

Definition with_bNewGroup (b : bool) p :=
  MkParser (ext p) (lexer p) (aColorTbl p) (m_FontTable p) (m_StyleTable p)
    (aAttrStack p) (m_AttrSetList p) (aPardMap p) (pRTFDefaults p)
    (nDfltFont p) (bNewDoc p) b (bChkStyleAttr p).
End Setters.

(** ** Scope records: construction *)

(** [SvxRTFItemStackType(rPool, pWhichRange, rPos)] *)
Definition new_ItemStack (nd cnt : Z) : Stk :=
  MkStk ∅ nd cnt nd cnt 0 None.

(** [SvxRTFItemStackType(rCpy, rPos, bCopyAttr)] *)
Definition copy_ItemStack (rCpy : Stk) (nd cnt : Z) (bCopyAttr : bool) : Stk :=
  MkStk (if bCopyAttr then ItemSet.Put (aAttrSet rCpy) ∅ else ∅)
        nd cnt nd cnt (nStyleNo rCpy) None.

(** [SvxRTFItemStackType::SetRTFDefaults]: a default is put only where the
    record has no item of its own. *)
Definition SetRTFDefaults (rDefaults : SfxItemSet) (r : Stk) : Stk :=
  set_attrs (aAttrSet r ∪ rDefaults) r.

(** The depth of the child lists below a record. *)
Fixpoint depth (r : Stk) : nat :=
  match m_pChildList r with
  | None => 0%nat
  | Some l => S (list_max (map depth l))
  end.

(** The item [SvxScriptSpaceItem(false, nId)]. *)
Definition SvxScriptSpaceItem_false : Z := 0.

(** ** The attribute scope stack *)

Section ScopeStack.
Context {D : Type} `{!External D}.
Implicit Type p : SvxRTFParser D.

(** [SvxRTFParser::GetRTFDefaults]: built on the first call, then cached. *)
Definition GetRTFDefaults p : SfxItemSet * SvxRTFParser D :=
  match pRTFDefaults p with
  | Some s => (s, p)
  | None =>
      let nId := nScriptSpace (aPardMap p) in
      if decide (nId = 0) then (∅, with_pRTFDefaults (Some ∅) p)
      else if bNewDoc p
      then (∅, with_pRTFDefaults (Some ∅)
                 (with_ext (SetPoolDefaultItem nId SvxScriptSpaceItem_false
                                               (ext p)) p))
      else ({[ nId := SvxScriptSpaceItem_false ]},
            with_pRTFDefaults (Some {[ nId := SvxScriptSpaceItem_false ]}) p)
  end.

(** [SvxRTFParser::GetAttrSet_] *)
Definition GetAttrSet_ p : SvxRTFParser D :=
  let nd := GetNodeIdx (ext p) in
  let cnt := GetCntIdx (ext p) in
  let pNew :=
    match aAttrStack p with
    | pCurrent :: _ => copy_ItemStack pCurrent nd cnt false
    | [] => new_ItemStack nd cnt
    end in
  let '(defs, p) := GetRTFDefaults p in
  let pNew := SetRTFDefaults defs pNew in
  with_bNewGroup false (with_aAttrStack (pNew :: aAttrStack p) p).

Definition IsChkStyleAttr p : bool := bChkStyleAttr p.

(** "IsWhich(nWhich) && rPool.GetDefaultItem(nWhich) == *pItem" *)
Definition is_pool_default p (kv : Z * Z) : bool :=
  IsWhich kv.1 && (GetDefaultItem (ext p) kv.1 =? kv.2).

(** An item survives the comparison against the style when the style
    sets the which-id to another item, or does not set it and the item
    is not the pool default. *)
Definition differs_from_style p (pStyle : SvxRTFStyleType) (kv : Z * Z)
  : bool :=
  match style_aAttrSet pStyle !! kv.1 with
  | Some sItem => negb (sItem =? kv.2)
  | None => negb (is_pool_default p kv)
  end.

(** [SvxRTFParser::ClearStyleAttr_].  The source walks the which-ids of
    the set's ranges and clears set items only, which is a filter of the
    set items. *)
Definition ClearStyleAttr_ p (rStkType : Stk) : Stk :=
  let rSet := aAttrSet rStkType in
  match m_StyleTable p !! nStyleNo rStkType with
  | Some pStyle =>
      if negb (IsChkStyleAttr p)
         || bool_decide (ItemSet.Count rSet = 0%nat)
      then set_attrs (filter (λ kv, is_pool_default p kv = false) rSet)
                     rStkType
      else
        set_attrs (filter (λ kv, differs_from_style p pStyle kv = true) rSet)
                  rStkType
  | None =>
      set_attrs (filter (λ kv, is_pool_default p kv = false) rSet) rStkType
  end.

(** *** The stages of [AttrGroupEnd] *)

(** "no attributes or Area": the first test of the middle check loop. *)
Definition nothing_to_set (pOld : Stk) (d : D) : bool :=
  negb (has_children pOld)
  && ((bool_decide (ItemSet.Count (aAttrSet pOld) = 0%nat)
       && (nStyleNo pOld =? 0))
      || ((pSttNd pOld =? GetNodeIdx d) && (nSttCnt pOld =? GetCntIdx d))).

(** "if( pCurrent && pOld->aAttrSet.Count() )" *)
Definition diff_applies (below : list Stk) (pOld : Stk) : bool :=
  match below with
  | _ :: _ => negb (bool_decide (ItemSet.Count (aAttrSet pOld) = 0%nat))
  | [] => false
  end.

(** "set only the attributes that are different from the parent" *)
Definition diff_from_parent (below : list Stk) (pOld : Stk) : Stk :=
  match below with
  | pCurrent :: _ =>
      if diff_applies below pOld
      then set_attrs (ItemSet.ClearEqual (aAttrSet pCurrent) (aAttrSet pOld))
                     pOld
      else pOld
  | [] => pOld
  end.

(** The test after the comparison with the parent. *)
Definition left_empty (pOld : Stk) : bool :=
  bool_decide (ItemSet.Count (aAttrSet pOld) = 0%nat)
  && negb (has_children pOld) && (nStyleNo pOld =? 0).

(** The position a close works with: one step back when the cursor is at
    the start of a paragraph. *)
Definition cursor_for_close (d : D) : D :=
  if GetCntIdx d =? 0 then MovePos false d else d.

(** The flag [bCrsrBack] once the step back was tried: "if can not move
    backward then later don't move forward". *)
Definition stepped_back (d : D) : bool :=
  (GetCntIdx d =? 0)
  && negb (GetNodeIdx d =? GetNodeIdx (cursor_for_close d)).

(** The start of the record is not behind the position [d]. *)
Definition starts_up_to (pOld : Stk) (d : D) : bool :=
  (pSttNd pOld <? GetNodeIdx d)
  || ((pSttNd pOld =? GetNodeIdx d) && (nSttCnt pOld <=? GetCntIdx d)).

(** "Now it gets complicated": the copy of [pOld] at the cursor without
    the paragraph attributes, or [None] when there were none to delete. *)
Definition split_off (pOld : Stk) p : option Stk * SvxRTFParser D :=
  let pNew :=
    copy_ItemStack pOld (GetNodeIdx (ext p)) (GetCntIdx (ext p)) true in
  let pNew :=
    set_attrs (ItemSet.ClearIds (PardMap_array (aPardMap p)) (aAttrSet pNew))
              pNew in
  let '(defs, p) := GetRTFDefaults p in
  let pNew := SetRTFDefaults defs pNew in
  if decide (ItemSet.Count (aAttrSet pNew) = ItemSet.Count (aAttrSet pOld))
  then (None, p) else (Some pNew, p).

(** "if( IsChkStyleAttr() ) ClearStyleAttr_( ... )" *)
Definition style_filtered p (r : Stk) : Stk :=
  if IsChkStyleAttr p then ClearStyleAttr_ p r else r.

(** "if( bCrsrBack ) MovePos()" *)
Definition step_forward (bCrsrBack : bool) p : SvxRTFParser D :=
  if bCrsrBack then with_ext (MovePos true (ext p)) p else p.

(** "50 < pCurrent->m_pChildList->size()" *)
Definition too_many_children (pCurrent : Stk) : bool :=
  match m_pChildList pCurrent with
  | Some l => (50 <? length l)%nat
  | None => false
  end.

(** The body of [SvxRTFParser::AttrGroupEnd] once [pOld] has been popped:
    [below] is the stack that remains, its head is [pCurrent]. *)
Fixpoint AttrGroupEnd_popped (below : list Stk) (pOld : Stk) p
         {struct below} : SvxRTFParser D :=
  let leave (q : SvxRTFParser D) := with_bNewGroup false q in
  let nOldSttNdIdx := pSttNd pOld in
  if nothing_to_set pOld (ext p) then leave p
  else
    let diffed := diff_applies below pOld in
    let pOld := diff_from_parent below pOld in
    if diffed && left_empty pOld then leave p
    else
      let bCrsrBack := stepped_back (ext p) in
      let p := with_ext (cursor_for_close (ext p)) p in
      if starts_up_to pOld (ext p)
      then
        let '(split, p) :=
          if negb bCrsrBack && negb (nOldSttNdIdx =? GetNodeIdx (ext p))
          then split_off pOld p else (None, p) in
        match split with
        | Some pNew =>
            let pNew :=
              MkStk (aAttrSet pNew) (pSttNd pNew) 0 (pEndNd pNew)
                    (nEndCnt pNew) 0 (m_pChildList pNew) in
            let pOld :=
              set_end (SetEndPrevPara (ext p)).1 (SetEndPrevPara (ext p)).2
                      pOld in
            let pOld := style_filtered p pOld in
            let pNew := style_filtered p pNew in
            match below with
            | pCurrent :: below' =>
                leave (with_aAttrStack
                         (Add pNew (Add pOld pCurrent) :: below') p)
            | [] =>
                leave (with_m_AttrSetList
                         (m_AttrSetList p ++ [pOld] ++ [pNew]) p)
            end
        | None =>
            let pOld :=
              set_end (GetNodeIdx (ext p)) (GetCntIdx (ext p)) pOld in
            match below with
            | pCurrent :: below' =>
                let pCurrent := Add pOld pCurrent in
                if bCrsrBack && too_many_children pCurrent
                then
                  let p := with_ext (MovePos true (ext p)) p in
                  let pNew :=
                    copy_ItemStack pCurrent (GetNodeIdx (ext p))
                                   (GetCntIdx (ext p)) true in
                  let '(defs, p) := GetRTFDefaults p in
                  let pNew := SetRTFDefaults defs pNew in
                  let p :=
                    AttrGroupEnd_popped below' pCurrent
                                        (with_aAttrStack below' p) in
                  leave (with_aAttrStack (pNew :: aAttrStack p) p)
                else
                  leave (step_forward bCrsrBack
                           (with_aAttrStack (pCurrent :: below') p))
            | [] =>
                let pOld := style_filtered p pOld in
                leave (step_forward bCrsrBack
                         (with_m_AttrSetList (m_AttrSetList p ++ [pOld]) p))
            end
        end
      else leave (step_forward bCrsrBack p).

(** [SvxRTFParser::AttrGroupEnd] *)
Definition AttrGroupEnd p : SvxRTFParser D :=
  match aAttrStack p with
  | [] => p
  | pOld :: below => AttrGroupEnd_popped below pOld (with_aAttrStack below p)
  end.

(** [SvxRTFParser::SetAttrSet]; [fuel] bounds the depth of the descent
    into the child lists. *)
Fixpoint SetAttrSet_fuel (fuel : nat) (rSet : Stk) (d : D) : D :=
  match fuel with
  | O => d
  | S fuel' =>
      let d := if IsSetDfltTab d then d else SetDefault RTF_DEFTAB 720 d in
      let rSet := if has_children rSet then Compress (IsEndPara d) rSet
                  else rSet in
      let d :=
        if negb (bool_decide (ItemSet.Count (aAttrSet rSet) = 0%nat))
           || negb (nStyleNo rSet =? 0)
        then SetAttrInDoc rSet d else d in
      match m_pChildList rSet with
      | Some l => fold_left (λ d c, SetAttrSet_fuel fuel' c d) l d
      | None => d
      end
  end.

Definition SetAttrSet (rSet : Stk) (d : D) : D :=
  SetAttrSet_fuel (S (depth rSet)) rSet d.

(** The loop of [NextToken] that sets all collected attributes: from the
    back of [m_AttrSetList] to its front, popping each entry. *)
Fixpoint set_collected (n : nat) p : SvxRTFParser D :=
  match n with
  | O => p
  | S n' =>
      match m_AttrSetList p !! n' with
      | Some pStkSet =>
          let p := with_ext (SetAttrSet pStkSet (ext p)) p in
          set_collected n' (with_m_AttrSetList
                              (removelast (m_AttrSetList p)) p)
      | None => p
      end
  end.

(** The character a single-character token is turned into. *)
Definition single_char (t : Token) : option Z :=
  match t with
  | RTF_LINE => Some 10
  | RTF_TAB => Some 9
  | RTF_SUBENTRYINDEX => Some 58
  | RTF_EMDASH => Some 0x2014
  | RTF_ENDASH => Some 0x2013
  | RTF_BULLET => Some 0x2022
  | RTF_LQUOTE => Some 0x2018
  | RTF_RQUOTE => Some 0x2019
  | RTF_LDBLQUOTE => Some 0x201C
  | RTF_RDBLQUOTE => Some 0x201D
  | _ => None
  end.

(** The text branch of [NextToken]. *)
Definition NextToken_text (aToken : OUString) p : SvxRTFParser D :=
  let p := with_ext (InsertText aToken (ext p)) p in
  set_collected (length (m_AttrSetList p)) p.

(** [SvxRTFParser::NextToken] on the tokens whose handling lies in
    svxrtf.cxx alone; [None] stands for the remaining tokens, which are
    handed to readers outside this file. *)
Definition NextToken (nToken : Token) p : option (SvxRTFParser D) :=
  match nToken with
  | RTF_TEXTTOKEN aToken => Some (NextToken_text aToken p)
  | RTF_PAR => Some (with_ext (InsertPara (ext p)) p)
  | T_OpenBrace =>
      Some (with_bNewGroup true (if bNewGroup p then GetAttrSet_ p else p))
  | T_CloseBrace =>
      Some (with_bNewGroup false
              (if negb (bNewGroup p) then AttrGroupEnd p else p))
  | _ =>
      match single_char nToken with
      | Some cCh => Some (NextToken_text [cCh] p)
      | None => None
      end
  end.

End ScopeStack.

(** ** The token source *)

Module Lex.

(** Modelled from the spec: the tokenizer [SvRTFParser] is not part of
    svxrtf.cxx.  Section 6 of the specification names what the parser
    consumes from it: next_token, skip_token(n), skip_group and
    still_working; a stream that runs out ends the working state. *)
Definition GetNextToken (l : Lexer) : Token * Lexer :=
  match pending l with
  | [] => (RTF_EOF, MkLexer (RTF_EOF :: consumed l) [] false (eSrcEnc l))
  | t :: rest => (t, MkLexer (t :: consumed l) rest (working l) (eSrcEnc l))
  end.

(** Modelled from the spec: [SkipToken(-n)] of the tokenizer, which steps
    back over the [n] tokens read last so that they are read again. *)
Fixpoint SkipToken_back (n : nat) (l : Lexer) : Lexer :=
  match n with
  | O => l
  | S n' =>
      match consumed l with
      | [] => l
      | t :: c =>
          SkipToken_back n' (MkLexer c (t :: pending l) (working l)
                                     (eSrcEnc l))
      end
  end.

Fixpoint skip_group (nBrackets : nat) (cons pend : list Token)
  : list Token * list Token :=
  match pend with
  | [] => (cons, [])
  | T_CloseBrace :: rest =>
      match nBrackets with
      | O => (cons, pend)
      | S n => skip_group n (T_CloseBrace :: cons) rest
      end
  | T_OpenBrace :: rest => skip_group (S nBrackets) (T_OpenBrace :: cons) rest
  | t :: rest => skip_group nBrackets (t :: cons) rest
  end.

(** Modelled from the spec: [ReadUnknownData], the skip_group of
    section 6: the rest of the current group is passed over and its
    closing brace is the next token. *)
Definition ReadUnknownData (l : Lexer) : Lexer :=
  let '(c, p) := skip_group 0 (consumed l) (pending l) in
  MkLexer c p (working l) (eSrcEnc l).

Definition SetEncoding (e : rtl_TextEncoding) (l : Lexer) : Lexer :=
  MkLexer (consumed l) (pending l) (working l) e.

(** "eState = SvParserState::Error" *)
Definition set_error (l : Lexer) : Lexer :=
  MkLexer (consumed l) (pending l) false (eSrcEnc l).

Definition IsParserWorking (l : Lexer) : bool := working l.

End Lex.

(** ** The colour table reader *)

Definition sal_uInt8 (v : Z) : Z := v mod 256.

(** The test that leaves a text token without a colour:
    "1 == aToken.getLength() ? aToken[0] != ';' : -1 == aToken.indexOf(';')" *)
Definition lacks_semicolon (aToken : OUString) : bool :=
  if (length aToken =? 1)%nat
  then negb (nth 0 aToken 0 =? 59)
  else negb (existsb (Z.eqb 59) aToken).

(** The channels [nRed], [nGreen], [nBlue] of [ReadColorTable]. *)
Record Channels := MkChannels { nRed : Z; nGreen : Z; nBlue : Z }.

(** "one color is finished, fill in the table" *)
Definition finish_color (ch : Channels) (tbl : list Color) : list Color :=
  let pColor := RGB (nRed ch) (nGreen ch) (nBlue ch) in
  let pColor :=
    if bool_decide (tbl = [])
       && (sal_uInt8 (-1) =? nRed ch) && (sal_uInt8 (-1) =? nGreen ch)
       && (sal_uInt8 (-1) =? nBlue ch)
    then COL_AUTO else pColor in
  tbl ++ [pColor].

(** One pass through the body of the loop of [ReadColorTable] for a token
    that is not the closing brace. *)
Definition ReadColorTable_body (nToken : Token) (bWorking : bool)
           (st : Channels * list Color) : Channels * list Color :=
  let '(ch, tbl) := st in
  let finish :=
    if bWorking then (MkChannels 0 0 0, finish_color ch tbl) else (ch, tbl) in
  match nToken with
  | RTF_RED v => (MkChannels (sal_uInt8 v) (nGreen ch) (nBlue ch), tbl)
  | RTF_GREEN v => (MkChannels (nRed ch) (sal_uInt8 v) (nBlue ch), tbl)
  | RTF_BLUE v => (MkChannels (nRed ch) (nGreen ch) (sal_uInt8 v), tbl)
  | RTF_TEXTTOKEN aToken => if lacks_semicolon aToken then (ch, tbl) else finish
  | T_Semicolon => finish
  | _ => (ch, tbl)
  end.

Definition is_close_brace (t : Token) : bool :=
  match t with T_CloseBrace => true | _ => false end.

(** The loop of [ReadColorTable].  Every turn takes one token, so the loop
    is defined by recursion on the tokens still to come, [pend], which the
    caller passes as [pending l]. *)
Fixpoint ReadColorTable_loop (pend : list Token) (l : Lexer)
         (st : Channels * list Color) : Lexer * (Channels * list Color) :=
  let '(nToken, l') := Lex.GetNextToken l in
  if is_close_brace nToken || negb (Lex.IsParserWorking l')
  then (l', st)
  else
    match pend with
    | [] => (l', st)
    | _ :: rest =>
        ReadColorTable_loop rest l'
          (ReadColorTable_body nToken (Lex.IsParserWorking l') st)
    end.

Section Tables.
Context {D : Type} `{!External D}.
Implicit Type p : SvxRTFParser D.

(** [SvxRTFParser::ReadColorTable] *)
Definition ReadColorTable p : SvxRTFParser D :=
  let '(l, (_, tbl)) :=
    ReadColorTable_loop (pending (lexer p)) (lexer p)
                        (MkChannels 0xff 0xff 0xff, aColorTbl p) in
  with_lexer (Lex.SkipToken_back 1 l) (with_aColorTbl tbl p).

(** ** The font table reader *)

Definition ascii_ru : OUString := [114; 117].
Definition ascii_uk : OUString := [117; 107].
Definition ascii_tr : OUString := [116; 114].

(** [lcl_GetDefaultTextEncodingForRTF] *)
Definition lcl_GetDefaultTextEncodingForRTF (d : D) : rtl_TextEncoding :=
  let aLangString := getLanguage d in
  if bool_decide (aLangString = ascii_ru)
     || bool_decide (aLangString = ascii_uk)
  then RTL_TEXTENCODING_MS_1251
  else if bool_decide (aLangString = ascii_tr)
  then RTL_TEXTENCODING_MS_1254
  else RTL_TEXTENCODING_MS_1252.

End Tables.

(** "static_cast<short>(nTokenValue)" *)
Definition to_short (v : Z) : Z := (v + 32768) mod 65536 - 32768.

(** [comphelper::string::stripStart(rStr, ' ')] *)
Fixpoint stripStart (s : OUString) : OUString :=
  match s with
  | c :: s' => if c =? 32 then stripStart s' else s
  | [] => []
  end.

(** [comphelper::string::stripEnd(rStr, ' ')] *)
Definition stripEnd (s : OUString) : OUString := rev (stripStart (rev s)).

(** [SvxRTFParser::DelCharAtEnd] *)
Definition DelCharAtEnd (rStr : OUString) (cDel : Z) : OUString :=
  let rStr :=
    match rStr with
    | c :: _ => if c =? 32 then stripStart rStr else rStr
    | [] => rStr
    end in
  let rStr :=
    match last rStr with
    | Some c => if c =? 32 then stripEnd rStr else rStr
    | None => rStr
    end in
  match last rStr with
  | Some c => if c =? cDel then removelast rStr else rStr
  | None => rStr
  end.

(** [std::map::insert]: the element is inserted only when the map holds no
    element under the key. *)
Definition std_map_insert {A} (k : Z) (v : A) (m : gmap Z A) : gmap Z A :=
  match m !! k with
  | Some _ => m
  | None => <[k := v]> m
  end.

(** The local variables of [ReadFontTable]. *)
Record FontLocals := MkFontLocals {
  _nOpenBrakets : Z;
  pFont : Font;
  nFontNo : Z;
  nInsFontNo : Z;
  sAltNm : OUString;
  sFntNm : OUString;
  bIsAltFntNm : bool;
  nSystemChar : rtl_TextEncoding
}.

Definition set_font (f : Font) (l : FontLocals) : FontLocals :=
  MkFontLocals (_nOpenBrakets l) f (nFontNo l) (nInsFontNo l) (sAltNm l)
               (sFntNm l) (bIsAltFntNm l) (nSystemChar l).

Definition set_open (n : Z) (l : FontLocals) : FontLocals :=
  MkFontLocals n (pFont l) (nFontNo l) (nInsFontNo l) (sAltNm l)
               (sFntNm l) (bIsAltFntNm l) (nSystemChar l).

Definition is_symbol (e : rtl_TextEncoding) : bool :=
  match e with RTL_TEXTENCODING_SYMBOL => true | _ => false end.

(** The groups the font table reader filters out at once. *)
Definition is_filtered_group (t : Token) : bool :=
  match t with
  | RTF_UNKNOWNCONTROL | RTF_PANOSE | RTF_FNAME | RTF_FONTEMB
  | RTF_FONTFILE => true
  | _ => false
  end.

Definition is_ignoreflag (t : Token) : bool :=
  match t with RTF_IGNOREFLAG => true | _ => false end.

Section FontTable.
Context {D : Type} `{!External D}.
Implicit Type p : SvxRTFParser D.

(** The switch of the loop of [ReadFontTable]: the flag [bCheckNewFont],
    the locals and the token source after the token has been handled. *)
Definition ReadFontTable_switch (nToken : Token) (v : FontLocals)
           (l : Lexer) : bool * FontLocals * Lexer :=
  let f := pFont v in
  match nToken with
  | T_CloseBrace =>
      (true,
       MkFontLocals (_nOpenBrakets v - 1) f (nFontNo v) (nFontNo v)
                    (sAltNm v) (sFntNm v) false (nSystemChar v),
       l)
  | T_OpenBrace =>
      let '(t1, l1) := Lex.GetNextToken l in
      if negb (is_ignoreflag t1)
      then (false, set_open (_nOpenBrakets v + 1) v, Lex.SkipToken_back 1 l1)
      else
        let '(t2, l2) := Lex.GetNextToken l1 in
        if negb (is_filtered_group t2)
        then (false, set_open (_nOpenBrakets v + 1) v,
              Lex.SkipToken_back 2 l2)
        else
          let l3 := Lex.ReadUnknownData l2 in
          let '(t3, l4) := Lex.GetNextToken l3 in
          (false, v, if is_close_brace t3 then l4 else Lex.set_error l4)
  | RTF_FROMAN =>
      (false, set_font (MkFont (FamilyName f) FAMILY_ROMAN (Pitch f)
                               (CharSet f)) v, l)
  | RTF_FSWISS =>
      (false, set_font (MkFont (FamilyName f) FAMILY_SWISS (Pitch f)
                               (CharSet f)) v, l)
  | RTF_FMODERN =>
      (false, set_font (MkFont (FamilyName f) FAMILY_MODERN (Pitch f)
                               (CharSet f)) v, l)
  | RTF_FSCRIPT =>
      (false, set_font (MkFont (FamilyName f) FAMILY_SCRIPT (Pitch f)
                               (CharSet f)) v, l)
  | RTF_FDECOR =>
      (false, set_font (MkFont (FamilyName f) FAMILY_DECORATIVE (Pitch f)
                               (CharSet f)) v, l)
  | RTF_FTECH =>
      (false, set_font (MkFont (FamilyName f) FAMILY_DONTKNOW (Pitch f)
                               RTL_TEXTENCODING_SYMBOL) v, l)
  | RTF_FNIL =>
      (false, set_font (MkFont (FamilyName f) FAMILY_DONTKNOW (Pitch f)
                               (CharSet f)) v, l)
  | RTF_FCHARSET nTokenValue =>
      if nTokenValue =? -1 then (false, v, l)
      else
        let nrtl_TextEncoding :=
          getTextEncodingFromWindowsCharset (sal_uInt8 nTokenValue) in
        (false,
         set_font (MkFont (FamilyName f) (Family f) (Pitch f)
                          nrtl_TextEncoding) v,
         Lex.SetEncoding (if is_symbol nrtl_TextEncoding
                          then RTL_TEXTENCODING_DONTKNOW
                          else nrtl_TextEncoding) l)
  | RTF_FPRQ nTokenValue =>
      if nTokenValue =? 1
      then (false, set_font (MkFont (FamilyName f) (Family f) PITCH_FIXED
                                    (CharSet f)) v, l)
      else if nTokenValue =? 2
      then (false, set_font (MkFont (FamilyName f) (Family f) PITCH_VARIABLE
                                    (CharSet f)) v, l)
      else (false, v, l)
  | RTF_F nTokenValue =>
      (true,
       MkFontLocals (_nOpenBrakets v) f (to_short nTokenValue) (nFontNo v)
                    (sAltNm v) (sFntNm v) (bIsAltFntNm v) (nSystemChar v),
       l)
  | RTF_FALT =>
      (false,
       MkFontLocals (_nOpenBrakets v) f (nFontNo v) (nInsFontNo v)
                    (sAltNm v) (sFntNm v) true (nSystemChar v),
       l)
  | RTF_TEXTTOKEN aToken =>
      let aToken := DelCharAtEnd aToken 59 in
      match aToken with
      | [] => (false, v, l)
      | _ =>
          if bIsAltFntNm v
          then (false,
                MkFontLocals (_nOpenBrakets v) f (nFontNo v) (nInsFontNo v)
                             aToken (sFntNm v) (bIsAltFntNm v)
                             (nSystemChar v), l)
          else (false,
                MkFontLocals (_nOpenBrakets v) f (nFontNo v) (nInsFontNo v)
                             (sAltNm v) aToken (bIsAltFntNm v)
                             (nSystemChar v), l)
      end
  | _ => (false, v, l)
  end.

(** "one font is ready": the font goes into the table and the locals are
    cleared for the next one. *)
Definition font_ready (v : FontLocals) (tbl : gmap Z Font)
  : FontLocals * gmap Z Font :=
  let sFntNm' :=
    match sAltNm v with
    | [] => sFntNm v
    | _ => sFntNm v ++ [59] ++ sAltNm v
    end in
  let f := pFont v in
  let f := MkFont sFntNm' (Family f) (Pitch f) (CharSet f) in
  (MkFontLocals (_nOpenBrakets v)
     (MkFont [] FAMILY_DONTKNOW PITCH_DONTKNOW (nSystemChar v))
     (nFontNo v) (nInsFontNo v) [] [] (bIsAltFntNm v) (nSystemChar v),
   std_map_insert (nInsFontNo v) f tbl).

(** One turn of the loop of [ReadFontTable]. *)
Definition ReadFontTable_turn (v : FontLocals) (l : Lexer)
           (tbl : gmap Z Font) : FontLocals * Lexer * gmap Z Font :=
  let '(nToken, l) := Lex.GetNextToken l in
  let '(bCheckNewFont, v, l) := ReadFontTable_switch nToken v l in
  if bCheckNewFont && (1 >=? _nOpenBrakets v)
     && negb (bool_decide (sFntNm v = []))
  then let '(v, tbl) := font_ready v tbl in (v, l, tbl)
  else (v, l, tbl).

(** The loop "while (_nOpenBrakets && IsParserWorking())"; every turn
    takes at least one token or ends the working state, [fuel] bounds
    the number of turns. *)
Fixpoint ReadFontTable_loop (fuel : nat) (v : FontLocals) (l : Lexer)
         (tbl : gmap Z Font) : FontLocals * Lexer * gmap Z Font :=
  if negb (_nOpenBrakets v =? 0) && Lex.IsParserWorking l
  then
    match fuel with
    | O => (v, l, tbl)
    | S fuel' =>
        let '(v, l, tbl) := ReadFontTable_turn v l tbl in
        ReadFontTable_loop fuel' v l tbl
    end
  else (v, l, tbl).

(** [SvxRTFParser::ReadFontTable] *)
Definition ReadFontTable p : SvxRTFParser D :=
  let nSystemChar := lcl_GetDefaultTextEncodingForRTF (ext p) in
  let v :=
    MkFontLocals 1 (MkFont [] FAMILY_DONTKNOW PITCH_DONTKNOW nSystemChar)
                 0 0 [] [] false nSystemChar in
  let l := Lex.SetEncoding nSystemChar (lexer p) in
  let '(_, l, tbl) :=
    ReadFontTable_loop (S (length (pending l))) v l (m_FontTable p) in
  let l := Lex.SkipToken_back 1 l in
  let p := with_lexer l (with_m_FontTable tbl p) in
  if bNewDoc p && Lex.IsParserWorking l
  then with_ext (SetDefault RTF_DEFF (nDfltFont p) (ext p)) p
  else p.

(** [SvxRTFParser::GetFont] for an id the table holds: the argument is a
    [sal_uInt16] and the keys of the table are [short], so the id is
    converted before it is looked up. *)
Definition GetFont_found (nId : Z) p : option Font :=
  m_FontTable p !! to_short nId.

End FontTable.

(** ** A document of paragraphs

    Modelled from the spec: the document model (the class that implements
    the pure virtual methods [InsertText], [InsertPara], [MovePos],
    [SetEndPrevPara], [IsEndPara] and overrides [SetAttrInDoc]), the
    attribute pool and [SetDefault] are not part of svxrtf.cxx.  Section 6
    of the specification lists what the parser consumes from them:
    current_position, move_position(forward), is_paragraph_end(position),
    default_value(attribute_id) and apply_attributes.  The document below is
    a sequence of paragraph lengths with a cursor; it records every call
    that reaches it, in order. *)

Module ParaDoc.

Inductive Event :=
| EvInsertText (aToken : OUString)
| EvInsertPara
| EvSetAttrInDoc (rSet : Stk)
| EvSetDefault (nToken : DefaultToken) (nValue : Z).

Record t := Mk {
  paras : list Z;
  cur_nd : Z;
  cur_cnt : Z;
  pool_defaults : gmap Z Z;
  bIsSetDfltTab : bool;
  calls : list Event
}.

Definition Len (d : t) (nd : Z) : Z := nth (Z.to_nat nd) (paras d) 0.

Definition move (forward : bool) (d : t) : t :=
  let nd := cur_nd d in
  let cnt := cur_cnt d in
  let '(nd', cnt') :=
    if forward
    then if cnt <? Len d nd then (nd, cnt + 1)
         else if nd + 1 <? Z.of_nat (length (paras d)) then (nd + 1, 0)
         else (nd, cnt)
    else if 0 <? cnt then (nd, cnt - 1)
         else if 0 <? nd then (nd - 1, Len d (nd - 1))
         else (nd, cnt) in
  Mk (paras d) nd' cnt' (pool_defaults d) (bIsSetDfltTab d) (calls d).

Definition insert_text (s : OUString) (d : t) : t :=
  let n := Z.of_nat (length s) in
  Mk (<[Z.to_nat (cur_nd d) := Len d (cur_nd d) + n]> (paras d))
     (cur_nd d) (cur_cnt d + n) (pool_defaults d) (bIsSetDfltTab d)
     (calls d ++ [EvInsertText s]).

Definition insert_para (d : t) : t :=
  let i := Z.to_nat (cur_nd d) in
  Mk (take i (paras d) ++ [cur_cnt d; Len d (cur_nd d) - cur_cnt d]
        ++ drop (S i) (paras d))
     (cur_nd d + 1) 0 (pool_defaults d) (bIsSetDfltTab d)
     (calls d ++ [EvInsertPara]).

Definition end_prev_para (d : t) : Z * Z :=
  let nCurPara := if cur_nd d =? 0 then 0 else cur_nd d - 1 in
  (nCurPara, Len d nCurPara).

Definition set_attr_in_doc (r : Stk) (d : t) : t :=
  Mk (paras d) (cur_nd d) (cur_cnt d) (pool_defaults d) (bIsSetDfltTab d)
     (calls d ++ [EvSetAttrInDoc r]).

Definition set_pool_default (w v : Z) (d : t) : t :=
  Mk (paras d) (cur_nd d) (cur_cnt d) (<[w := v]> (pool_defaults d))
     (bIsSetDfltTab d) (calls d).

Definition set_default (nToken : DefaultToken) (v : Z) (d : t) : t :=
  Mk (paras d) (cur_nd d) (cur_cnt d) (pool_defaults d)
     (match nToken with RTF_DEFTAB => true | _ => bIsSetDfltTab d end)
     (calls d ++ [EvSetDefault nToken v]).

Definition encoding_of_charset (c : Z) : rtl_TextEncoding :=
  match c with
  | 0 => RTL_TEXTENCODING_MS_1252
  | 2 => RTL_TEXTENCODING_SYMBOL
  | 162 => RTL_TEXTENCODING_MS_1254
  | 204 => RTL_TEXTENCODING_MS_1251
  | _ => RTL_TEXTENCODING_OTHER c
  end.

#[global] Instance external : External t := {|
  GetNodeIdx := cur_nd;
  GetCntIdx := cur_cnt;
  InsertText := insert_text;
  InsertPara := insert_para;
  MovePos := move;
  SetEndPrevPara := end_prev_para;
  IsEndPara := λ d nd cnt, cnt =? Len d nd;
  SetAttrInDoc := set_attr_in_doc;
  GetDefaultItem := λ d w, default 0 (pool_defaults d !! w);
  SetPoolDefaultItem := set_pool_default;
  IsWhich := λ w, (0 <? w) && (w <=? 4999);
  IsSetDfltTab := bIsSetDfltTab;
  SetDefault := set_default;
  getTextEncodingFromWindowsCharset := encoding_of_charset;
  getLanguage := λ _, [101; 110];
  GetNodeIdx_pool := λ _ _ _, eq_refl;
  GetCntIdx_pool := λ _ _ _, eq_refl;
  SetEndPrevPara_pool := λ _ _ _, eq_refl
|}.

(** A document of the given paragraph lengths with the cursor at
    ([nd], [cnt]). *)
Definition doc (ps : list Z) (nd cnt : Z) : t :=
  Mk ps nd cnt ∅ false [].

Definition no_pard_ids : RTFPardAttrMapIds :=
  MkPardMap 0 0 0 0 0 0 0 0 0 0 0 0 0 0 0 0 0.

(** A parser over the document with the given stack and flush list, no
    tables, for a new document, style checks off; [nAdjust] is the only
    paragraph attribute the pool knows. *)
Definition parser (d : t) (nAdjustId : Z) (stack flush : list Stk)
  : SvxRTFParser t :=
  MkParser d (MkLexer [] [] true RTL_TEXTENCODING_DONTKNOW) [] ∅ ∅
           stack flush
           (MkPardMap 0 nAdjustId 0 0 0 0 0 0 0 0 0 0 0 0 0 0 0)
           (Some ∅) 0 true false false.

End ParaDoc.

(** ** Notions used by the statements *)

(** The child list of a record as a list ([nullptr] read as no child). *)
Definition children_of (r : Stk) : list Stk := default [] (m_pChildList r).


(** A token that finishes a colour entry: the separator, or a text that
    holds one. *)
Definition finishes_color (t : Token) : bool :=
  match t with
  | T_Semicolon => true
  | RTF_TEXTTOKEN aToken => negb (lacks_semicolon aToken)
  | _ => false
  end.

(** A token that overrides a channel. *)
Definition sets_channel (t : Token) : bool :=
  match t with
  | RTF_RED _ | RTF_GREEN _ | RTF_BLUE _ => true
  | _ => false
  end.

(** A token that neither touches the channels, nor finishes a colour, nor
    ends the table. *)
Definition passes_by (t : Token) : bool :=
  negb (sets_channel t) && negb (finishes_color t) && negb (is_close_brace t).

(** A which-id of a paragraph attribute: a non-zero entry of the map. *)
Definition is_pard_id (m : RTFPardAttrMapIds) (w : Z) : Prop :=
  w ≠ 0 ∧ w ∈ PardMap_array m.

(** The items of a set that are not paragraph attributes. *)
Definition char_attrs (m : RTFPardAttrMapIds) (s : SfxItemSet) : SfxItemSet :=
  filter (λ kv, ¬ is_pard_id m kv.1) s.

(** ** Driving the parser *)

Section Run.
Context {D : Type} `{!External D}.
Implicit Type p : SvxRTFParser D.

(** Modelled from the spec: the attribute reader [ReadAttr] lives in
    rtfitem.cxx, and the inline [GetAttrSet] it is handed in a header.
    Section 4.1 of the specification: a pending group open is
    materialized by pushing a new record, and the attribute reader writes
    into the top-of-stack record's attributes. *)
Definition read_attr (nWhich item : Z) p : SvxRTFParser D :=
  let p := if bNewGroup p || bool_decide (aAttrStack p = [])
           then GetAttrSet_ p else p in
  match aAttrStack p with
  | pTmp :: below =>
      with_aAttrStack
        (set_attrs (<[nWhich := item]> (aAttrSet pTmp)) pTmp :: below) p
  | [] => p
  end.

(** One step of a parse: a token handed to [NextToken], or an attribute
    token that puts one item. *)
Inductive Step :=
| Tok (nToken : Token)
| Attr (nWhich item : Z).

Definition step (s : Step) p : option (SvxRTFParser D) :=
  match s with
  | Tok nToken => NextToken nToken p
  | Attr nWhich item => Some (read_attr nWhich item p)
  end.

Fixpoint run (steps : list Step) p : option (SvxRTFParser D) :=
  match steps with
  | [] => Some p
  | s :: rest =>
      match step s p with
      | Some p' => run rest p'
      | None => None
      end
  end.
End Run.

(** ** Sample documents and parses *)

Module Ex.

(** Which-ids of the samples: [nAdjust] is a paragraph attribute, the
    others are character attributes. *)
Definition nAdjust_id : Z := 20.
Definition weight_id : Z := 7.
Definition posture_id : Z := 8.
Definition underline_id : Z := 9.

Definition text (n : nat) : Step := Tok (RTF_TEXTTOKEN (replicate n 97)).

(** An empty document before the first token. *)
Definition start : SvxRTFParser ParaDoc.t :=
  ParaDoc.parser (ParaDoc.doc [0] 0 0) nAdjust_id [] [].

(** A record that carries a paragraph attribute and a character
    attribute, opened in paragraph 0 and closed at offset 3 of
    paragraph 1, with no parent. *)
Definition split_record : Stk :=
  MkStk {[ nAdjust_id := 1; weight_id := 1 ]} 0 0 0 0 0 None.

Definition split_input : SvxRTFParser ParaDoc.t :=
  ParaDoc.parser (ParaDoc.doc [3; 3] 1 3) nAdjust_id [split_record] [].

(** A record that shares the weight with its parent and adds an
    underline, closed in the middle of a paragraph. *)
Definition diff_parent : Stk := MkStk {[ weight_id := 1 ]} 0 0 0 0 0 None.
Definition diff_record : Stk :=
  MkStk {[ weight_id := 1; underline_id := 1 ]} 0 2 0 2 0 None.

Definition diff_input : SvxRTFParser ParaDoc.t :=
  ParaDoc.parser (ParaDoc.doc [5] 0 5) nAdjust_id
                 [diff_record; diff_parent] [].

(** A record that starts at the cursor. *)
Definition zero_span_record : Stk :=
  MkStk {[ weight_id := 1 ]} 0 5 0 5 0 None.

Definition zero_span_input : SvxRTFParser ParaDoc.t :=
  ParaDoc.parser (ParaDoc.doc [5] 0 5) nAdjust_id
                 [zero_span_record; diff_parent] [].

(** One sibling group "{\b a}" . *)
Definition sibling : list Step :=
  [Tok T_OpenBrace; Attr weight_id 1; text 1; Tok T_CloseBrace].

(** "{\i" followed by [n] sibling groups, all in one paragraph. *)
Definition siblings (n : nat) : list Step :=
  [Tok T_OpenBrace; Attr posture_id 1] ++ concat (replicate n sibling).

(** A parent with 50 children that each cover one paragraph, and a
    record over paragraph 50 that is closed at the start of
    paragraph 51. *)
Definition para_child (i : nat) : Stk :=
  MkStk {[ weight_id := 1 ]} (Z.of_nat i) 0 (Z.of_nat i) 1 0 None.

Definition full_parent : Stk :=
  MkStk {[ posture_id := 1 ]} 0 0 0 0 0 (Some (map para_child (seq 0 50))).

Definition fan_out_input : SvxRTFParser ParaDoc.t :=
  ParaDoc.parser (ParaDoc.doc (replicate 52 1) 51 0) nAdjust_id
                 [para_child 50; full_parent] [].

(** A colour table "{\colortbl;\red255\green0\blue0;}" after its
    introducing token. *)
Definition color_tokens : list Token :=
  [T_Semicolon; RTF_RED 255; RTF_GREEN 0; RTF_BLUE 0; T_Semicolon;
   T_CloseBrace].

Definition with_tokens (toks : list Token) : SvxRTFParser ParaDoc.t :=
  with_lexer (MkLexer [] toks true RTL_TEXTENCODING_DONTKNOW) start.

(** "Times;" and "Arial;" *)
Definition Times_ : list Z := [84; 105; 109; 101; 115; 59].
Definition Arial_ : list Z := [65; 114; 105; 97; 108; 59].

(** The font table "{\fonttbl{\f0\froman Times;}{\f0\fswiss Arial;}}"
    after its introducing token: two entries under the id 0. *)
Definition font_tokens : list Token :=
  [T_OpenBrace; RTF_F 0; RTF_FROMAN; RTF_TEXTTOKEN Times_; T_CloseBrace;
   T_OpenBrace; RTF_F 0; RTF_FSWISS; RTF_TEXTTOKEN Arial_; T_CloseBrace;
   T_CloseBrace].

Definition Times_font : Font :=
  MkFont [84; 105; 109; 101; 115] FAMILY_ROMAN PITCH_DONTKNOW
         RTL_TEXTENCODING_MS_1252.
Definition Arial_font : Font :=
  MkFont [65; 114; 105; 97; 108] FAMILY_SWISS PITCH_DONTKNOW
         RTL_TEXTENCODING_MS_1252.

(** "{\i {\b\ul abc}{\b\par}{\b\ul def}}": the middle group spans no
    text of its own. *)
Definition erased_child_parse : list Step :=
  [Tok T_OpenBrace; Attr posture_id 1;
   Tok T_OpenBrace; Attr weight_id 1; Attr underline_id 1; text 3;
   Tok T_CloseBrace;
   Tok T_OpenBrace; Attr weight_id 1; Tok RTF_PAR; Tok T_CloseBrace;
   Tok T_OpenBrace; Attr weight_id 1; Attr underline_id 1; text 3;
   Tok T_CloseBrace;
   Tok T_CloseBrace].

Definition leaf (a : SfxItemSet) (sn sc en ec : Z) : Stk :=
  MkStk a sn sc en ec 0 None.

(** The record that parse leaves in the flush list. *)
Definition erased_child_tree : Stk :=
  MkStk {[ posture_id := 1 ]} 0 0 1 3 0
    (Some [ leaf {[ weight_id := 1; underline_id := 1 ]} 0 0 0 3;
            leaf {[ weight_id := 1 ]} 0 3 0 3;
            leaf {[ weight_id := 1; underline_id := 1 ]} 1 0 1 3 ]).


(** "{\i {\b aaaaa}{\b {\b0 bbbbb}}}" with weight 1 for \b and weight 2
    for \b0: the second child holds a grandchild that overrides the
    weight over the whole of its range. *)
Definition override_parse : list Step :=
  [Tok T_OpenBrace; Attr posture_id 1;
   Tok T_OpenBrace; Attr weight_id 1; text 5; Tok T_CloseBrace;
   Tok T_OpenBrace; Attr weight_id 1;
   Tok T_OpenBrace; Attr weight_id 2; text 5; Tok T_CloseBrace;
   Tok T_CloseBrace;
   Tok T_CloseBrace].

Definition override_tree : Stk :=
  MkStk {[ posture_id := 1 ]} 0 0 0 10 0
    (Some [ leaf {[ weight_id := 1 ]} 0 0 0 5;
            MkStk {[ weight_id := 1 ]} 0 5 0 10 0
                  (Some [ leaf {[ weight_id := 2 ]} 0 5 0 10 ]) ]).

Definition one_para (nd cnt : Z) : bool :=
  IsEndPara (ParaDoc.doc [10] 0 10) nd cnt.

(** Three leaves that share the weight and cover their parent. *)
Definition covered_tree : Stk :=
  MkStk ∅ 0 0 0 9 0
    (Some [ leaf {[ weight_id := 1; underline_id := 1 ]} 0 0 0 3;
            leaf {[ weight_id := 1 ]} 0 3 0 6;
            leaf {[ weight_id := 1; posture_id := 1 ]} 0 6 0 9 ]).


(** A record with the style 4, which sets the weight, closed like
    [split_record] while attributes are checked against the styles. *)
Definition styled_split_record : Stk :=
  MkStk {[ nAdjust_id := 1; weight_id := 1 ]} 0 0 0 0 4 None.

Definition styled_split_input : SvxRTFParser ParaDoc.t :=
  MkParser (ParaDoc.doc [3; 3] 1 3)
           (MkLexer [] [] true RTL_TEXTENCODING_DONTKNOW) [] ∅
           {[ 4 := MkStyle {[ weight_id := 1 ]} [] 0 0 ]}
           [styled_split_record] []
           (MkPardMap 0 nAdjust_id 0 0 0 0 0 0 0 0 0 0 0 0 0 0 0)
           (Some ∅) 0 true false true.

(** [split_record] closed in a document that is not new, where the RTF
    defaults hold the script-space item (which-id 21). *)
Definition defaults_split_input : SvxRTFParser ParaDoc.t :=
  MkParser (ParaDoc.doc [3; 3] 1 3)
           (MkLexer [] [] true RTL_TEXTENCODING_DONTKNOW) [] ∅ ∅
           [split_record] []
           (MkPardMap 0 nAdjust_id 0 0 0 0 0 0 0 0 0 0 0 21 0 0 0)
           None 0 false false false.

(** One sibling group that ends with a paragraph break, "{\b a\par}":
    it is closed at the start of the next paragraph. *)
Definition para_sibling : list Step :=
  [Tok T_OpenBrace; Attr weight_id 1; text 1; Tok RTF_PAR; Tok T_CloseBrace].

(** "{\i" followed by [n] such sibling groups. *)
Definition para_siblings (n : nat) : list Step :=
  [Tok T_OpenBrace; Attr posture_id 1] ++ concat (replicate n para_sibling).

End Ex.

(** ** Notions used by the statements about [Compress] *)

(** The children follow one another: none fails the adjacency test of the
    loop of [Compress] against the end of its predecessor. *)
Fixpoint chain_adjacent (IsEndPara : Z → Z → bool) (lastNd lastCnt : Z)
         (cs : list Stk) : bool :=
  match cs with
  | [] => true
  | c :: cs' =>
      negb (not_adjacent IsEndPara lastNd lastCnt c)
      && chain_adjacent IsEndPara (pEndNd c) (nEndCnt c) cs'
  end.

(** The end of the last child, or the given position when there is none. *)
Fixpoint last_end (lastNd lastCnt : Z) (cs : list Stk) : Z * Z :=
  match cs with
  | [] => (lastNd, lastCnt)
  | c :: cs' => last_end (pEndNd c) (nEndCnt c) cs'
  end.

(** The number of records of a tree. *)
Fixpoint count_records (r : Stk) : nat :=
  match m_pChildList r with
  | None => 1%nat
  | Some l => S (list_sum (map count_records l))
  end.



(** The number of turns a reader can still take: the tokens to come and
    the end of the stream, none once the parser has stopped working. *)
Definition turns_left (l : Lexer) : nat :=
  if working l then S (length (pending l)) else 0%nat.

(** ** The end of a parse *)

(** [SvxRTFItemStackType::DropChildList]: the child list of the record is
    released; the breadth-first order in which the nested lists are
    released bounds the depth of the destructor calls and leaves no trace
    in the record. *)
Definition DropChildList (r : Stk) : Stk :=
  match m_pChildList r with
  | None => r
  | Some [] => r
  | Some _ => set_children None r
  end.

Section EndOfParse.
Context {D : Type} `{!External D}.
Implicit Type p : SvxRTFParser D.

(** The loop "while( !aAttrStack.empty() ) AttrGroupEnd()"; [n] bounds
    the number of turns. *)
Fixpoint close_all (n : nat) p : SvxRTFParser D :=
  match aAttrStack p with
  | [] => p
  | _ :: _ =>
      match n with
      | O => p
      | S n' => close_all n' (AttrGroupEnd p)
      end
  end.

(** The second loop of [SetAllAttrOfStk]: from the back of
    [m_AttrSetList] to its front, each entry is set, loses its child list
    and is popped. *)
Fixpoint set_and_drop (n : nat) p : SvxRTFParser D :=
  match n with
  | O => p
  | S n' =>
      match m_AttrSetList p !! n' with
      | Some pStkSet =>
          let p := with_ext (SetAttrSet pStkSet (ext p)) p in
          let p :=
            with_m_AttrSetList
              (<[n' := DropChildList pStkSet]> (m_AttrSetList p)) p in
          set_and_drop n' (with_m_AttrSetList
                             (removelast (m_AttrSetList p)) p)
      | None => p
      end
  end.

(** [SvxRTFParser::SetAllAttrOfStk]; every [AttrGroupEnd] takes one record
    off the stack, so the first loop takes as many turns as the stack has
    records. *)
Definition SetAllAttrOfStk p : SvxRTFParser D :=
  let p := close_all (length (aAttrStack p)) p in
  set_and_drop (length (m_AttrSetList p)) p.

(** [SvxRTFParser::IsAttrSttPos] *)
Definition IsAttrSttPos p : bool :=
  match aAttrStack p with
  | [] => true
  | pCurrent :: _ =>
      (pSttNd pCurrent =? GetNodeIdx (ext p))
      && (nSttCnt pCurrent =? GetCntIdx (ext p))
  end.

(** Two parser states agree on what [AttrGroupEnd] has no business with:
    the resource tables, the token source and the settings. *)
Definition same_tables p (q : SvxRTFParser D) : Prop :=
  lexer q = lexer p ∧ aColorTbl q = aColorTbl p
  ∧ m_FontTable q = m_FontTable p ∧ m_StyleTable q = m_StyleTable p
  ∧ aPardMap q = aPardMap p ∧ nDfltFont q = nDfltFont p
  ∧ bNewDoc q = bNewDoc p ∧ bChkStyleAttr q = bChkStyleAttr p.

End EndOfParse.

(** ** Notions used by the statements about the tables *)

(** The tokens up to the first closing brace. *)
Fixpoint up_to_close (toks : list Token) : list Token :=
  match toks with
  | [] => []
  | t :: rest => if is_close_brace t then [] else t :: up_to_close rest
  end.

(** A colour whose channels are bytes, or the automatic colour. *)
Definition byte_color (c : Color) : Prop :=
  match c with
  | COL_AUTO => True
  | RGB r g b => (0 ≤ r < 256) ∧ (0 ≤ g < 256) ∧ (0 ≤ b < 256)
  end.

(** A string that does not begin with a space. *)
Definition no_leading_space (s : list Z) : Prop :=
  match s with
  | [] => True
  | c :: _ => c ≠ 32
  end.

(** ** Runs of tokens *)

Section TokenRuns.
Context {D : Type} `{!External D}.
Implicit Type p : SvxRTFParser D.

(** [NextToken] "is called for each token that is recognized in
    CallParser": the tokens of a list are handed to it one after the
    other; [None] as soon as a token is one handled outside svxrtf.cxx. *)
Fixpoint NextTokens (toks : list Token) p : option (SvxRTFParser D) :=
  match toks with
  | [] => Some p
  | t :: rest =>
      match NextToken t p with
      | Some q => NextTokens rest q
      | None => None
      end
  end.

(** The state [q] differs from [p] by [k] records on top of the stack
    that were opened at the cursor and hold no children. *)
Definition groups_opened p (k : nat) (q : SvxRTFParser D) : Prop :=
  (∃ news,
      aAttrStack q = news ++ aAttrStack p ∧ length news = k
      ∧ Forall (λ r, m_pChildList r = None
                     ∧ pSttNd r = GetNodeIdx (ext p)
                     ∧ nSttCnt r = GetCntIdx (ext p)) news)
  ∧ m_AttrSetList q = m_AttrSetList p
  ∧ GetNodeIdx (ext q) = GetNodeIdx (ext p)
  ∧ GetCntIdx (ext q) = GetCntIdx (ext p)
  ∧ same_tables p q.

End TokenRuns.

(** ** Notions used by the statements about the width of the child lists *)

(** The length of the longest child list in the tree of a record. *)
Fixpoint widest (r : Stk) : nat :=
  match m_pChildList r with
  | None => 0%nat
  | Some l => Nat.max (length l) (list_max (map widest l))
  end.

(** A record of the scope stack can still take a child: it has at most
    50 children, and no record below it has more than 51. *)
Definition stack_ok (r : Stk) : Prop :=
  (length (children_of r) ≤ 50)%nat ∧ (widest r ≤ 51)%nat.

Section FanOutBound.
Context {D : Type} `{!External D}.
Implicit Type p : SvxRTFParser D.

(** The state in which [AttrGroupEnd] closes a parent early: the cursor
    was stepped back for the close and forward again, and the RTF
    defaults were fetched for the record that takes the place of the
    parent. *)
Definition before_early_close p : SvxRTFParser D :=
  (GetRTFDefaults
     (with_ext (MovePos true (cursor_for_close (ext p))) p)).2.

(** The cursor is stepped back for a close, and for the early closes of
    up to [n - 1] parents that the close can set off. *)
Fixpoint stepped_back_deep (n : nat) p : bool :=
  match n with
  | O => true
  | S n' =>
      stepped_back (ext p) && stepped_back_deep n' (before_early_close p)
  end.

(** A close in the state [p] happens at the start of a paragraph, with
    the cursor stepped back, whichever of the open records it closes. *)
Definition closes_at_paragraph_start p : bool :=
  stepped_back_deep (length (aAttrStack p)) p.

(** Every closing brace of the steps that reaches [AttrGroupEnd] does so
    at the start of a paragraph. *)
Fixpoint closes_stepped_back (steps : list Step) p : bool :=
  match steps with
  | [] => true
  | s :: rest =>
      match s with
      | Tok T_CloseBrace => bNewGroup p || closes_at_paragraph_start p
      | _ => true
      end
      && match step s p with
         | Some q => closes_stepped_back rest q
         | None => true
         end
  end.

(** No record on the scope stack has more than 50 children, and no record
    of the stack, of the flush list or below them more than 51. *)
Definition fan_out_bounded p : Prop :=
  Forall stack_ok (aAttrStack p)
  ∧ Forall (λ r, (widest r ≤ 51)%nat) (m_AttrSetList p).

(** Two states with the same document, RTF defaults and settings that
    [GetRTFDefaults] reads. *)
Definition same_doc p (q : SvxRTFParser D) : Prop :=
  ext q = ext p ∧ pRTFDefaults q = pRTFDefaults p
  ∧ aPardMap q = aPardMap p ∧ bNewDoc q = bNewDoc p.

End FanOutBound.

(** * Properties *)

(** ** Records and item sets *)

Lemma Stk_ind (P : Stk → Prop) :
  (∀ a sn sc en ec st, P (MkStk a sn sc en ec st None)) →
  (∀ a sn sc en ec st l, Forall P l → P (MkStk a sn sc en ec st (Some l))) →
  ∀ r, P r.
Proof.
  intros Hleaf Hnode.
  fix IH 1. intros [a sn sc en ec st [l|]]; [|apply Hleaf].
  apply Hnode. induction l as [|c l IHl]; constructor; [apply IH | exact IHl].
Qed.


Section ParserFacts.
Context {D : Type} `{!External D}.
Implicit Type p : SvxRTFParser D.

Lemma with_bNewGroup_id p : bNewGroup p = false → with_bNewGroup false p = p.
Proof. destruct p; simpl; intros ->; reflexivity. Qed.

Lemma with_aAttrStack_id p s : aAttrStack p = s → with_aAttrStack s p = p.
Proof. destruct p; simpl; intros ->; reflexivity. Qed.

(** C10: with an empty scope stack and no group-open pending, a closing
    brace, and [AttrGroupEnd] called directly, leave the parser as it
    is: the stack stays empty, the flush list and the cursor are
    untouched. *)
Theorem close_on_empty_stack_is_noop p :
  aAttrStack p = [] → bNewGroup p = false →
  AttrGroupEnd p = p ∧ NextToken T_CloseBrace p = Some p.
Proof.
  intros Hs Hg. unfold NextToken, AttrGroupEnd. rewrite Hs, Hg. simpl.
  split; [reflexivity|]. by rewrite with_bNewGroup_id.
Qed.

(** C7: closing a record that starts at the cursor and has neither
    children nor a style drops it: the stack below, with the parent and
    its child list, and the flush list are what they were. *)
Theorem zero_span_discard p pOld below :
  aAttrStack p = pOld :: below →
  m_pChildList pOld = None → nStyleNo pOld = 0 →
  pSttNd pOld = GetNodeIdx (ext p) → nSttCnt pOld = GetCntIdx (ext p) →
  AttrGroupEnd p = with_bNewGroup false (with_aAttrStack below p)
  ∧ aAttrStack (AttrGroupEnd p) = below
  ∧ m_AttrSetList (AttrGroupEnd p) = m_AttrSetList p
  ∧ ext (AttrGroupEnd p) = ext p.
Proof.
  intros Hs Hc _ Hn Hcnt.
  assert (AttrGroupEnd p = with_bNewGroup false (with_aAttrStack below p))
    as Heq.
  { unfold AttrGroupEnd. rewrite Hs.
    assert (nothing_to_set pOld (ext p) = true) as Hdrop.
    { unfold nothing_to_set, has_children.
      rewrite Hc, Hn, Hcnt, !Z.eqb_refl. simpl. by rewrite orb_true_r. }
    destruct below; simpl; by rewrite Hdrop. }
  rewrite Heq. done.
Qed.

End ParserFacts.

(** ** Text tokens and the flush list *)

Section TextToken.
Context {D : Type} `{!External D}.
Implicit Type p : SvxRTFParser D.

Lemma set_collected_spec (l : list Stk) : ∀ p,
  m_AttrSetList p = l →
  set_collected (length l) p
  = with_m_AttrSetList []
      (with_ext (fold_left (λ d r, SetAttrSet r d) (rev l) (ext p)) p).
Proof.
  induction l as [|x l IH] using rev_ind; intros p Hl.
  - simpl. destruct p; simpl in *; by subst.
  - rewrite length_app, Nat.add_comm. simpl.
    rewrite Hl, lookup_app_r, Nat.sub_diag by lia. simpl.
    rewrite removelast_last, IH by reflexivity.
    rewrite rev_app_distr. simpl. reflexivity.
Qed.

(** C9: a text token is first inserted at the cursor; then every record
    of the flush list is handed to [SetAttrSet], the record added last
    first, and the flush list is empty afterwards.  Nothing else of the
    parser changes. *)
Theorem text_token_flushes_last_added_first (aToken : OUString) p :
  ∃ p',
    NextToken (RTF_TEXTTOKEN aToken) p = Some p'
    ∧ ext p'
      = fold_left (λ d r, SetAttrSet r d) (rev (m_AttrSetList p))
                  (InsertText aToken (ext p))
    ∧ m_AttrSetList p' = []
    ∧ aAttrStack p' = aAttrStack p
    ∧ bNewGroup p' = bNewGroup p.
Proof.
  eexists. split; [reflexivity|]. unfold NextToken_text.
  rewrite (set_collected_spec (m_AttrSetList p)) by reflexivity.
  simpl. done.
Qed.

End TextToken.

(** ** The colour table *)

Lemma ReadColorTable_body_cases (t : Token) (w : bool) (ch : Channels)
      (tbl : list Color) :
  (snd (ReadColorTable_body t w (ch, tbl)) = tbl)
  ∨ (w = true ∧ finishes_color t = true
     ∧ ReadColorTable_body t w (ch, tbl)
       = (MkChannels 0 0 0, finish_color ch tbl)).
Proof.
  unfold ReadColorTable_body. destruct t; cbn; auto.
  - destruct w; auto.
  - destruct (lacks_semicolon aToken); cbn; auto. destruct w; auto.
Qed.

Lemma ReadColorTable_body_passes_by (t : Token) (w : bool)
      (st : Channels * list Color) :
  passes_by t = true → ReadColorTable_body t w st = st.
Proof.
  destruct st as [ch tbl]. unfold passes_by, ReadColorTable_body.
  destruct t; cbn; try discriminate; auto.
  destruct (lacks_semicolon aToken); cbn; [auto | discriminate].
Qed.

Lemma finish_color_auto (ch : Channels) (tbl : list Color) :
  ∃ c, finish_color ch tbl = tbl ++ [c] ∧ (c = COL_AUTO → tbl = []).
Proof.
  unfold finish_color. eexists. split; [reflexivity|].
  case_bool_decide; cbn; [done|]. discriminate.
Qed.

Lemma ReadColorTable_loop_eq (pend : list Token) (l : Lexer)
      (st : Channels * list Color) :
  ReadColorTable_loop pend l st
  = let '(nToken, l') := Lex.GetNextToken l in
    if is_close_brace nToken || negb (Lex.IsParserWorking l')
    then (l', st)
    else
      match pend with
      | [] => (l', st)
      | _ :: rest =>
          ReadColorTable_loop rest l'
            (ReadColorTable_body nToken (Lex.IsParserWorking l') st)
      end.
Proof. destruct pend; reflexivity. Qed.

(** The loop only appends to the table, and an automatic colour it appends
    is the first entry of the table. *)
Lemma ReadColorTable_loop_appends (pend : list Token) :
  ∀ l ch tbl, ∃ added,
    snd (snd (ReadColorTable_loop pend l (ch, tbl))) = tbl ++ added
    ∧ ∀ j, added !! j = Some COL_AUTO → tbl = [] ∧ j = 0%nat.
Proof.
  induction pend as [|t0 pend IH]; intros l ch tbl;
    rewrite ReadColorTable_loop_eq;
    destruct (Lex.GetNextToken l) as [nToken l'];
    destruct (is_close_brace nToken || negb (Lex.IsParserWorking l'));
    try (exists []; rewrite app_nil_r; split; [done | by intros j Hj]).
  destruct (ReadColorTable_body_cases nToken (Lex.IsParserWorking l') ch tbl)
    as [Hsame | (_ & _ & Hfin)].
  - destruct (ReadColorTable_body _ _ _) as [ch' tbl']. cbn in Hsame.
    subst tbl'. apply IH.
  - rewrite Hfin. destruct (finish_color_auto ch tbl) as (c & -> & Hc).
    destruct (IH l' (MkChannels 0 0 0) (tbl ++ [c])) as (added & -> & Hadd).
    exists (c :: added). split; [by rewrite <- app_assoc|].
    intros [|j] Hj; cbn in Hj.
    + injection Hj as ->. auto.
    + apply Hadd in Hj as [Hnil _]. by destruct tbl.
Qed.

Lemma GetNextToken_cons (l : Lexer) (t : Token) (rest : list Token) :
  pending l = t :: rest →
  ∃ l', Lex.GetNextToken l = (t, l') ∧ pending l' = rest
        ∧ working l' = working l.
Proof. intros Hp. unfold Lex.GetNextToken. rewrite Hp. eauto. Qed.

Lemma passes_by_not_close (t : Token) :
  passes_by t = true → is_close_brace t = false.
Proof.
  unfold passes_by.
  by destruct (is_close_brace t), (sets_channel t), (finishes_color t).
Qed.

Lemma ReadColorTable_loop_passes_by (pre : list Token) :
  ∀ rest l st,
    pending l = pre ++ rest → working l = true →
    Forall (λ t, passes_by t = true) pre →
    ∃ l', pending l' = rest ∧ working l' = true
          ∧ ReadColorTable_loop (pre ++ rest) l st
            = ReadColorTable_loop rest l' st.
Proof.
  induction pre as [|t pre IH]; intros rest l st Hp Hw Hall.
  - exists l. done.
  - inversion Hall as [|? ? Ht Hall']; subst.
    destruct (GetNextToken_cons l t (pre ++ rest) Hp) as (l' & Hget & Hp' & Hw').
    rewrite <- app_comm_cons, ReadColorTable_loop_eq, Hget.
    unfold Lex.IsParserWorking.
    rewrite (passes_by_not_close t Ht), Hw', Hw. cbn [orb negb].
    rewrite ReadColorTable_body_passes_by by done.
    apply IH; [done | congruence | done].
Qed.

Section ColorTable.
Context {D : Type} `{!External D}.
Implicit Type p : SvxRTFParser D.

Lemma ReadColorTable_table p :
  aColorTbl (ReadColorTable p)
  = snd (snd (ReadColorTable_loop (pending (lexer p)) (lexer p)
                (MkChannels 0xff 0xff 0xff, aColorTbl p))).
Proof.
  unfold ReadColorTable.
  destruct (ReadColorTable_loop _ _ _) as [l [ch tbl]]. reflexivity.
Qed.

(** C8: when the colour table is empty and the first entry is finished
    while no channel token has been read, the first entry stored is the
    automatic colour, which is not the colour built from three channels
    of 255; every finished entry leaves the three channels at 0; and an
    automatic colour the reader stores is the first entry of the table. *)
Theorem color_auto_substitution p (pre : list Token) (tok : Token)
        (rest : list Token) :
  aColorTbl p = [] → working (lexer p) = true →
  pending (lexer p) = pre ++ tok :: rest →
  Forall (λ t, passes_by t = true) pre →
  finishes_color tok = true →
  (head (aColorTbl (ReadColorTable p)) = Some COL_AUTO
   ∧ COL_AUTO ≠ RGB 0xff 0xff 0xff)
  ∧ (∀ t w ch tbl,
        snd (ReadColorTable_body t w (ch, tbl)) ≠ tbl →
        ReadColorTable_body t w (ch, tbl)
        = (MkChannels 0 0 0, finish_color ch tbl))
  ∧ (∀ (q : SvxRTFParser D) i,
        aColorTbl (ReadColorTable q) !! i = Some COL_AUTO →
        i = 0%nat ∨ aColorTbl q !! i = Some COL_AUTO).
Proof.
  intros Hempty Hw Hp Hpre Htok. split; [|split].
  - split; [|discriminate].
    rewrite ReadColorTable_table, Hp, Hempty.
    destruct (ReadColorTable_loop_passes_by pre (tok :: rest) (lexer p)
                (MkChannels 255 255 255, []) Hp Hw Hpre)
      as (l' & Hp' & Hw' & ->).
    destruct (GetNextToken_cons l' tok rest Hp') as (l2 & Hget & _ & Hw2).
    rewrite ReadColorTable_loop_eq, Hget. unfold Lex.IsParserWorking.
    assert (is_close_brace tok = false) as -> by by destruct tok.
    rewrite Hw2, Hw'. cbn [orb negb].
    destruct (ReadColorTable_body_cases tok true (MkChannels 255 255 255) [])
      as [Hsame | (_ & _ & ->)].
    + exfalso. unfold ReadColorTable_body in Hsame.
      destruct tok; cbn in *; try discriminate.
      destruct (lacks_semicolon aToken); cbn in *; discriminate.
    + match goal with |- context [ReadColorTable_loop ?a ?b (?c, ?d)] =>
        destruct (ReadColorTable_loop_appends a b c d) as (added & -> & _)
      end.
      reflexivity.
  - intros t w ch tbl Hne.
    destruct (ReadColorTable_body_cases t w ch tbl) as [? | (_ & _ & ?)];
      done.
  - intros q i Hi. rewrite ReadColorTable_table in Hi.
    match type of Hi with context [ReadColorTable_loop ?a ?b (?c, ?d)] =>
      destruct (ReadColorTable_loop_appends a b c d) as (added & Heq & Hadd)
    end.
    rewrite Heq in Hi.
    destruct (decide (i < length (aColorTbl q))%nat) as [Hlt|Hge].
    + right. by rewrite lookup_app_l in Hi.
    + rewrite lookup_app_r in Hi by lia. apply Hadd in Hi as [Hnil Hz].
      left. rewrite Hnil in Hz. cbn in Hz. lia.
Qed.

End ColorTable.

(** ** Group-close resolution *)

Lemma children_of_Add (x r : Stk) : children_of (Add x r) = children_of r ++ [x].
Proof. unfold Add, children_of. by destruct (m_pChildList r). Qed.

Lemma aAttrSet_Add (x r : Stk) : aAttrSet (Add x r) = aAttrSet r.
Proof. unfold Add. by destruct (m_pChildList r). Qed.

Lemma Count_0_iff (s : SfxItemSet) : ItemSet.Count s = 0%nat ↔ s = ∅.
Proof. apply map_size_empty_iff. Qed.

Lemma ClearEqual_lookup_None (other s : SfxItemSet) (w v : Z) :
  s !! w = Some v → other !! w = Some v → ItemSet.ClearEqual other s !! w = None.
Proof.
  intros Hs Ho. unfold ItemSet.ClearEqual.
  destruct (filter _ s !! w) as [v'|] eqn:Hf; [|done].
  apply map_lookup_filter_Some in Hf as [Hs' Hne]. simpl in Hne. congruence.
Qed.

Section CloseFacts.
Context {D : Type} `{!External D}.
Implicit Type p : SvxRTFParser D.

Lemma AttrGroupEnd_popped_eq below pOld p :
  AttrGroupEnd_popped below pOld p
  = if nothing_to_set pOld (ext p) then with_bNewGroup false p
    else
      let diffed := diff_applies below pOld in
      let pOld := diff_from_parent below pOld in
      if diffed && left_empty pOld then with_bNewGroup false p
      else
        let bCrsrBack := stepped_back (ext p) in
        let p := with_ext (cursor_for_close (ext p)) p in
        if starts_up_to pOld (ext p)
        then
          let '(split, p) :=
            if negb bCrsrBack && negb (pSttNd pOld =? GetNodeIdx (ext p))
            then split_off pOld p else (None, p) in
          match split with
          | Some pNew =>
              let pNew :=
                MkStk (aAttrSet pNew) (pSttNd pNew) 0 (pEndNd pNew)
                      (nEndCnt pNew) 0 (m_pChildList pNew) in
              let pOld :=
                set_end (SetEndPrevPara (ext p)).1 (SetEndPrevPara (ext p)).2
                        pOld in
              let pOld := style_filtered p pOld in
              let pNew := style_filtered p pNew in
              match below with
              | pCurrent :: below' =>
                  with_bNewGroup false
                    (with_aAttrStack
                       (Add pNew (Add pOld pCurrent) :: below') p)
              | [] =>
                  with_bNewGroup false
                    (with_m_AttrSetList
                       (m_AttrSetList p ++ [pOld] ++ [pNew]) p)
              end
          | None =>
              let pOld :=
                set_end (GetNodeIdx (ext p)) (GetCntIdx (ext p)) pOld in
              match below with
              | pCurrent :: below' =>
                  let pCurrent := Add pOld pCurrent in
                  if bCrsrBack && too_many_children pCurrent
                  then
                    let p := with_ext (MovePos true (ext p)) p in
                    let pNew :=
                      copy_ItemStack pCurrent (GetNodeIdx (ext p))
                                     (GetCntIdx (ext p)) true in
                    let '(defs, p) := GetRTFDefaults p in
                    let pNew := SetRTFDefaults defs pNew in
                    let p := AttrGroupEnd (with_aAttrStack
                                             (pCurrent :: below') p) in
                    with_bNewGroup false
                      (with_aAttrStack (pNew :: aAttrStack p) p)
                  else
                    with_bNewGroup false
                      (step_forward bCrsrBack
                         (with_aAttrStack (pCurrent :: below') p))
              | [] =>
                  let pOld := style_filtered p pOld in
                  with_bNewGroup false
                    (step_forward bCrsrBack
                       (with_m_AttrSetList (m_AttrSetList p ++ [pOld]) p))
              end
          end
        else with_bNewGroup false (step_forward bCrsrBack p).
Proof.
  assert (∀ l, pSttNd (diff_from_parent l pOld) = pSttNd pOld) as Hstt.
  { intros l. unfold diff_from_parent. destruct l; [done|].
    by destruct (diff_applies _ _). }
  destruct below as [|pCurrent below']; cbn [AttrGroupEnd_popped];
    rewrite ?Hstt; reflexivity.
Qed.

End CloseFacts.

#[local] Arguments AttrGroupEnd_popped : simpl never.

Section CloseResolution.
Context {D : Type} `{!External D}.
Implicit Type p : SvxRTFParser D.

Lemma GetRTFDefaults_frame p :
  let q := (GetRTFDefaults p).2 in
  aAttrStack q = aAttrStack p ∧ m_AttrSetList q = m_AttrSetList p
  ∧ aPardMap q = aPardMap p ∧ bChkStyleAttr q = bChkStyleAttr p
  ∧ bNewGroup q = bNewGroup p
  ∧ GetNodeIdx (ext q) = GetNodeIdx (ext p)
  ∧ GetCntIdx (ext q) = GetCntIdx (ext p)
  ∧ SetEndPrevPara (ext q) = SetEndPrevPara (ext p).
Proof.
  unfold GetRTFDefaults. destruct (pRTFDefaults p); [done|].
  destruct (decide _); [done|]. destruct (bNewDoc p); [|done].
  cbn. by rewrite GetNodeIdx_pool, GetCntIdx_pool, SetEndPrevPara_pool.
Qed.

Lemma style_filtered_fields p (r : Stk) :
  let r' := style_filtered p r in
  pSttNd r' = pSttNd r ∧ nSttCnt r' = nSttCnt r ∧ pEndNd r' = pEndNd r
  ∧ nEndCnt r' = nEndCnt r ∧ nStyleNo r' = nStyleNo r
  ∧ m_pChildList r' = m_pChildList r ∧ aAttrSet r' ⊆ aAttrSet r.
Proof.
  unfold style_filtered, ClearStyleAttr_. destruct (IsChkStyleAttr p); [|done].
  destruct (m_StyleTable p !! nStyleNo r); [destruct (_ || _)|]; cbn;
    repeat split; apply map_filter_subseteq.
Qed.

Lemma split_off_frame (pOld : Stk) p :
  let q := (split_off pOld p).2 in
  aAttrStack q = aAttrStack p ∧ m_AttrSetList q = m_AttrSetList p.
Proof.
  unfold split_off. pose proof (GetRTFDefaults_frame p) as Hf.
  destruct (GetRTFDefaults p) as [defs q]. cbn in Hf.
  destruct (decide _); cbn; tauto.
Qed.

Lemma too_many_children_length (r : Stk) :
  too_many_children r = true → (50 < length (children_of r))%nat.
Proof.
  unfold too_many_children, children_of.
  destruct (m_pChildList r); [|done]. apply Nat.ltb_lt.
Qed.

(** C3: when a record with a non-empty attribute set is closed under a
    parent, the parent receives nothing, the closed record, or the
    closed record followed by the copy split off at the paragraph
    boundary; and no attribute that the record shared with the parent,
    with an equal item, is left in the closed record.  The parent is
    then on top of the stack, unless the cursor was stepped back and the
    parent has more than 50 children: then it is the record that the
    early close is applied to. *)
Theorem parent_diff_removes_inherited p (pOld pCurrent : Stk)
        (below : list Stk) :
  aAttrStack p = pOld :: pCurrent :: below →
  aAttrSet pOld ≠ ∅ →
  ∃ (emitted : list Stk) (pCurrent' : Stk) (early : bool),
    children_of pCurrent' = children_of pCurrent ++ emitted
    ∧ aAttrSet pCurrent' = aAttrSet pCurrent
    ∧ (early = true →
       stepped_back (ext p) = true
       ∧ (50 < length (children_of pCurrent'))%nat)
    ∧ (if early
       then ∃ p1 pNew,
           aAttrStack p1 = pCurrent' :: below
           ∧ AttrGroupEnd p
             = with_bNewGroup false
                 (with_aAttrStack (pNew :: aAttrStack (AttrGroupEnd p1))
                                  (AttrGroupEnd p1))
       else aAttrStack (AttrGroupEnd p) = pCurrent' :: below)
    ∧ (emitted = []
       ∨ ∃ pOld' rest,
           emitted = pOld' :: rest
           ∧ pSttNd pOld' = pSttNd pOld ∧ nSttCnt pOld' = nSttCnt pOld
           ∧ m_pChildList pOld' = m_pChildList pOld
           ∧ ∀ w v, aAttrSet pOld !! w = Some v →
                    aAttrSet pCurrent !! w = Some v →
                    aAttrSet pOld' !! w = None).
Proof.
  intros Hs Hne.
  assert (diff_applies (pCurrent :: below) pOld = true) as Hdiff.
  { unfold diff_applies. case_bool_decide as Hc; [|done].
    by apply Count_0_iff in Hc. }
  assert (∀ r, aAttrSet r ⊆ aAttrSet (diff_from_parent (pCurrent :: below) pOld)
               → ∀ w v, aAttrSet pOld !! w = Some v →
                        aAttrSet pCurrent !! w = Some v →
                        aAttrSet r !! w = None) as Hkey.
  { intros r Hsub w v Ho Hc. unfold diff_from_parent in Hsub.
    rewrite Hdiff in Hsub. cbn in Hsub.
    destruct (aAttrSet r !! w) as [v'|] eqn:Hr; [|done].
    eapply lookup_weaken in Hr; [|exact Hsub].
    by rewrite (ClearEqual_lookup_None _ _ w v) in Hr. }
  assert (∀ l, pSttNd (diff_from_parent l pOld) = pSttNd pOld
               ∧ nSttCnt (diff_from_parent l pOld) = nSttCnt pOld
               ∧ m_pChildList (diff_from_parent l pOld) = m_pChildList pOld)
    as Hfld.
  { intros l. unfold diff_from_parent. destruct l; [done|].
    by destruct (diff_applies _ _). }
  assert (AttrGroupEnd p
          = AttrGroupEnd_popped (pCurrent :: below) pOld
              (with_aAttrStack (pCurrent :: below) p)) as ->
    by (unfold AttrGroupEnd; by rewrite Hs).
  rewrite AttrGroupEnd_popped_eq. cbv zeta.
  set (pOld1 := diff_from_parent (pCurrent :: below) pOld) in *.
  destruct (Hfld (pCurrent :: below)) as (Hf1 & Hf2 & Hf3).
  fold pOld1 in Hf1, Hf2, Hf3. clearbody pOld1.
  destruct (nothing_to_set pOld _).
  { exists [], pCurrent, false. rewrite app_nil_r. cbn.
    repeat split; try done; auto. }
  destruct (_ && left_empty _).
  { exists [], pCurrent, false. rewrite app_nil_r. cbn.
    repeat split; try done; auto. }
  cbn [ext with_ext with_aAttrStack].
  destruct (starts_up_to _ _); cycle 1.
  { exists [], pCurrent, false. rewrite app_nil_r.
    unfold step_forward.
    destruct (stepped_back _); cbn; repeat split; try done; auto. }
  match goal with
  | |- context [if ?c then split_off ?a ?b else ?e] =>
      destruct (if c then split_off a b else e) as [[pNew|] p0]
  end.
  - set (oldf := style_filtered p0 (set_end _ _ pOld1)).
    set (newf := style_filtered p0 (MkStk _ _ _ _ _ _ _)).
    exists [oldf; newf], (Add newf (Add oldf pCurrent)), false.
    rewrite !children_of_Add, !aAttrSet_Add, <- app_assoc.
    split; [done|]. split; [done|]. split; [done|]. split; [done|]. right.
    exists oldf, [newf].
    destruct (style_filtered_fields p0 (set_end (SetEndPrevPara (ext p0)).1
                (SetEndPrevPara (ext p0)).2 pOld1))
      as (Ha & Hb & _ & _ & _ & Hc & Hsub).
    fold oldf in Ha, Hb, Hc, Hsub. cbn in Ha, Hb, Hc, Hsub.
    repeat split; try congruence. apply Hkey, Hsub.
  - set (olde := set_end _ _ pOld1).
    destruct (stepped_back (ext p)) eqn:Hback;
      [destruct (too_many_children (Add olde pCurrent)) eqn:Hmany|];
      cbn [andb].
    + exists [olde], (Add olde pCurrent), true.
      rewrite !children_of_Add, !aAttrSet_Add.
      split; [done|]. split; [done|]. split.
      { intros _. split; [done|].
        apply too_many_children_length in Hmany.
        by rewrite children_of_Add in Hmany. }
      split.
      { destruct (GetRTFDefaults _) as [defs p1].
        eexists _, _. split; [|reflexivity]. reflexivity. }
      right. exists olde, []. repeat split; try done. by apply Hkey.
    + exists [olde], (Add olde pCurrent), false.
      rewrite !children_of_Add, !aAttrSet_Add.
      split; [done|]. split; [done|]. split; [done|]. split; [done|].
      right. exists olde, []. repeat split; try done. by apply Hkey.
    + exists [olde], (Add olde pCurrent), false.
      rewrite !children_of_Add, !aAttrSet_Add.
      split; [done|]. split; [done|]. split; [done|]. split; [done|].
      right. exists olde, []. repeat split; try done. by apply Hkey.
Qed.

End CloseResolution.

(** ** The split at a paragraph boundary *)

Lemma ClearIds_filter (ids : list Z) : ∀ s : SfxItemSet,
  ItemSet.ClearIds ids s = filter (λ kv, ¬ (kv.1 ≠ 0 ∧ kv.1 ∈ ids)) s.
Proof.
  induction ids as [|w ids IH]; intros s; cbn.
  - symmetry. apply map_filter_id. intros i x _ [_ Hin]. cbn in Hin.
    by apply elem_of_nil in Hin.
  - destruct (decide (ItemSet.Count s = 0%nat)) as [Hc|Hc].
    + apply Count_0_iff in Hc. subst s. by rewrite map_filter_empty.
    + rewrite IH. apply map_eq. intros i. apply option_eq. intros x.
      rewrite !map_lookup_filter_Some. cbn.
      destruct (decide (w = 0)) as [->|Hw].
      * setoid_rewrite elem_of_cons. intuition congruence.
      * unfold ItemSet.ClearItem. rewrite lookup_delete_Some.
        setoid_rewrite elem_of_cons. intuition congruence.
Qed.

Lemma char_attrs_smaller (m : RTFPardAttrMapIds) (s : SfxItemSet) (w : Z) :
  is_pard_id m w → is_Some (s !! w) →
  ItemSet.Count (char_attrs m s) ≠ ItemSet.Count s.
Proof.
  intros Hp [v Hv]. unfold ItemSet.Count, char_attrs.
  assert (filter (λ kv : Z * Z, ¬ is_pard_id m kv.1) s ⊂ s) as Hsub.
  { split; [apply map_filter_subseteq|]. intros Hle.
    eapply lookup_weaken in Hv; [|exact Hle].
    apply map_lookup_filter_Some in Hv as [_ Hn]. by apply Hn. }
  apply map_subset_size in Hsub. lia.
Qed.

Section ParagraphSplit.
Context {D : Type} `{!External D}.
Implicit Type p : SvxRTFParser D.

Lemma GetRTFDefaults_fst p d s :
  (GetRTFDefaults (with_ext d (with_aAttrStack s p))).1
  = (GetRTFDefaults p).1.
Proof.
  unfold GetRTFDefaults. cbn. destruct (pRTFDefaults p); [done|].
  destruct (decide _); [done|]. by destruct (bNewDoc p).
Qed.

Lemma not_stepped_back_node (d : D) :
  stepped_back d = false →
  GetNodeIdx (cursor_for_close d) = GetNodeIdx d.
Proof.
  unfold stepped_back, cursor_for_close.
  destruct (GetCntIdx d =? 0); cbn; [|done].
  intros Hn. apply negb_false_iff, Z.eqb_eq in Hn. done.
Qed.

Lemma GetRTFDefaults_m_StyleTable p :
  m_StyleTable (GetRTFDefaults p).2 = m_StyleTable p.
Proof.
  unfold GetRTFDefaults. destruct (pRTFDefaults p); [done|].
  destruct (decide _); [done|]. by destruct (bNewDoc p).
Qed.

Lemma ClearStyleAttr_cong p (q : SvxRTFParser D) (r : Stk) :
  m_StyleTable q = m_StyleTable p → bChkStyleAttr q = bChkStyleAttr p →
  ext q = ext p →
  ClearStyleAttr_ q r = ClearStyleAttr_ p r.
Proof.
  intros Ht Hc He. unfold ClearStyleAttr_, IsChkStyleAttr, is_pool_default,
    differs_from_style, is_pool_default.
  by rewrite Ht, Hc, He.
Qed.

(** An item that [ClearStyleAttr_] removes equals the pool default of its
    which-id or the item that the style of the record sets. *)
Lemma ClearStyleAttr_lost p (r : Stk) (w v : Z) :
  aAttrSet r !! w = Some v →
  aAttrSet (ClearStyleAttr_ p r) !! w = None →
  (IsWhich w = true ∧ GetDefaultItem (ext p) w = v)
  ∨ (∃ pStyle, m_StyleTable p !! nStyleNo r = Some pStyle
               ∧ style_aAttrSet pStyle !! w = Some v).
Proof.
  intros Hv.
  assert (filter (λ kv, is_pool_default p kv = false) (aAttrSet r) !! w
          = None →
          IsWhich w = true ∧ GetDefaultItem (ext p) w = v) as Hpool.
  { intros Hn. destruct (is_pool_default p (w, v)) eqn:Hd.
    - unfold is_pool_default in Hd. cbn [fst snd] in Hd.
      apply andb_true_iff in Hd as [? ?%Z.eqb_eq]. done.
    - assert (filter (λ kv, is_pool_default p kv = false) (aAttrSet r) !! w
              = Some v) as Hs by (by apply map_lookup_filter_Some).
      congruence. }
  unfold ClearStyleAttr_.
  destruct (m_StyleTable p !! nStyleNo r) as [pStyle|] eqn:Hst;
    [destruct (_ || _)|]; cbn [aAttrSet set_attrs]; intros Hn;
    try (left; by apply Hpool).
  destruct (differs_from_style p pStyle (w, v)) eqn:Hd.
  { assert (filter (λ kv, differs_from_style p pStyle kv = true)
                   (aAttrSet r) !! w = Some v) as Hs
      by (by apply map_lookup_filter_Some).
    congruence. }
  unfold differs_from_style in Hd. cbn [fst snd] in Hd.
  destruct (style_aAttrSet pStyle !! w) as [sItem|] eqn:Hsi.
  - right. exists pStyle. split; [done|].
    apply negb_false_iff, Z.eqb_eq in Hd. by subst.
  - left. apply negb_false_iff in Hd. unfold is_pool_default in Hd.
    cbn [fst snd] in Hd. apply andb_true_iff in Hd as [? ?%Z.eqb_eq]. done.
Qed.

(** C1, as amended: a record opened in an earlier paragraph and closed
    without the cursor being stepped back, whose attributes (those that
    differ from the parent's) hold a paragraph attribute, and whose
    continuation (those attributes without the paragraph attributes, with
    the RTF defaults it lacks) differs from them in the number of items,
    as it always does when the RTF defaults are empty, is resolved into
    two records that are attached in this order.  The earlier one keeps
    the start and the style of the record and ends at the end of the
    previous paragraph; it keeps the paragraph attributes and the
    character attributes alike: all of them when the style check is off,
    and with the style check on what [ClearStyleAttr_] leaves of them,
    which removes only items that equal the item the style of the record
    sets or the pool default.  The later one runs from offset 0 of the
    cursor's paragraph to the cursor, has no style and holds the
    continuation: character attributes and RTF defaults only, all of them
    when the style check is off, and with the style check on what
    [ClearStyleAttr_] leaves of them. *)
Theorem paragraph_split p (pOld : Stk) (below : list Stk) :
  let d := cursor_for_close (ext p) in
  let pOld1 := diff_from_parent below pOld in
  let defs := (GetRTFDefaults p).1 in
  let cont := char_attrs (aPardMap p) (aAttrSet pOld1) ∪ defs in
  let checked (r : Stk) :=
    if bChkStyleAttr p then ClearStyleAttr_ (AttrGroupEnd p) r else r in
  aAttrStack p = pOld :: below →
  stepped_back (ext p) = false →
  pSttNd pOld < GetNodeIdx d →
  (∃ w, is_pard_id (aPardMap p) w ∧ is_Some (aAttrSet pOld1 !! w)) →
  defs = ∅ ∨ ItemSet.Count cont ≠ ItemSet.Count (aAttrSet pOld1) →
  ∃ pOld' pNew' : Stk,
    match below with
    | pCurrent :: below' =>
        aAttrStack (AttrGroupEnd p)
        = Add pNew' (Add pOld' pCurrent) :: below'
        ∧ m_AttrSetList (AttrGroupEnd p) = m_AttrSetList p
    | [] =>
        aAttrStack (AttrGroupEnd p) = []
        ∧ m_AttrSetList (AttrGroupEnd p)
          = m_AttrSetList p ++ [pOld'; pNew']
    end
    ∧ pOld'
      = checked (set_end (SetEndPrevPara d).1 (SetEndPrevPara d).2 pOld1)
    ∧ pNew'
      = checked (MkStk cont (GetNodeIdx d) 0 (GetNodeIdx d) (GetCntIdx d)
                       0 None)
    ∧ (pSttNd pOld', nSttCnt pOld') = (pSttNd pOld, nSttCnt pOld)
    ∧ (pEndNd pOld', nEndCnt pOld') = SetEndPrevPara d
    ∧ nStyleNo pOld' = nStyleNo pOld
    ∧ m_pChildList pOld' = m_pChildList pOld
    ∧ (pSttNd pNew', nSttCnt pNew') = (GetNodeIdx d, 0)
    ∧ (pEndNd pNew', nEndCnt pNew') = (GetNodeIdx d, GetCntIdx d)
    ∧ nStyleNo pNew' = 0
    ∧ m_pChildList pNew' = None
    ∧ aAttrSet pOld' ⊆ aAttrSet pOld1
    ∧ aAttrSet pNew' ⊆ cont
    ∧ (∀ w, is_Some (aAttrSet pNew' !! w) →
         ¬ is_pard_id (aPardMap p) w ∨ is_Some (defs !! w))
    ∧ (bChkStyleAttr p = false →
       aAttrSet pOld' = aAttrSet pOld1 ∧ aAttrSet pNew' = cont)
    ∧ (∀ w v, aAttrSet pOld1 !! w = Some v → aAttrSet pOld' !! w = None →
         bChkStyleAttr p = true
         ∧ ((IsWhich w = true
             ∧ GetDefaultItem (ext (AttrGroupEnd p)) w = v)
            ∨ (∃ pStyle,
                  m_StyleTable p !! nStyleNo pOld = Some pStyle
                  ∧ style_aAttrSet pStyle !! w = Some v)))
    ∧ (∀ w v, cont !! w = Some v → aAttrSet pNew' !! w = None →
         bChkStyleAttr p = true
         ∧ ((IsWhich w = true
             ∧ GetDefaultItem (ext (AttrGroupEnd p)) w = v)
            ∨ (∃ pStyle,
                  m_StyleTable p !! 0 = Some pStyle
                  ∧ style_aAttrSet pStyle !! w = Some v))).
Proof.
  intros d pOld1 defs cont checked Hs Hback Hstt (w & Hw & Hsome) Hdef.
  pose proof (not_stepped_back_node _ Hback) as Hnode. fold d in Hnode.
  assert (pSttNd pOld1 = pSttNd pOld ∧ nSttCnt pOld1 = nSttCnt pOld
          ∧ m_pChildList pOld1 = m_pChildList pOld
          ∧ nStyleNo pOld1 = nStyleNo pOld
          ∧ aAttrSet pOld1 ⊆ aAttrSet pOld) as (Hf1 & Hf2 & Hf3 & Hf4 & Hf5).
  { unfold pOld1, diff_from_parent. destruct below; [done|].
    destruct (diff_applies _ _); [|done]. cbn. repeat split.
    apply map_filter_subseteq. }
  assert (ItemSet.Count (aAttrSet pOld1) ≠ 0%nat) as Hcnt1.
  { rewrite Count_0_iff. intros He. rewrite He, lookup_empty in Hsome.
    by destruct Hsome. }
  assert (ItemSet.Count (aAttrSet pOld) ≠ 0%nat) as Hcnt.
  { rewrite Count_0_iff. intros He. rewrite He in Hf5.
    destruct Hsome as [v Hv]. eapply lookup_weaken in Hv; [|exact Hf5].
    by rewrite lookup_empty in Hv. }
  assert (ItemSet.Count cont ≠ ItemSet.Count (aAttrSet pOld1)) as Hsplit.
  { destruct Hdef as [He|Hne]; [|done]. unfold cont. rewrite He.
    rewrite (right_id_L ∅ (∪)). by eapply char_attrs_smaller. }
  pose proof (GetRTFDefaults_frame (with_ext d (with_aAttrStack below p)))
    as Hfr.
  pose proof (GetRTFDefaults_m_StyleTable
                (with_ext d (with_aAttrStack below p))) as Htb.
  pose proof (GetRTFDefaults_fst p d below) as Hfst. fold defs in Hfst.
  destruct (GetRTFDefaults (with_ext d (with_aAttrStack below p)))
    as [defs' q] eqn:Hget.
  cbn [fst snd m_StyleTable with_ext with_aAttrStack] in Hfr, Hfst, Htb.
  subst defs'.
  cbn [aAttrStack m_AttrSetList aPardMap bChkStyleAttr bNewGroup ext
       with_ext with_aAttrStack] in Hfr.
  destruct Hfr as (Hq1 & Hq2 & Hq3 & Hq4 & Hq5 & Hq6 & Hq7 & Hq8).
  set (oldr := set_end (SetEndPrevPara d).1 (SetEndPrevPara d).2 pOld1).
  set (newr := MkStk cont (GetNodeIdx d) 0 (GetNodeIdx d) (GetCntIdx d)
                     0 None).
  assert (AttrGroupEnd p
          = with_bNewGroup false
              match below with
              | pCurrent :: below' =>
                  with_aAttrStack
                    (Add (style_filtered q newr)
                         (Add (style_filtered q oldr) pCurrent) :: below') q
              | [] =>
                  with_m_AttrSetList
                    (m_AttrSetList q
                     ++ [style_filtered q oldr] ++ [style_filtered q newr]) q
              end) as Hfin.
  { unfold AttrGroupEnd. rewrite Hs, AttrGroupEnd_popped_eq. cbv zeta.
    fold pOld1.
    assert (nothing_to_set pOld (ext (with_aAttrStack below p)) = false)
      as ->.
    { unfold nothing_to_set. cbn [ext with_aAttrStack].
      rewrite bool_decide_eq_false_2 by done.
      assert ((pSttNd pOld =? GetNodeIdx (ext p)) = false) as ->
        by (apply Z.eqb_neq; lia).
      cbn. by rewrite andb_false_r. }
    assert (left_empty pOld1 = false) as ->.
    { unfold left_empty. by rewrite bool_decide_eq_false_2. }
    rewrite andb_false_r. cbn [ext with_ext with_aAttrStack].
    rewrite Hback. fold d.
    assert (starts_up_to pOld1 d = true) as ->.
    { unfold starts_up_to. rewrite Hf1.
      assert ((pSttNd pOld <? GetNodeIdx d) = true) as -> by by apply Z.ltb_lt.
      done. }
    assert ((pSttNd pOld1 =? GetNodeIdx d) = false) as ->
      by (apply Z.eqb_neq; lia).
    cbn [negb andb]. unfold split_off. rewrite Hget.
    cbn [ext with_ext with_aAttrStack aPardMap].
    unfold SetRTFDefaults, copy_ItemStack, ItemSet.Put.
    cbn [aAttrSet set_attrs pSttNd nSttCnt pEndNd nEndCnt nStyleNo
         m_pChildList].
    rewrite !(right_id_L ∅ (∪)), ClearIds_filter.
    change (filter _ (aAttrSet pOld1))
      with (char_attrs (aPardMap p) (aAttrSet pOld1)).
    fold cont.
    destruct (decide _) as [Heq|_]; [done|].
    cbn [aAttrSet set_attrs pSttNd nSttCnt pEndNd nEndCnt nStyleNo
         m_pChildList].
    rewrite Hq8. fold oldr. fold newr. by destruct below. }
  assert (∀ r, checked r = style_filtered q r) as Hchk.
  { intros r. unfold checked, style_filtered, IsChkStyleAttr. rewrite Hq4.
    cbn [bChkStyleAttr with_ext with_aAttrStack].
    destruct (bChkStyleAttr p); [|done].
    apply ClearStyleAttr_cong; rewrite Hfin; by destruct below. }
  assert (ext (AttrGroupEnd p) = ext q) as Hext
    by (rewrite Hfin; by destruct below).
  exists (checked oldr), (checked newr).
  destruct (style_filtered_fields q oldr)
    as (Ha1 & Ha2 & Ha3 & Ha4 & Ha5 & Ha6 & Ha7).
  destruct (style_filtered_fields q newr)
    as (Hb1 & Hb2 & Hb3 & Hb4 & Hb5 & Hb6 & Hb7).
  rewrite <- !Hchk in Ha1, Ha2, Ha3, Ha4, Ha5, Ha6, Ha7,
    Hb1, Hb2, Hb3, Hb4, Hb5, Hb6, Hb7.
  cbn [oldr newr set_end aAttrSet pSttNd nSttCnt pEndNd nEndCnt nStyleNo
       m_pChildList] in Ha1, Ha2, Ha3, Ha4, Ha5, Ha6, Ha7,
    Hb1, Hb2, Hb3, Hb4, Hb5, Hb6, Hb7.
  split.
  { rewrite Hfin, !Hchk.
    destruct below;
      cbn [aAttrStack m_AttrSetList with_bNewGroup with_aAttrStack
           with_m_AttrSetList app];
      by rewrite ?Hq1, ?Hq2. }
  rewrite Ha1, Ha2, Ha3, Ha4, Ha5, Ha6, Hb1, Hb2, Hb3, Hb4, Hb5, Hb6,
    Hf1, Hf2, Hf3, Hf4.
  split_and!; try done.
  - by destruct (SetEndPrevPara d).
  - intros w' [v' Hv']. eapply lookup_weaken in Hv'; [|exact Hb7].
    unfold cont in Hv'. apply lookup_union_Some_raw in Hv' as [Hc|[_ Hd]].
    + left. by apply map_lookup_filter_Some in Hc as [_ ?].
    + right. by exists v'.
  - intros Hoff. unfold checked. by rewrite Hoff.
  - intros w' v' Hv' Hn. unfold checked in Hn.
    destruct (bChkStyleAttr p);
      [|cbn [oldr set_end aAttrSet] in Hn; congruence].
    split; [done|].
    apply (ClearStyleAttr_lost _ oldr w' v') in Hn; [|done].
    cbn [oldr set_end nStyleNo] in Hn. rewrite Hf4 in Hn.
    destruct Hn as [?|(pStyle & Hst & ?)]; [by left|right].
    exists pStyle. split; [|done].
    rewrite <- Hst, Hfin.
    destruct below;
      cbn [m_StyleTable with_bNewGroup with_aAttrStack with_m_AttrSetList];
      by rewrite Htb.
  - intros w' v' Hv' Hn. unfold checked in Hn.
    destruct (bChkStyleAttr p); [|cbn [newr aAttrSet] in Hn; congruence].
    split; [done|].
    apply (ClearStyleAttr_lost _ newr w' v') in Hn; [|done].
    cbn [newr nStyleNo] in Hn.
    destruct Hn as [?|(pStyle & Hst & ?)]; [by left|right].
    exists pStyle. split; [|done].
    rewrite <- Hst, Hfin.
    destruct below;
      cbn [m_StyleTable with_bNewGroup with_aAttrStack with_m_AttrSetList];
      by rewrite Htb.
Qed.

End ParagraphSplit.

(** ** The early close of a parent with many children *)

Section FanOut.
Context {D : Type} `{!External D}.
Implicit Type p : SvxRTFParser D.

Lemma step_forward_frame b p :
  aAttrStack (step_forward b p) = aAttrStack p
  ∧ m_AttrSetList (step_forward b p) = m_AttrSetList p.
Proof. unfold step_forward. by destruct b. Qed.

(** Every close takes exactly one record off the stack: the record that
    an early close of the parent pushes replaces the parent. *)
Lemma AttrGroupEnd_popped_length (below : list Stk) :
  ∀ (pOld : Stk) p,
    aAttrStack p = below →
    length (aAttrStack (AttrGroupEnd_popped below pOld p)) = length below.
Proof.
  induction below as [|pCurrent below IH]; intros pOld p Hs;
    rewrite AttrGroupEnd_popped_eq; cbv zeta;
    (destruct (nothing_to_set _ _); [cbn; by rewrite Hs|]);
    (destruct (_ && left_empty _); [cbn; by rewrite Hs|]);
    (destruct (starts_up_to _ _);
     [|unfold step_forward; destruct (stepped_back _); cbn; by rewrite Hs]);
    match goal with
    | |- context [if ?c then split_off ?a ?b else ?e] =>
        pose proof (split_off_frame a b) as [Hfr _];
        destruct c; [destruct (split_off a b) as [[pNew|] q]|];
        cbn in Hfr
    end;
    unfold step_forward; try destruct (stepped_back _);
    cbn [andb]; try destruct (too_many_children _);
    try destruct (GetRTFDefaults _) as [defs q1];
    cbn; rewrite ?Hfr, ?Hs; try done.
  all: unfold AttrGroupEnd; cbn; by rewrite IH.
Qed.

Lemma AttrGroupEnd_length p :
  length (aAttrStack (AttrGroupEnd p)) = pred (length (aAttrStack p)).
Proof.
  unfold AttrGroupEnd. destruct (aAttrStack p) as [|pOld below] eqn:Hs.
  - by rewrite Hs.
  - by rewrite AttrGroupEnd_popped_length.
Qed.

(** One early close: when the cursor was stepped back for the close (the
    group closes at the start of a paragraph) and the closed record is
    appended to a parent that then has more than 50 children, the parent
    is closed at once by the same resolution, with the cursor stepped
    forward again, and a fresh record that copies the parent's
    attributes and style and starts at the cursor is pushed in its
    place; the stack has lost one record, as after any close. *)
Lemma early_close_step p (pOld pCurrent : Stk)
        (below : list Stk) :
  let d := cursor_for_close (ext p) in
  let pOld1 :=
    set_end (GetNodeIdx d) (GetCntIdx d)
            (diff_from_parent (pCurrent :: below) pOld) in
  let pCurrent1 := Add pOld1 pCurrent in
  aAttrStack p = pOld :: pCurrent :: below →
  nothing_to_set pOld (ext p) = false →
  diff_applies (pCurrent :: below) pOld
  && left_empty (diff_from_parent (pCurrent :: below) pOld) = false →
  stepped_back (ext p) = true →
  starts_up_to pOld d = true →
  (50 ≤ length (children_of pCurrent))%nat →
  ∃ p1 pNew,
    AttrGroupEnd p
    = with_bNewGroup false
        (with_aAttrStack (pNew :: aAttrStack (AttrGroupEnd p1))
                         (AttrGroupEnd p1))
    ∧ aAttrStack p1 = pCurrent1 :: below
    ∧ m_AttrSetList p1 = m_AttrSetList p
    ∧ GetNodeIdx (ext p1) = GetNodeIdx (MovePos true d)
    ∧ GetCntIdx (ext p1) = GetCntIdx (MovePos true d)
    ∧ m_pChildList pNew = None
    ∧ nStyleNo pNew = nStyleNo pCurrent
    ∧ (pSttNd pNew, nSttCnt pNew)
      = (GetNodeIdx (MovePos true d), GetCntIdx (MovePos true d))
    ∧ (pEndNd pNew, nEndCnt pNew) = (pSttNd pNew, nSttCnt pNew)
    ∧ aAttrSet pCurrent ⊆ aAttrSet pNew
    ∧ head (aAttrStack (AttrGroupEnd p)) = Some pNew
    ∧ length (aAttrStack (AttrGroupEnd p)) = S (length below).
Proof.
  intros d pOld1 pCurrent1 Hs Hn He Hback Hup Hmany.
  assert (pSttNd (diff_from_parent (pCurrent :: below) pOld) = pSttNd pOld
          ∧ nSttCnt (diff_from_parent (pCurrent :: below) pOld)
            = nSttCnt pOld) as [Hf1 Hf2].
  { unfold diff_from_parent. by destruct (diff_applies _ _). }
  assert (too_many_children pCurrent1 = true) as Hmany'.
  { unfold too_many_children, pCurrent1, Add. unfold children_of in Hmany.
    destruct (m_pChildList pCurrent) as [l|]; simpl in Hmany;
      cbn [m_pChildList set_children].
    - apply Nat.ltb_lt. rewrite length_app. cbn [length]. lia.
    - lia. }
  pose proof (AttrGroupEnd_length p) as Hlen. rewrite Hs in Hlen.
  cbn [length pred] in Hlen.
  pose proof (GetRTFDefaults_frame
                (with_ext (MovePos true d)
                   (with_ext d (with_aAttrStack (pCurrent :: below) p))))
    as Hfr.
  destruct (GetRTFDefaults
              (with_ext (MovePos true d)
                 (with_ext d (with_aAttrStack (pCurrent :: below) p))))
    as [defs q] eqn:Hget.
  cbn in Hfr. destruct Hfr as (Hq1 & Hq2 & Hq3 & Hq4 & Hq5 & Hq6 & Hq7 & Hq8).
  set (pNew := SetRTFDefaults defs
                 (copy_ItemStack pCurrent1 (GetNodeIdx (MovePos true d))
                                 (GetCntIdx (MovePos true d)) true)).
  set (p1 := with_aAttrStack (pCurrent1 :: below) q).
  assert (AttrGroupEnd p
          = with_bNewGroup false
              (with_aAttrStack (pNew :: aAttrStack (AttrGroupEnd p1))
                               (AttrGroupEnd p1))) as Heq.
  { unfold AttrGroupEnd at 1. rewrite Hs, AttrGroupEnd_popped_eq.
    cbv zeta. cbn [ext with_ext with_aAttrStack]. rewrite Hn, He, Hback.
    fold d.
    assert (starts_up_to (diff_from_parent (pCurrent :: below) pOld) d
            = true) as ->.
    { unfold starts_up_to in *. by rewrite Hf1, Hf2. }
    cbn [negb andb ext with_ext with_aAttrStack]. fold pOld1.
    fold pCurrent1. rewrite Hmany', Hget. reflexivity. }
  exists p1, pNew. split; [exact Heq|]. rewrite Heq in Hlen |- *.
  cbn in Hlen |- *.
  repeat split; try done.
  - unfold pCurrent1, Add. by destruct (m_pChildList pCurrent).
  - unfold ItemSet.Put. rewrite (right_id_L ∅ (∪)).
    unfold pCurrent1. rewrite aAttrSet_Add. apply map_union_subseteq_l.
Qed.

(** *** The width of the child lists *)

Lemma widest_eq (r : Stk) :
  widest r = match m_pChildList r with
             | None => 0%nat
             | Some l => Nat.max (length l) (list_max (map widest l))
             end.
Proof. by destruct r. Qed.

Lemma widest_same_children (r r' : Stk) :
  m_pChildList r' = m_pChildList r → widest r' = widest r.
Proof. rewrite !widest_eq. by intros ->. Qed.

Lemma widest_Add_le (x r : Stk) (n : nat) :
  (length (children_of r) < n)%nat → (widest r ≤ n)%nat →
  (widest x ≤ n)%nat →
  (widest (Add x r) ≤ n)%nat.
Proof.
  unfold Add, children_of. rewrite (widest_eq r).
  destruct (m_pChildList r) as [l|]; cbn [default from_option id];
    intros Hlen Hr Hx; rewrite widest_eq;
    cbn [m_pChildList set_children length map].
  - rewrite length_app, map_app, list_max_app. cbn [length map list_max].
    change (list_max [widest x]) with (Nat.max (widest x) 0). lia.
  - change (list_max [widest x]) with (Nat.max (widest x) 0). cbn in Hlen.
    lia.
Qed.

Lemma children_of_Add_length (x r : Stk) :
  length (children_of (Add x r)) = S (length (children_of r)).
Proof. rewrite children_of_Add, length_app. cbn. lia. Qed.

Lemma not_too_many_children (r : Stk) :
  too_many_children r = false → (length (children_of r) ≤ 50)%nat.
Proof.
  unfold too_many_children, children_of.
  destruct (m_pChildList r); cbn [default from_option id length]; [|lia].
  intros H%Nat.ltb_ge. lia.
Qed.

Lemma diff_from_parent_children (below : list Stk) (pOld : Stk) :
  m_pChildList (diff_from_parent below pOld) = m_pChildList pOld.
Proof.
  unfold diff_from_parent. destruct below; [done|].
  by destruct (diff_applies _ _).
Qed.

Lemma widest_resolved p (nd cnt : Z) (below : list Stk) (pOld : Stk) :
  widest (style_filtered p (set_end nd cnt (diff_from_parent below pOld)))
  = widest pOld.
Proof.
  apply widest_same_children.
  destruct (style_filtered_fields p
              (set_end nd cnt (diff_from_parent below pOld)))
    as (_ & _ & _ & _ & _ & -> & _).
  cbn [set_end m_pChildList]. apply diff_from_parent_children.
Qed.

Lemma same_doc_refl p : same_doc p p.
Proof. by repeat split. Qed.

Lemma GetRTFDefaults_same_doc p (q : SvxRTFParser D) :
  same_doc p q → same_doc (GetRTFDefaults p).2 (GetRTFDefaults q).2.
Proof.
  unfold same_doc, GetRTFDefaults. intros (He & Hd & Hm & Hn).
  rewrite He, Hd, Hm, Hn. destruct (pRTFDefaults p) eqn:Hp;
    [|destruct (decide _); [|destruct (bNewDoc p) eqn:Hb]];
    cbn [snd ext pRTFDefaults aPardMap bNewDoc with_ext with_pRTFDefaults];
    split_and!; congruence.
Qed.

Lemma stepped_back_deep_cong (n : nat) : ∀ p (q : SvxRTFParser D),
  same_doc p q → stepped_back_deep n q = stepped_back_deep n p.
Proof.
  induction n as [|n IH]; intros p q Hpq; [done|].
  cbn [stepped_back_deep]. f_equal; [by destruct Hpq as [-> _]|].
  apply IH. unfold before_early_close. apply GetRTFDefaults_same_doc.
  destruct Hpq as (He & Hd & Hm & Hn). unfold same_doc.
  cbn [ext pRTFDefaults aPardMap bNewDoc with_ext]. by rewrite He.
Qed.

Lemma stepped_back_deep_S (n : nat) p :
  stepped_back_deep (S n) p
  = stepped_back (ext p) && stepped_back_deep n (before_early_close p).
Proof. reflexivity. Qed.

#[local] Ltac bounded_done :=
  unfold fan_out_bounded, step_forward in *;
  cbn [aAttrStack m_AttrSetList with_bNewGroup with_ext with_aAttrStack
       with_m_AttrSetList] in *;
  first [done | split; congruence].

(** A close with the cursor stepped back, at every level it reaches,
    keeps the child lists within the bound. *)
Lemma AttrGroupEnd_popped_bounded (below : list Stk) :
  ∀ (pOld : Stk) p,
    aAttrStack p = below →
    stepped_back_deep (S (length below)) p = true →
    (widest pOld ≤ 51)%nat →
    Forall stack_ok below →
    Forall (λ r, (widest r ≤ 51)%nat) (m_AttrSetList p) →
    fan_out_bounded (AttrGroupEnd_popped below pOld p).
Proof.
  induction below as [|pCurrent below IH];
    intros pOld p Hs Hdeep Hw Hbelow Hflush;
    rewrite stepped_back_deep_S in Hdeep;
    apply andb_true_iff in Hdeep as [Hsb Hdeep]; cbn [length] in Hdeep;
    rewrite AttrGroupEnd_popped_eq; cbv zeta;
    (destruct (nothing_to_set _ _); [subst; bounded_done|]);
    (destruct (_ && left_empty _); [subst; bounded_done|]);
    rewrite Hsb; cbn [negb andb];
    (destruct (starts_up_to _ _); [|subst; bounded_done]).
  - split; cbn [aAttrStack m_AttrSetList with_bNewGroup with_ext
                with_aAttrStack with_m_AttrSetList step_forward].
    + by rewrite Hs.
    + apply Forall_app. split; [done|]. constructor; [|done].
      by rewrite widest_resolved.
  - inversion Hbelow as [|? ? [Hlen Hwide] Hbelow']; subst.
    set (pOld2 := set_end _ _ (diff_from_parent _ pOld)).
    assert (widest pOld2 ≤ 51)%nat as Hw2.
    { rewrite (widest_same_children pOld pOld2); [done|].
      unfold pOld2. cbn [set_end m_pChildList].
      apply diff_from_parent_children. }
    assert (widest (Add pOld2 pCurrent) ≤ 51)%nat as Hw1
      by (apply widest_Add_le; [lia|done..]).
    destruct (too_many_children (Add pOld2 pCurrent)) eqn:Hmany.
    + cbn [ext with_ext].
      match goal with
      | |- context [GetRTFDefaults ?x] =>
          pose proof (GetRTFDefaults_frame x) as (_ & Hf2 & _);
          pose proof (GetRTFDefaults_same_doc
                        (with_ext (MovePos true (cursor_for_close (ext p))) p)
                        x) as Hsd;
          destruct (GetRTFDefaults x) as [defs q1]
      end.
      cbn [snd with_ext m_AttrSetList] in Hf2.
      fold (before_early_close p) in Hsd. cbn [snd] in Hsd.
      unfold AttrGroupEnd. cbn [aAttrStack with_aAttrStack].
      match goal with
      | |- context [AttrGroupEnd_popped below ?o ?s] =>
          destruct (IH o s) as [Hst Hfl];
          [done| |done|done| |]
      end.
      * rewrite <- Hdeep. apply stepped_back_deep_cong.
        destruct Hsd as (He & Hd & Hm & Hn); [by repeat split|].
        by repeat split.
      * cbn [m_AttrSetList with_aAttrStack]. by rewrite Hf2.
      * split; cbn [aAttrStack m_AttrSetList with_bNewGroup with_aAttrStack];
          [|done].
        constructor; [|done]. split; cbn; lia.
    + split; cbn [aAttrStack m_AttrSetList with_bNewGroup with_ext
                  with_aAttrStack step_forward]; [|done].
      constructor; [|done]. split; [|done].
      by apply not_too_many_children.
Qed.

Lemma AttrGroupEnd_bounded p :
  fan_out_bounded p → closes_at_paragraph_start p = true →
  fan_out_bounded (AttrGroupEnd p).
Proof.
  intros [Hst Hfl] Hdeep. unfold AttrGroupEnd, closes_at_paragraph_start in *.
  destruct (aAttrStack p) as [|pOld below] eqn:Hs;
    [split; [by rewrite Hs|done]|].
  inversion Hst as [|? ? [_ Hw] Hbelow]; subst.
  apply AttrGroupEnd_popped_bounded; try done.
  rewrite <- Hdeep. by apply stepped_back_deep_cong.
Qed.

Lemma GetAttrSet__bounded p :
  fan_out_bounded p → fan_out_bounded (GetAttrSet_ p).
Proof.
  intros [Hst Hfl]. unfold GetAttrSet_.
  pose proof (GetRTFDefaults_frame p) as (Hs & Hf & _).
  destruct (GetRTFDefaults p) as [defs q]. cbn [snd] in Hs, Hf.
  split; cbn [aAttrStack m_AttrSetList with_bNewGroup with_aAttrStack];
    rewrite ?Hs, ?Hf; [|done].
  constructor; [|done]. destruct (aAttrStack p); split; cbn; lia.
Qed.

Lemma read_attr_bounded (nWhich item : Z) p :
  fan_out_bounded p → fan_out_bounded (read_attr nWhich item p).
Proof.
  intros Hp. unfold read_attr.
  set (p1 := if bNewGroup p || bool_decide (aAttrStack p = [])
             then GetAttrSet_ p else p).
  assert (fan_out_bounded p1) as [Hst Hfl]
    by (unfold p1; destruct (_ || _); [by apply GetAttrSet__bounded|done]).
  destruct (aAttrStack p1) as [|pTmp below] eqn:Hs;
    [split; [by rewrite Hs|done]|].
  inversion Hst as [|? ? [Hlen Hw] Hbelow]; subst.
  split; cbn [aAttrStack m_AttrSetList with_aAttrStack]; [|done].
  constructor; [|done]. split; [done|].
  by rewrite (widest_same_children pTmp).
Qed.

Lemma NextToken_text_bounded (aToken : list Z) p :
  fan_out_bounded p → fan_out_bounded (NextToken_text aToken p).
Proof.
  intros [Hst Hfl]. unfold NextToken_text.
  rewrite (set_collected_spec (m_AttrSetList p)) by reflexivity.
  split; cbn [aAttrStack m_AttrSetList with_m_AttrSetList with_ext]; done.
Qed.

Lemma step_bounded (s : Step) p (q : SvxRTFParser D) :
  fan_out_bounded p →
  match s with
  | Tok T_CloseBrace => bNewGroup p || closes_at_paragraph_start p
  | _ => true
  end = true →
  step s p = Some q → fan_out_bounded q.
Proof.
  intros Hp Hclose. destruct s as [nToken|nWhich item]; cbn [step];
    [|intros [= <-]; by apply read_attr_bounded].
  destruct nToken; cbn [NextToken single_char]; intros [= <-];
    try (by apply NextToken_text_bounded); try done.
  - destruct (bNewGroup p); [by apply GetAttrSet__bounded|done].
  - destruct (bNewGroup p); cbn [negb orb] in *; [done|].
    by apply AttrGroupEnd_bounded.
Qed.

Lemma run_bounded (steps : list Step) : ∀ p (q : SvxRTFParser D),
  fan_out_bounded p → closes_stepped_back steps p = true →
  run steps p = Some q → fan_out_bounded q.
Proof.
  induction steps as [|s steps IH]; intros p q Hp Hcl; cbn [run];
    [by intros [= <-]|].
  cbn [closes_stepped_back] in Hcl. apply andb_true_iff in Hcl as [Hs Hrest].
  destruct (step s p) as [p'|] eqn:Hstep; [|done].
  apply IH; [|done]. by eapply step_bounded.
Qed.

(** C6, as amended: when the cursor was stepped back for the close (the
    group closes at the start of a paragraph) and appending the closed
    record makes the child list of the parent exceed 50, the parent is
    itself closed early by the same resolution, with the cursor stepped
    forward again, and a fresh record that copies its attributes and
    style and starts at the cursor is pushed in its place.
    Consequently, for every sequence of parse steps whose closes all
    happen with the cursor stepped back, the early closes they set off
    included, no parent ends up with all the siblings in one child list:
    when no record of the scope stack has more than 50 children, and no
    record of the stack, of the flush list or below them more than 51,
    the same holds after the steps. *)
Theorem fan_out_closes_parent_early :
  (∀ p (pOld pCurrent : Stk) (below : list Stk),
      let d := cursor_for_close (ext p) in
      let pOld1 :=
        set_end (GetNodeIdx d) (GetCntIdx d)
                (diff_from_parent (pCurrent :: below) pOld) in
      let pCurrent1 := Add pOld1 pCurrent in
      aAttrStack p = pOld :: pCurrent :: below →
      nothing_to_set pOld (ext p) = false →
      diff_applies (pCurrent :: below) pOld
      && left_empty (diff_from_parent (pCurrent :: below) pOld) = false →
      stepped_back (ext p) = true →
      starts_up_to pOld d = true →
      (50 ≤ length (children_of pCurrent))%nat →
      ∃ p1 pNew,
        AttrGroupEnd p
        = with_bNewGroup false
            (with_aAttrStack (pNew :: aAttrStack (AttrGroupEnd p1))
                             (AttrGroupEnd p1))
        ∧ aAttrStack p1 = pCurrent1 :: below
        ∧ m_AttrSetList p1 = m_AttrSetList p
        ∧ GetNodeIdx (ext p1) = GetNodeIdx (MovePos true d)
        ∧ GetCntIdx (ext p1) = GetCntIdx (MovePos true d)
        ∧ m_pChildList pNew = None
        ∧ nStyleNo pNew = nStyleNo pCurrent
        ∧ (pSttNd pNew, nSttCnt pNew)
          = (GetNodeIdx (MovePos true d), GetCntIdx (MovePos true d))
        ∧ (pEndNd pNew, nEndCnt pNew) = (pSttNd pNew, nSttCnt pNew)
        ∧ aAttrSet pCurrent ⊆ aAttrSet pNew
        ∧ head (aAttrStack (AttrGroupEnd p)) = Some pNew
        ∧ length (aAttrStack (AttrGroupEnd p)) = S (length below))
  ∧ (∀ (steps : list Step) p (q : SvxRTFParser D),
        fan_out_bounded p →
        closes_stepped_back steps p = true →
        run steps p = Some q →
        fan_out_bounded q).
Proof.
  split.
  - intros p pOld pCurrent below. apply early_close_step.
  - intros steps p q. apply run_bounded.
Qed.

End FanOut.

(** ** The theorems at sample inputs *)

Lemma zero_span_discard_witness :
  aAttrStack (AttrGroupEnd Ex.zero_span_input) = [Ex.diff_parent]
  ∧ m_AttrSetList (AttrGroupEnd Ex.zero_span_input) = [].
Proof.
  destruct (zero_span_discard Ex.zero_span_input Ex.zero_span_record
                              [Ex.diff_parent])
    as (_ & H1 & H2 & _); [reflexivity..|].
  split; [exact H1 | exact H2].
Defined.

Lemma parent_diff_removes_inherited_witness :
  ∃ pOld' : Stk,
    aAttrStack (AttrGroupEnd Ex.diff_input) = [Add pOld' Ex.diff_parent]
    ∧ aAttrSet pOld' !! Ex.weight_id = None.
Proof.
  destruct (parent_diff_removes_inherited Ex.diff_input Ex.diff_record
                                          Ex.diff_parent [])
    as (emitted & pCurrent' & early & Hch & _ & Hearly & Hwhere & Hrec);
    [reflexivity | by vm_compute |].
  destruct early.
  - destruct Hearly as [Hback _]; [reflexivity|]. discriminate Hback.
  - vm_compute in Hwhere. injection Hwhere as <-.
    destruct Hrec as [-> | (pOld' & rest & -> & _ & _ & _ & Hattr)];
      [discriminate Hch|].
    vm_compute in Hch. injection Hch as <- <-.
    eexists. split; [vm_compute; reflexivity|].
    apply (Hattr Ex.weight_id 1); reflexivity.
Defined.

Lemma is_pard_id_nAdjust :
  is_pard_id (aPardMap Ex.split_input) Ex.nAdjust_id.
Proof.
  split; [done|]. apply list_elem_of_further, list_elem_of_here.
Qed.

Lemma not_pard_id_weight :
  ¬ is_pard_id (aPardMap Ex.split_input) Ex.weight_id.
Proof.
  intros [_ Hin]. apply list_elem_of_In in Hin. vm_compute in Hin.
  intuition discriminate.
Qed.

Lemma paragraph_split_witness :
  ∃ pOld' pNew' : Stk,
    m_AttrSetList (AttrGroupEnd Ex.split_input) = [pOld'; pNew']
    ∧ (pEndNd pOld', nEndCnt pOld') = (0, 3)
    ∧ (pSttNd pNew', nSttCnt pNew') = (1, 0)
    ∧ (pEndNd pNew', nEndCnt pNew') = (1, 3)
    ∧ aAttrSet pOld' = aAttrSet Ex.split_record
    ∧ ∀ w, is_Some (aAttrSet pNew' !! w) →
           ¬ is_pard_id (aPardMap Ex.split_input) w.
Proof.
  destruct (paragraph_split Ex.split_input Ex.split_record [])
    as (pOld' & pNew' & [_ Hl] & _ & _ & _ & H2 & _ & _ & H5 & H6 & _ & _
        & _ & _ & H11 & H12 & _).
  - reflexivity.
  - reflexivity.
  - vm_compute. reflexivity.
  - exists Ex.nAdjust_id. split; [exact is_pard_id_nAdjust|].
    exists 1. vm_compute. reflexivity.
  - left. reflexivity.
  - exists pOld', pNew'. split; [exact Hl|].
    split; [exact H2|]. split; [exact H5|]. split; [exact H6|].
    split; [exact (proj1 (H12 eq_refl))|].
    intros w Hw. destruct (H11 w Hw) as [Hn|Hd]; [exact Hn|].
    change ((GetRTFDefaults Ex.split_input).1) with (∅ : SfxItemSet) in Hd.
    rewrite lookup_empty in Hd. by destruct Hd.
Defined.

(** With the style check on, the earlier record of the split loses the
    item that its style sets: the record with the style 4, which sets the
    weight, comes out with the paragraph attribute only, while the later
    record, which has no style, keeps the weight. *)
Lemma split_with_style_check_drops_style_item :
  ∃ pOld' pNew' : Stk,
    m_AttrSetList (AttrGroupEnd Ex.styled_split_input) = [pOld'; pNew']
    ∧ aAttrSet pOld' !! Ex.weight_id = None
    ∧ aAttrSet pOld' !! Ex.nAdjust_id = Some 1
    ∧ aAttrSet pNew' !! Ex.weight_id = Some 1.
Proof.
  eexists _, _. split; [vm_compute; reflexivity|].
  split_and!; by vm_compute.
Qed.

(** The split is decided by the number of items, counted after the RTF
    defaults were put into the continuation: here the script-space
    default makes up for the paragraph attribute that was deleted, and
    the record is not split; it reaches the flush list whole, paragraph
    attribute included, and ends at the cursor. *)
Lemma split_skipped_when_defaults_even_the_count :
  ∃ r : Stk,
    m_AttrSetList (AttrGroupEnd Ex.defaults_split_input) = [r]
    ∧ aAttrSet r = aAttrSet Ex.split_record
    ∧ (pSttNd r, nSttCnt r) = (0, 0)
    ∧ (pEndNd r, nEndCnt r) = (1, 3).
Proof.
  eexists. split; [vm_compute; reflexivity|]. split_and!; reflexivity.
Qed.

(** C1 as stated fails: the earlier of the two records keeps the
    character attribute of the closed record. *)
Lemma split_earlier_record_keeps_character_attribute :
  ∃ pOld' pNew' : Stk,
    m_AttrSetList (AttrGroupEnd Ex.split_input) = [pOld'; pNew']
    ∧ aAttrSet pOld' !! Ex.weight_id = Some 1
    ∧ ¬ is_pard_id (aPardMap Ex.split_input) Ex.weight_id.
Proof.
  eexists _, _. split; [vm_compute; reflexivity|].
  split; [by vm_compute | exact not_pard_id_weight].
Qed.

Lemma fan_out_closes_parent_early_witness :
  (∃ pNew : Stk,
      aAttrStack (AttrGroupEnd Ex.fan_out_input) = [pNew]
      ∧ m_pChildList pNew = None
      ∧ (pSttNd pNew, nSttCnt pNew) = (51, 0))
  ∧ (∃ q (parent : Stk),
        run (Ex.para_siblings 200) Ex.start = Some q
        ∧ aAttrStack q = [parent]
        ∧ length (children_of parent) = 47%nat
        ∧ fan_out_bounded q).
Proof.
  destruct (@fan_out_closes_parent_early ParaDoc.t _) as [Hstep Hrun].
  split.
  - destruct (Hstep Ex.fan_out_input (Ex.para_child 50) Ex.full_parent [])
      as (p1 & pNew & _ & _ & _ & _ & _ & Hc & _ & Hs & _ & _ & Hh & Hl).
    + reflexivity.
    + reflexivity.
    + by vm_compute.
    + reflexivity.
    + reflexivity.
    + vm_compute. lia.
    + exists pNew. destruct (aAttrStack (AttrGroupEnd Ex.fan_out_input))
        as [|r [|r' l]]; try discriminate Hl.
      injection Hh as ->. split; [reflexivity|]. split; [exact Hc | exact Hs].
  - eexists _, _. split; [vm_compute; reflexivity|].
    split; [reflexivity|]. split; [by vm_compute|].
    apply (Hrun (Ex.para_siblings 200) Ex.start).
    + split; constructor.
    + vm_compute. reflexivity.
    + vm_compute. reflexivity.
Defined.

(** C6 as stated fails: 200 sibling groups closed in the middle of a
    paragraph, where the cursor is not stepped back for the close, all
    end up in the child list of their parent, which is still the open
    record on the stack. *)
Lemma two_hundred_siblings_under_one_parent :
  ∃ p (parent : Stk),
    run (Ex.siblings 200) Ex.start = Some p
    ∧ aAttrStack p = [parent]
    ∧ length (children_of parent) = 200%nat.
Proof.
  eexists _, _. split; [vm_compute; reflexivity|].
  split; [reflexivity|]. by vm_compute.
Qed.

Lemma color_auto_substitution_witness :
  aColorTbl (ReadColorTable (Ex.with_tokens Ex.color_tokens))
  = [COL_AUTO; RGB 255 0 0].
Proof.
  destruct (color_auto_substitution (Ex.with_tokens Ex.color_tokens) []
              T_Semicolon
              [RTF_RED 255; RTF_GREEN 0; RTF_BLUE 0; T_Semicolon;
               T_CloseBrace])
    as [[Hhead _] _]; [reflexivity | reflexivity | reflexivity
                       | constructor | reflexivity |].
  vm_compute. reflexivity.
Defined.

Lemma close_on_empty_stack_is_noop_witness :
  AttrGroupEnd Ex.start = Ex.start
  ∧ NextToken T_CloseBrace Ex.start = Some Ex.start.
Proof.
  apply (close_on_empty_stack_is_noop Ex.start); reflexivity.
Defined.

(** ** The font table *)

Lemma std_map_insert_keeps {A} (k k' : Z) (v v' : A) (m : gmap Z A) :
  m !! k = Some v → std_map_insert k' v' m !! k = Some v.
Proof.
  intros Hk. unfold std_map_insert. destruct (m !! k') eqn:Hk'; [done|].
  rewrite lookup_insert_ne; [done|]. intros ->. congruence.
Qed.

Section FontTableFacts.
Context {D : Type} `{!External D}.
Implicit Type p : SvxRTFParser D.

Lemma ReadFontTable_turn_keeps (v : FontLocals) (l : Lexer)
      (tbl : gmap Z Font) (nId : Z) (f : Font) :
  tbl !! nId = Some f → (ReadFontTable_turn v l tbl).2 !! nId = Some f.
Proof.
  intros Hf. unfold ReadFontTable_turn.
  destruct (Lex.GetNextToken l) as [nToken l0].
  destruct (ReadFontTable_switch nToken v l0) as [[b v1] l1].
  destruct (_ && _); [|done]. unfold font_ready. cbn.
  by apply std_map_insert_keeps.
Qed.

Lemma ReadFontTable_loop_keeps (fuel : nat) (nId : Z) (f : Font) :
  ∀ v l tbl,
    tbl !! nId = Some f →
    (ReadFontTable_loop fuel v l tbl).2 !! nId = Some f.
Proof.
  induction fuel as [|fuel IH]; intros v l tbl Hf; cbn;
    destruct (_ && _); try done.
  pose proof (ReadFontTable_turn_keeps v l tbl nId f Hf) as Hturn.
  destruct (ReadFontTable_turn v l tbl) as [[v1 l1] tbl1]. by apply IH.
Qed.

(** A font id that the table holds keeps its font through
    [ReadFontTable]: a later declaration under the same id is lost. *)
Lemma ReadFontTable_keeps_declared p (nId : Z) (f : Font) :
  m_FontTable p !! nId = Some f →
  m_FontTable (ReadFontTable p) !! nId = Some f.
Proof.
  intros Hf. unfold ReadFontTable.
  match goal with
  | |- context [ReadFontTable_loop ?n ?v ?l ?t] =>
      pose proof (ReadFontTable_loop_keeps n nId f v l t Hf) as Hloop;
      destruct (ReadFontTable_loop n v l t) as [[v1 l1] tbl1]
  end.
  cbn in Hloop. by destruct (_ && _).
Qed.

End FontTableFacts.

(** C2: the table "{\fonttbl{\f0\froman Times;}{\f0\fswiss Arial;}}"
    declares two fonts under the id 0; after [ReadFontTable] the table maps
    0 to the font declared first, not to the later one. *)
Theorem font_redefinition_keeps_first :
  m_FontTable (ReadFontTable (Ex.with_tokens Ex.font_tokens)) !! 0
  = Some Ex.Times_font
  ∧ Ex.Times_font ≠ Ex.Arial_font.
Proof. split; [vm_compute; reflexivity | discriminate]. Qed.

(** ** The range compressor *)

Section CompressFacts.
Variable iep : Z → Z → bool.

Lemma Compress_eq (r : Stk) :
  Compress iep r
  = match m_pChildList r with
    | None => r
    | Some [] => r
    | Some (c0 :: cs) =>
        if bool_decide (ItemSet.Count (aAttrSet c0) = 0%nat)
           || negb (pSttNd r =? pSttNd c0)
           || negb (nSttCnt r =? nSttCnt c0)
        then r
        else
          match Compress_loop iep (Compress iep) cs (pEndNd c0) (nEndCnt c0)
                              (aAttrSet c0) with
          | (cs', Returned) => set_children (Some (c0 :: cs')) r
          | (cs', Finished aMrgSet lastNd lastCnt) =>
              if negb (pEndNd r =? lastNd) || negb (nEndCnt r =? lastCnt)
              then set_children (Some (c0 :: cs')) r
              else
                set_children
                  (reset_if_empty (subtract_merged aMrgSet (c0 :: cs')))
                  (set_attrs (ItemSet.Put aMrgSet (aAttrSet r)) r)
          end
    end.
Proof. destruct r as [a sn sc en ec st [[|c0 cs]|]]; reflexivity. Qed.

Lemma Compress_fields (r : Stk) :
  pSttNd (Compress iep r) = pSttNd r ∧ nSttCnt (Compress iep r) = nSttCnt r
  ∧ pEndNd (Compress iep r) = pEndNd r ∧ nEndCnt (Compress iep r) = nEndCnt r
  ∧ nStyleNo (Compress iep r) = nStyleNo r.
Proof.
  rewrite Compress_eq. destruct (m_pChildList r) as [[|c0 cs]|]; try done.
  destruct (_ || _); [done|].
  destruct (Compress_loop _ _ _ _ _) as [cs' [|m nd cnt]]; [done|].
  by destruct (_ || _).
Qed.

Lemma compress_child_Compress (c : Stk) :
  compress_child (Compress iep) c = Compress iep c.
Proof.
  unfold compress_child, has_children. rewrite (Compress_eq c).
  by destruct (m_pChildList c).
Qed.

Lemma compress_rest_map (cs : list Stk) :
  compress_rest (Compress iep) cs = map (Compress iep) cs.
Proof.
  induction cs as [|c cs IH]; [done|]. cbn [compress_rest map].
  by rewrite compress_child_Compress, IH.
Qed.

Lemma not_adjacent_Compress (nd cnt : Z) (c : Stk) :
  not_adjacent iep nd cnt (Compress iep c) = not_adjacent iep nd cnt c.
Proof.
  unfold not_adjacent.
  destruct (Compress_fields c) as (-> & -> & _). done.
Qed.

Lemma Compress_loop_eq (cs : list Stk) (lastNd lastCnt : Z)
      (aMrgSet : SfxItemSet) :
  Compress_loop iep (Compress iep) cs lastNd lastCnt aMrgSet
  = match cs with
    | [] => ([], Finished aMrgSet lastNd lastCnt)
    | c :: cs' =>
        if not_adjacent iep lastNd lastCnt c
        then (Compress iep c :: map (Compress iep) cs', Returned)
        else
          let aMrgSet' :=
            ItemSet.KeepEqual (aAttrSet (Compress iep c)) aMrgSet in
          if decide (ItemSet.Count aMrgSet' = 0%nat)
          then (Compress iep c :: cs', Returned)
          else
            let '(rest, e) :=
              Compress_loop iep (Compress iep) cs' (pEndNd c) (nEndCnt c)
                            aMrgSet' in
            (Compress iep c :: rest, e)
    end.
Proof.
  destruct cs as [|c cs']; [done|]. cbn [Compress_loop].
  rewrite compress_child_Compress, not_adjacent_Compress, compress_rest_map.
  destruct (Compress_fields c) as (_ & _ & -> & -> & _). done.
Qed.

Lemma children_of_set_children (l : list Stk) (r : Stk) :
  children_of (set_children (reset_if_empty l) r) = l.
Proof. by destruct l. Qed.

Lemma subtract_merged_lacks (aMrgSet : SfxItemSet) (cs : list Stk) (w : Z) :
  is_Some (aMrgSet !! w) →
  Forall (λ c, aAttrSet c !! w = None) (subtract_merged aMrgSet cs).
Proof.
  intros Hw. induction cs as [|c cs IH]; cbn [subtract_merged]; [constructor|].
  destruct (_ && _); [done|]. constructor; [|done].
  cbn. unfold ItemSet.Differentiate. by apply lookup_difference_None; right.
Qed.

Lemma KeepEqual_lookup (other s : SfxItemSet) (w v : Z) :
  s !! w = Some v → other !! w = Some v →
  ItemSet.KeepEqual other s !! w = Some v.
Proof.
  intros Hs Ho. unfold ItemSet.KeepEqual. by apply map_lookup_filter_Some.
Qed.

(** When the children follow one another and all hold the item [v] under
    [w] once compressed, the loop runs to its end, compresses every child
    and keeps the item in the merge set. *)
Lemma Compress_loop_covering (w v : Z) (cs : list Stk) :
  ∀ lastNd lastCnt (aMrgSet : SfxItemSet),
    chain_adjacent iep lastNd lastCnt cs = true →
    aMrgSet !! w = Some v →
    Forall (λ c, aAttrSet (Compress iep c) !! w = Some v) cs →
    ∃ aMrgSet',
      Compress_loop iep (Compress iep) cs lastNd lastCnt aMrgSet
      = (map (Compress iep) cs,
         Finished aMrgSet' (last_end lastNd lastCnt cs).1
                  (last_end lastNd lastCnt cs).2)
      ∧ aMrgSet' !! w = Some v.
Proof.
  induction cs as [|c cs IH]; intros lastNd lastCnt aMrgSet Hadj Hm Hall.
  - exists aMrgSet. done.
  - inversion Hall as [|? ? Hc Hall']; subst.
    cbn [chain_adjacent] in Hadj. apply andb_true_iff in Hadj as [Hna Hadj].
    apply negb_true_iff in Hna.
    rewrite Compress_loop_eq, Hna. cbv zeta.
    pose proof (KeepEqual_lookup _ _ w v Hm Hc) as Hk.
    destruct (decide _) as [He|_].
    { apply Count_0_iff in He. rewrite He in Hk. done. }
    destruct (IH (pEndNd c) (nEndCnt c) _ Hadj Hk Hall') as (m' & -> & Hm').
    exists m'. done.
Qed.

(** C4, as amended: when the first child starts where the record starts,
    the children follow one another, the last child ends where the record
    ends, the first child holds the item [v] under the which-id [w] and
    every later child holds it once its own child list has been
    compressed, which is how the loop reads the later children, then
    after [Compress] the record holds [v] under [w] and no child of the
    record holds an item under [w]. *)
Theorem compress_coverage (r c0 : Stk) (cs : list Stk) (w v : Z) :
  m_pChildList r = Some (c0 :: cs) →
  (pSttNd c0, nSttCnt c0) = (pSttNd r, nSttCnt r) →
  chain_adjacent iep (pEndNd c0) (nEndCnt c0) cs = true →
  last_end (pEndNd c0) (nEndCnt c0) cs = (pEndNd r, nEndCnt r) →
  aAttrSet c0 !! w = Some v →
  Forall (λ c, aAttrSet (Compress iep c) !! w = Some v) cs →
  aAttrSet (Compress iep r) !! w = Some v
  ∧ Forall (λ c, aAttrSet c !! w = None) (children_of (Compress iep r)).
Proof.
  intros Hch Hstt Hadj Hend H0 Hall. injection Hstt as Hs1 Hs2.
  rewrite Compress_eq, Hch.
  rewrite bool_decide_eq_false_2; cycle 1.
  { rewrite Count_0_iff. intros He. rewrite He in H0. done. }
  rewrite Hs1, Hs2, !Z.eqb_refl. cbn [negb orb].
  destruct (Compress_loop_covering w v cs _ _ _ Hadj H0 Hall)
    as (m' & -> & Hm').
  rewrite Hend. cbn [fst snd]. rewrite !Z.eqb_refl. cbn [negb orb].
  split.
  - cbn. unfold ItemSet.Put. by apply lookup_union_Some_l.
  - rewrite children_of_set_children. by apply subtract_merged_lacks.
Qed.

End CompressFacts.

(** ** Running the compressor twice *)

Lemma count_records_eq (r : Stk) :
  count_records r
  = match m_pChildList r with
    | None => 1%nat
    | Some l => S (list_sum (map count_records l))
    end.
Proof. by destruct r. Qed.


Lemma count_set_attrs (a : SfxItemSet) (r : Stk) :
  count_records (set_attrs a r) = count_records r.
Proof. by rewrite !count_records_eq. Qed.

Lemma list_sum_cons_eq (x : nat) (l : list nat) :
  list_sum (x :: l) = (x + list_sum l)%nat.
Proof. reflexivity. Qed.

Lemma subtract_merged_count (aMrgSet : SfxItemSet) (cs : list Stk) :
  (list_sum (map count_records (subtract_merged aMrgSet cs))
   ≤ list_sum (map count_records cs))%nat.
Proof.
  induction cs as [|c cs IH]; cbn [subtract_merged map]; rewrite ?list_sum_cons_eq; [done|].
  destruct (_ && _); cbn [map]; rewrite ?list_sum_cons_eq; rewrite ?count_set_attrs; lia.
Qed.


Section CompressTwice.
Variable iep : Z → Z → bool.

Lemma Compress_loop_count (cs : list Stk) :
  Forall (λ c, (count_records (Compress iep c) ≤ count_records c)%nat) cs →
  ∀ lastNd lastCnt aMrgSet cs' e,
    Compress_loop iep (Compress iep) cs lastNd lastCnt aMrgSet = (cs', e) →
    (list_sum (map count_records cs') ≤ list_sum (map count_records cs))%nat.
Proof.
  induction 1 as [|c cs Hc Hall IH]; intros lastNd lastCnt m cs' e;
    rewrite Compress_loop_eq.
  - intros [= <- <-]. done.
  - cbv zeta. destruct (not_adjacent _ _ _ _).
    { intros [= <- <-]. cbn [map]; rewrite ?list_sum_cons_eq.
      assert (list_sum (map count_records (map (Compress iep) cs))
              ≤ list_sum (map count_records cs))%nat; [|lia].
      clear -Hall. induction Hall; cbn [map]; rewrite ?list_sum_cons_eq; lia. }
    destruct (decide _).
    { intros [= <- <-]. cbn [map]; rewrite ?list_sum_cons_eq. lia. }
    destruct (Compress_loop _ _ _ _ _ _) as [rest e'] eqn:Hloop.
    intros [= <- <-]. cbn [map]; rewrite ?list_sum_cons_eq.
    specialize (IH _ _ _ _ _ Hloop). lia.
Qed.

Lemma Compress_count (r : Stk) :
  (count_records (Compress iep r) ≤ count_records r)%nat.
Proof.
  induction r as [a sn sc en ec st|a sn sc en ec st l IH] using Stk_ind;
    [done|].
  rewrite Compress_eq. cbn [m_pChildList].
  destruct l as [|c0 cs]; [done|].
  destruct (_ || _); [done|].
  inversion IH as [|? ? _ IHcs]; subst.
  destruct (Compress_loop _ _ _ _ _ _) as [cs' e] eqn:Hloop.
  pose proof (Compress_loop_count cs IHcs _ _ _ _ _ Hloop) as Hle.
  assert (count_records
            (set_children (Some (c0 :: cs'))
               (MkStk a sn sc en ec st (Some (c0 :: cs))))
          ≤ count_records (MkStk a sn sc en ec st (Some (c0 :: cs))))%nat
    as Hkeep.
  { rewrite !count_records_eq. cbn [m_pChildList set_children map]; rewrite ?list_sum_cons_eq.
    lia. }
  destruct e as [|m nd cnt]; [done|]. destruct (_ || _); [done|].
  pose proof (subtract_merged_count m (c0 :: cs')) as Hsub.
  rewrite !count_records_eq in Hkeep |- *.
  cbn [m_pChildList set_children set_attrs] in Hkeep |- *.
  destruct (subtract_merged m (c0 :: cs')) as [|x l']; cbn [reset_if_empty];
    cbn [map] in *; rewrite ?list_sum_cons_eq in *; lia.
Qed.














End CompressTwice.

(** ** The compressor at sample trees *)

Lemma compress_coverage_witness :
  aAttrSet (Compress Ex.one_para Ex.covered_tree) !! Ex.weight_id = Some 1
  ∧ Forall (λ c, aAttrSet c !! Ex.weight_id = None)
           (children_of (Compress Ex.one_para Ex.covered_tree)).
Proof.
  apply (compress_coverage Ex.one_para Ex.covered_tree
           (Ex.leaf {[ Ex.weight_id := 1; Ex.underline_id := 1 ]} 0 0 0 3)
           [ Ex.leaf {[ Ex.weight_id := 1 ]} 0 3 0 6;
             Ex.leaf {[ Ex.weight_id := 1; Ex.posture_id := 1 ]} 0 6 0 9 ]).
  - reflexivity.
  - reflexivity.
  - reflexivity.
  - reflexivity.
  - vm_compute. reflexivity.
  - repeat constructor; vm_compute; reflexivity.
Defined.

(** The tree [Ex.override_tree] is what the parser builds for
    "{\i {\b aaaaa}{\b {\b0 bbbbb}}}". *)
Lemma override_tree_is_parsed :
  ∃ p, run Ex.override_parse Ex.start = Some p
       ∧ aAttrStack p = [] ∧ m_AttrSetList p = [Ex.override_tree].
Proof. eexists. split; [vm_compute; reflexivity|]. split; reflexivity. Qed.

(** C4 as stated fails: the two children of the record follow one
    another, cover it and both hold the weight 1, yet after [Compress] the
    record holds no weight; compressing the second child first put the
    weight 2 of its own child into it. *)
Lemma nested_override_blocks_promotion :
  (∃ c0 c1,
      m_pChildList Ex.override_tree = Some [c0; c1]
      ∧ (pSttNd c0, nSttCnt c0)
        = (pSttNd Ex.override_tree, nSttCnt Ex.override_tree)
      ∧ chain_adjacent Ex.one_para (pEndNd c0) (nEndCnt c0) [c1] = true
      ∧ (pEndNd c1, nEndCnt c1)
        = (pEndNd Ex.override_tree, nEndCnt Ex.override_tree)
      ∧ aAttrSet c0 !! Ex.weight_id = Some 1
      ∧ aAttrSet c1 !! Ex.weight_id = Some 1)
  ∧ aAttrSet (Compress Ex.one_para Ex.override_tree) !! Ex.weight_id = None
  ∧ ∃ c0' c1',
      children_of (Compress Ex.one_para Ex.override_tree) = [c0'; c1']
      ∧ aAttrSet c0' !! Ex.weight_id = Some 1
      ∧ aAttrSet c1' !! Ex.weight_id = Some 2.
Proof.
  split; [|split].
  - eexists _, _. split; [reflexivity|]. repeat split; by vm_compute.
  - by vm_compute.
  - eexists _, _. split; [vm_compute; reflexivity|]. split; by vm_compute.
Qed.


(** The tree [Ex.erased_child_tree] is what the parser builds for
    "{\i {\b\ul abc}{\b\par}{\b\ul def}}". *)
Lemma erased_child_tree_is_parsed :
  ∃ p, run Ex.erased_child_parse Ex.start = Some p
       ∧ aAttrStack p = [] ∧ m_AttrSetList p = [Ex.erased_child_tree].
Proof. eexists. split; [vm_compute; reflexivity|]. split; reflexivity. Qed.


(** ** The bounds of the descent and of the font loop are enough *)

Lemma depth_eq (r : Stk) :
  depth r = match m_pChildList r with
            | None => 0%nat
            | Some l => S (list_max (map depth l))
            end.
Proof. by destruct r. Qed.

Lemma list_max_cons_eq (x : nat) (l : list nat) :
  list_max (x :: l) = Nat.max x (list_max l).
Proof. reflexivity. Qed.

Lemma depth_le_list_max (c : Stk) (l : list Stk) :
  c ∈ l → (depth c ≤ list_max (map depth l))%nat.
Proof.
  induction 1 as [c l|c c' l _ IH]; cbn [map]; rewrite list_max_cons_eq; lia.
Qed.

Lemma depth_child (r c : Stk) (l : list Stk) :
  m_pChildList r = Some l → c ∈ l → (depth c < depth r)%nat.
Proof.
  intros Hl Hc. rewrite (depth_eq r), Hl.
  pose proof (depth_le_list_max c l Hc). lia.
Qed.

Lemma list_max_le (l : list Stk) (n : nat) :
  Forall (λ c, (depth c ≤ n)%nat) l → (list_max (map depth l) ≤ n)%nat.
Proof.
  induction 1 as [|c l Hc Hall IH]; [cbn; lia|].
  cbn [map]. rewrite list_max_cons_eq. lia.
Qed.

Lemma depth_reset_if_empty (l : list Stk) (r : Stk) (n : nat) :
  Forall (λ c, (depth c < n)%nat) l →
  (depth (set_children (reset_if_empty l) r) ≤ n)%nat.
Proof.
  intros Hall. rewrite depth_eq. destruct l as [|c l];
    cbn [reset_if_empty set_children m_pChildList map]; [lia|].
  rewrite list_max_cons_eq. inversion Hall as [|? ? Hc Hl]; subst.
  assert (list_max (map depth l) ≤ n - 1)%nat.
  { apply list_max_le. eapply Forall_impl; [exact Hl|]. cbn beta.
    intros; lia. }
  lia.
Qed.

Section Descent.
Variable iep : Z → Z → bool.

Lemma Compress_loop_depth (cs : list Stk) (n : nat) :
  Forall (λ c, (depth (Compress iep c) ≤ depth c)%nat) cs →
  Forall (λ c, (depth c < n)%nat) cs →
  ∀ lastNd lastCnt aMrgSet cs' e,
    Compress_loop iep (Compress iep) cs lastNd lastCnt aMrgSet = (cs', e) →
    Forall (λ c, (depth c < n)%nat) cs'.
Proof.
  induction 1 as [|c cs Hc Hall IH]; intros Hn lastNd lastCnt m cs' e;
    rewrite Compress_loop_eq.
  - intros [= <- <-]. constructor.
  - inversion Hn as [|? ? Hcn Hn']; subst. cbv zeta.
    destruct (not_adjacent _ _ _ _).
    { intros [= <- <-]. constructor; [lia|].
      clear -Hall Hn'. induction Hall; inversion Hn'; subst; cbn [map];
        constructor; [lia | auto]. }
    destruct (decide _).
    { intros [= <- <-]. constructor; [lia | done]. }
    destruct (Compress_loop _ _ _ _ _ _) as [rest e'] eqn:Hloop.
    intros [= <- <-]. constructor; [lia|]. by eapply IH.
Qed.

Lemma subtract_merged_depth (aMrgSet : SfxItemSet) (cs : list Stk) (n : nat) :
  Forall (λ c, (depth c < n)%nat) cs →
  Forall (λ c, (depth c < n)%nat) (subtract_merged aMrgSet cs).
Proof.
  induction 1 as [|c cs Hc Hall IH]; cbn [subtract_merged]; [constructor|].
  destruct (_ && _); [done|]. constructor; [|done].
  by rewrite depth_eq in Hc |- *.
Qed.

(** [Compress] does not deepen a tree. *)
Lemma Compress_depth (r : Stk) : (depth (Compress iep r) ≤ depth r)%nat.
Proof.
  induction r as [a sn sc en ec st|a sn sc en ec st l IH] using Stk_ind;
    [done|].
  rewrite Compress_eq. cbn [m_pChildList].
  destruct l as [|c0 cs]; [done|].
  destruct (_ || _); [done|].
  inversion IH as [|? ? _ IHcs]; subst.
  set (r := MkStk a sn sc en ec st (Some (c0 :: cs))).
  assert (Forall (λ c, (depth c < depth r)%nat) (c0 :: cs)) as Hlt.
  { apply Forall_forall. intros c Hc. by eapply depth_child. }
  inversion Hlt as [|? ? H0 Hcs]; subst.
  destruct (Compress_loop _ _ _ _ _ _) as [cs' e] eqn:Hloop.
  pose proof (Compress_loop_depth cs _ IHcs Hcs _ _ _ _ _ Hloop) as Hcs'.
  assert (depth (set_children (Some (c0 :: cs')) r) ≤ depth r)%nat as Hkeep.
  { apply (depth_reset_if_empty (c0 :: cs')). by constructor. }
  destruct e as [|m nd cnt]; [done|]. destruct (_ || _); [done|].
  apply (depth_reset_if_empty _ (set_attrs _ r)).
  apply subtract_merged_depth. by constructor.
Qed.

End Descent.

Section DescentFuel.
Context {D : Type} `{!External D}.

Lemma fold_left_ext_in {A B} (f g : A → B → A) (l : list B) :
  (∀ x, x ∈ l → ∀ a, f a x = g a x) →
  ∀ a, fold_left f l a = fold_left g l a.
Proof.
  induction l as [|x l IH]; intros Hfg a; [done|]. cbn.
  rewrite Hfg by apply list_elem_of_here.
  apply IH. intros y Hy. apply Hfg. by apply list_elem_of_further.
Qed.

(** Any bound above the depth of the record gives the same descent: the
    bound [S (depth rSet)] of [SetAttrSet] cuts nothing off. *)
Lemma SetAttrSet_fuel_enough (n : nat) :
  ∀ m (rSet : Stk) (d : D),
    (depth rSet < n)%nat → (depth rSet < m)%nat →
    SetAttrSet_fuel n rSet d = SetAttrSet_fuel m rSet d.
Proof.
  induction n as [|n IH]; intros m rSet d Hn Hm; [lia|].
  destruct m as [|m]; [lia|]. cbn [SetAttrSet_fuel].
  set (d1 := if IsSetDfltTab d then d else SetDefault RTF_DEFTAB 720 d).
  set (r1 := if has_children rSet then Compress (IsEndPara d1) rSet
             else rSet).
  assert (depth r1 ≤ depth rSet)%nat as Hr1.
  { unfold r1. destruct (has_children rSet); [apply Compress_depth|done]. }
  destruct (m_pChildList r1) as [l|] eqn:Hl; [|done].
  apply fold_left_ext_in. intros c Hc d'.
  pose proof (depth_child r1 c l Hl Hc). apply IH; lia.
Qed.

End DescentFuel.

(** ** More on group-close resolution *)

Section MoreOnClose.
Context {D : Type} `{!External D}.
Implicit Type p : SvxRTFParser D.

#[local] Ltac flush_done :=
  unfold same_tables, step_forward in *;
  cbn [lexer aColorTbl m_FontTable m_StyleTable aPardMap nDfltFont bNewDoc
       bChkStyleAttr bNewGroup m_AttrSetList with_bNewGroup with_ext
       with_aAttrStack with_m_AttrSetList with_pRTFDefaults snd length]
    in *;
  rewrite ?app_nil_r;
  split_and!;
  first [lia | congruence | reflexivity
        | match goal with H : m_AttrSetList _ = _ |- _ =>
            rewrite H; reflexivity end
        | intuition congruence].

Lemma same_tables_refl p : same_tables p p.
Proof. flush_done. Qed.

Lemma same_tables_trans p q r :
  same_tables p q → same_tables q r → same_tables p r.
Proof. unfold same_tables. intuition congruence. Qed.

Lemma GetRTFDefaults_tables p : same_tables p (GetRTFDefaults p).2.
Proof.
  unfold GetRTFDefaults. destruct (pRTFDefaults p); [apply same_tables_refl|].
  destruct (decide _); [flush_done|].
  destruct (bNewDoc p) eqn:Hb; flush_done.
Qed.

Lemma split_off_tables (pOld : Stk) p : same_tables p (split_off pOld p).2.
Proof.
  unfold split_off. pose proof (GetRTFDefaults_tables p) as Ht.
  destruct (GetRTFDefaults p) as [defs q]. by destruct (decide _).
Qed.

(** What a close does to the flush list and to the tables. *)
Lemma AttrGroupEnd_popped_flush (below : list Stk) :
  ∀ (pOld : Stk) p,
    ∃ added,
      m_AttrSetList (AttrGroupEnd_popped below pOld p)
      = m_AttrSetList p ++ added
      ∧ (length added ≤ 2)%nat
      ∧ same_tables p (AttrGroupEnd_popped below pOld p)
      ∧ bNewGroup (AttrGroupEnd_popped below pOld p) = false.
Proof.
  induction below as [|pCurrent below IH]; intros pOld p;
    rewrite AttrGroupEnd_popped_eq; cbv zeta;
    (destruct (nothing_to_set _ _); [exists []; flush_done|]);
    (destruct (_ && left_empty _); [exists []; flush_done|]);
    (destruct (starts_up_to _ _);
     [|exists []; destruct (stepped_back _); flush_done]);
    match goal with
    | |- context [if ?c then split_off ?a ?b else ?e] =>
        pose proof (split_off_frame a b) as [_ Hfl];
        pose proof (split_off_tables a b) as Htb;
        destruct c; [destruct (split_off a b) as [[pNew|] q]|];
        cbn [snd with_ext m_AttrSetList] in Hfl
    end.
  - eexists [_; _]. flush_done.
  - eexists [_]. destruct (stepped_back _); flush_done.
  - eexists [_]. destruct (stepped_back _); flush_done.
  - exists []. flush_done.
  - destruct (_ && too_many_children _);
      [|exists []; destruct (stepped_back _); flush_done].
    match goal with
    | |- context [GetRTFDefaults ?x] =>
        pose proof (GetRTFDefaults_frame x) as (_ & Hf2 & _);
        pose proof (GetRTFDefaults_tables x) as Ht2;
        destruct (GetRTFDefaults x) as [defs q1]
    end.
    cbn [snd with_ext m_AttrSetList] in Hf2.
    unfold AttrGroupEnd. cbn [aAttrStack with_aAttrStack].
    match goal with
    | |- context [AttrGroupEnd_popped below ?o ?s] =>
        destruct (IH o s) as (added & Hadd & Hlen & Htab & _);
        set (res := AttrGroupEnd_popped below o s) in *
    end.
    exists added. flush_done.
  - destruct (_ && too_many_children _);
      [|exists []; destruct (stepped_back _); flush_done].
    match goal with
    | |- context [GetRTFDefaults ?x] =>
        pose proof (GetRTFDefaults_frame x) as (_ & Hf2 & _);
        pose proof (GetRTFDefaults_tables x) as Ht2;
        destruct (GetRTFDefaults x) as [defs q1]
    end.
    cbn [snd with_ext m_AttrSetList] in Hf2.
    unfold AttrGroupEnd. cbn [aAttrStack with_aAttrStack].
    match goal with
    | |- context [AttrGroupEnd_popped below ?o ?s] =>
        destruct (IH o s) as (added & Hadd & Hlen & Htab & _);
        set (res := AttrGroupEnd_popped below o s) in *
    end.
    exists added. flush_done.
Qed.

Lemma AttrGroupEnd_flush p :
  ∃ added,
    m_AttrSetList (AttrGroupEnd p) = m_AttrSetList p ++ added
    ∧ (length added ≤ 2)%nat
    ∧ same_tables p (AttrGroupEnd p).
Proof.
  unfold AttrGroupEnd. destruct (aAttrStack p) as [|pOld below] eqn:Hs.
  - exists []. rewrite app_nil_r. split_and!; [done|cbn; lia|].
    apply same_tables_refl.
  - destruct (AttrGroupEnd_popped_flush below pOld (with_aAttrStack below p))
      as (added & Hadd & Hlen & Htab & _).
    exists added. split_and!; done.
Qed.

(** X1: every group close takes exactly one record off the scope stack,
    also when the parent is closed early and replaced by a fresh record;
    on the empty stack nothing is taken. *)
Theorem close_takes_one_record p :
  length (aAttrStack (AttrGroupEnd p)) = pred (length (aAttrStack p)).
Proof.
  unfold AttrGroupEnd. destruct (aAttrStack p) as [|pOld below] eqn:Hs.
  - by rewrite Hs.
  - cbn [length pred]. by apply AttrGroupEnd_popped_length.
Qed.

(** X2: a group close never removes or reorders what the flush list
    holds: it appends at most two records (the closed record and, after a
    split, its continuation) and leaves the colour, font and style
    tables, the token source and the settings alone. *)
Theorem close_only_appends_to_flush_list p :
  ∃ added,
    m_AttrSetList (AttrGroupEnd p) = m_AttrSetList p ++ added
    ∧ (length added ≤ 2)%nat
    ∧ same_tables p (AttrGroupEnd p).
Proof.
  unfold AttrGroupEnd. destruct (aAttrStack p) as [|pOld below] eqn:Hs.
  - exists []. rewrite app_nil_r. split_and!; [done|cbn; lia|].
    apply same_tables_refl.
  - destruct (AttrGroupEnd_popped_flush below pOld (with_aAttrStack below p))
      as (added & Hadd & Hlen & Htab & _).
    exists added. split_and!; done.
Qed.

(** X3: a group that is opened and closed with nothing in between leaves
    no trace: the stack and the flush list are what they were, the cursor
    has not moved and no group is pending. *)
Theorem open_then_close_restores p :
  let q := AttrGroupEnd (GetAttrSet_ p) in
  aAttrStack q = aAttrStack p
  ∧ m_AttrSetList q = m_AttrSetList p
  ∧ GetNodeIdx (ext q) = GetNodeIdx (ext p)
  ∧ GetCntIdx (ext q) = GetCntIdx (ext p)
  ∧ same_tables p q
  ∧ bNewGroup q = false.
Proof.
  cbv zeta. unfold GetAttrSet_.
  pose proof (GetRTFDefaults_frame p) as (Hst & Hfl & _ & _ & _ & Hn & Hc & _).
  pose proof (GetRTFDefaults_tables p) as Htab.
  destruct (GetRTFDefaults p) as [defs q]. cbn [snd] in *.
  unfold AttrGroupEnd. cbn [aAttrStack with_aAttrStack with_bNewGroup].
  set (pNew := SetRTFDefaults defs _).
  assert (nothing_to_set pNew (ext q) = true) as Hdrop.
  { unfold nothing_to_set, has_children, pNew.
    destruct (aAttrStack p);
      cbn [SetRTFDefaults set_attrs new_ItemStack copy_ItemStack
           m_pChildList pSttNd nSttCnt negb andb];
      rewrite Hn, Hc, !Z.eqb_refl; by rewrite orb_true_r. }
  rewrite AttrGroupEnd_popped_eq. cbv zeta.
  cbn [ext with_aAttrStack with_bNewGroup]. rewrite Hdrop.
  cbn [aAttrStack m_AttrSetList ext bNewGroup with_aAttrStack with_bNewGroup].
  split_and!; done.
Qed.

Lemma close_all_spec (n : nat) : ∀ p,
  (length (aAttrStack p) ≤ n)%nat →
  aAttrStack (close_all n p) = []
  ∧ (∃ added, m_AttrSetList (close_all n p) = m_AttrSetList p ++ added)
  ∧ same_tables p (close_all n p).
Proof.
  induction n as [|n IH]; intros p Hlen.
  - destruct (aAttrStack p) eqn:Hs; [|cbn in Hlen; lia].
    cbn [close_all]. rewrite Hs. split_and!; [done| |apply same_tables_refl].
    exists []. by rewrite app_nil_r.
  - cbn [close_all]. destruct (aAttrStack p) as [|pOld below] eqn:Hs.
    + split_and!; [done| |apply same_tables_refl].
      exists []. by rewrite app_nil_r.
    + destruct (IH (AttrGroupEnd p)) as (Hst & [added Hadd] & Htab).
      { rewrite AttrGroupEnd_length, Hs. cbn in *. lia. }
      destruct (AttrGroupEnd_flush p) as (added0 & Hadd0 & _ & Htab0).
      split_and!; [done| |by eapply same_tables_trans].
      exists (added0 ++ added). by rewrite Hadd, Hadd0, app_assoc.
Qed.

Lemma set_and_drop_spec (l : list Stk) : ∀ p,
  m_AttrSetList p = l →
  set_and_drop (length l) p
  = with_m_AttrSetList []
      (with_ext (fold_left (λ d r, SetAttrSet r d) (rev l) (ext p)) p).
Proof.
  induction l as [|x l IH] using rev_ind; intros p Hl.
  - cbn. destruct p; cbn in *; by subst.
  - rewrite length_app, Nat.add_comm. cbn [length Nat.add set_and_drop].
    rewrite Hl, lookup_app_r, Nat.sub_diag by lia.
    cbn [lookup list_lookup m_AttrSetList with_ext with_m_AttrSetList].
    rewrite Hl, insert_app_r_alt, Nat.sub_diag by lia.
    cbn [insert list_insert]. rewrite removelast_last, IH by reflexivity.
    rewrite rev_app_distr. reflexivity.
Qed.

(** X4: at the end of a parse every open group is closed and every
    collected record is set, the record added last first: the scope stack
    and the flush list are both empty afterwards, and the tables are
    untouched. *)
Theorem SetAllAttrOfStk_sets_everything p :
  let q := close_all (length (aAttrStack p)) p in
  aAttrStack q = []
  ∧ (∃ added, m_AttrSetList q = m_AttrSetList p ++ added)
  ∧ aAttrStack (SetAllAttrOfStk p) = []
  ∧ m_AttrSetList (SetAllAttrOfStk p) = []
  ∧ ext (SetAllAttrOfStk p)
    = fold_left (λ d r, SetAttrSet r d) (rev (m_AttrSetList q)) (ext q)
  ∧ same_tables p (SetAllAttrOfStk p).
Proof.
  cbv zeta. unfold SetAllAttrOfStk.
  destruct (close_all_spec (length (aAttrStack p)) p)
    as (Hst & Hadd & Htab); [lia|].
  set (q := close_all _ p) in *.
  rewrite (set_and_drop_spec (m_AttrSetList q)) by reflexivity.
  cbn [aAttrStack m_AttrSetList ext with_m_AttrSetList with_ext].
  split_and!; done.
Qed.

(** X5: the loop that deletes the paragraph attributes from the
    continuation of a split record removes exactly the items whose
    which-id is a non-zero entry of the id array; leaving the loop as soon
    as the set is empty, and skipping the zero entries, never keeps such
    an item nor removes another. *)
Theorem ClearIds_removes_exactly_listed (ids : list Z) (s : SfxItemSet)
        (w v : Z) :
  ItemSet.ClearIds ids s !! w = Some v
  ↔ s !! w = Some v ∧ ¬ (w ≠ 0 ∧ w ∈ ids).
Proof. rewrite ClearIds_filter. apply map_lookup_filter_Some. Qed.

Lemma filter_twice (P : Z * Z → Prop) `{!∀ kv, Decision (P kv)}
      (s : SfxItemSet) :
  filter P (filter P s) = filter P s.
Proof.
  apply map_filter_id. intros i x Hx.
  by apply map_lookup_filter_Some in Hx as [_ ?].
Qed.

(** X6: the comparison with the style sheet only removes items, and only
    redundant ones: a removed item equals the pool default of its
    which-id or the item the record's style sets; the range and the
    children of the record stay, and a second comparison removes nothing
    more. *)
Theorem ClearStyleAttr_drops_only_redundant p (r : Stk) :
  let r' := ClearStyleAttr_ p r in
  aAttrSet r' ⊆ aAttrSet r
  ∧ set_attrs (aAttrSet r) r' = r
  ∧ (∀ w v, aAttrSet r !! w = Some v → aAttrSet r' !! w = None →
       (IsWhich w = true ∧ GetDefaultItem (ext p) w = v)
       ∨ (∃ pStyle, m_StyleTable p !! nStyleNo r = Some pStyle
                    ∧ style_aAttrSet pStyle !! w = Some v))
  ∧ ClearStyleAttr_ p r' = r'.
Proof.
  cbv zeta.
  assert (∀ w v, aAttrSet r !! w = Some v →
            filter (λ kv, is_pool_default p kv = false) (aAttrSet r) !! w
            = None →
            IsWhich w = true ∧ GetDefaultItem (ext p) w = v) as Hpool.
  { intros w v Hv Hn.
    destruct (is_pool_default p (w, v)) eqn:Hd.
    - unfold is_pool_default in Hd. cbn [fst snd] in Hd.
      apply andb_true_iff in Hd as [? ?%Z.eqb_eq]. done.
    - assert (filter (λ kv, is_pool_default p kv = false) (aAttrSet r) !! w
              = Some v) as Hs by (by apply map_lookup_filter_Some).
      congruence. }
  assert (∀ a, set_attrs (aAttrSet r) (set_attrs a r) = r) as Hback.
  { intros a. by destruct r. }
  remember (ClearStyleAttr_ p r) as r' eqn:Hr'.
  unfold ClearStyleAttr_ in Hr'.
  destruct (m_StyleTable p !! nStyleNo r) as [pStyle|] eqn:Hst;
    [destruct (negb (IsChkStyleAttr p)
               || bool_decide (ItemSet.Count (aAttrSet r) = 0%nat)) eqn:Hc|];
    subst r'.
  - cbn [aAttrSet set_attrs]. split_and!;
      [apply map_filter_subseteq|apply Hback|intros; left; eauto|].
    unfold ClearStyleAttr_. cbn [aAttrSet set_attrs nStyleNo]. rewrite Hst.
    assert (negb (IsChkStyleAttr p)
            || bool_decide
                 (ItemSet.Count
                    (filter (λ kv, is_pool_default p kv = false) (aAttrSet r))
                  = 0%nat) = true) as ->.
    { apply orb_true_iff in Hc as [->|Hz]; [done|].
      apply bool_decide_eq_true in Hz. apply Count_0_iff in Hz.
      rewrite Hz, map_filter_empty. by rewrite orb_true_r. }
    unfold set_attrs. cbn [aAttrSet pSttNd nSttCnt pEndNd nEndCnt nStyleNo
                           m_pChildList].
    by rewrite filter_twice.
  - cbn [aAttrSet set_attrs]. split_and!;
      [apply map_filter_subseteq|apply Hback| |].
    + intros w v Hv Hn.
      destruct (differs_from_style p pStyle (w, v)) eqn:Hd.
      { assert (filter (λ kv, differs_from_style p pStyle kv = true)
                       (aAttrSet r) !! w = Some v) as Hs
          by (by apply map_lookup_filter_Some).
        congruence. }
      unfold differs_from_style in Hd. cbn [fst snd] in Hd.
      destruct (style_aAttrSet pStyle !! w) as [sItem|] eqn:Hsi.
      * right. exists pStyle. split; [done|].
        apply negb_false_iff, Z.eqb_eq in Hd. by subst.
      * left. apply negb_false_iff in Hd. unfold is_pool_default in Hd.
        cbn [fst snd] in Hd.
        apply andb_true_iff in Hd as [? ?%Z.eqb_eq]. done.
    + unfold ClearStyleAttr_. cbn [aAttrSet set_attrs nStyleNo]. rewrite Hst.
      apply orb_false_elim in Hc as [Hchk _]. rewrite Hchk.
      cbn [orb]. case_bool_decide as Hz.
      * apply Count_0_iff in Hz. rewrite Hz, map_filter_empty.
        unfold set_attrs. by cbn [aAttrSet pSttNd nSttCnt pEndNd nEndCnt
                                  nStyleNo m_pChildList].
      * unfold set_attrs. cbn [aAttrSet pSttNd nSttCnt pEndNd nEndCnt nStyleNo
                               m_pChildList].
        by rewrite filter_twice.
  - cbn [aAttrSet set_attrs]. split_and!;
      [apply map_filter_subseteq|apply Hback|intros; left; eauto|].
    unfold ClearStyleAttr_. cbn [aAttrSet set_attrs nStyleNo]. rewrite Hst.
    unfold set_attrs. cbn [aAttrSet pSttNd nSttCnt pEndNd nEndCnt nStyleNo
                           m_pChildList].
    by rewrite filter_twice.
Qed.

End MoreOnClose.

(** ** What the compressor keeps and what it promotes *)

Section CompressMore.
Variable iep : Z → Z → bool.

(** X7: [Compress] never moves a record: the start, the end and the style
    of the record are what they were, and every which-id the record had
    set is still set in it. *)
Theorem Compress_keeps_range_and_style (r : Stk) :
  (pSttNd (Compress iep r), nSttCnt (Compress iep r)) = (pSttNd r, nSttCnt r)
  ∧ (pEndNd (Compress iep r), nEndCnt (Compress iep r))
    = (pEndNd r, nEndCnt r)
  ∧ nStyleNo (Compress iep r) = nStyleNo r
  ∧ ∀ w, is_Some (aAttrSet r !! w) → is_Some (aAttrSet (Compress iep r) !! w).
Proof.
  destruct (Compress_fields iep r) as (-> & -> & -> & -> & ->).
  split_and!; try done. intros w Hw.
  rewrite Compress_eq. destruct (m_pChildList r) as [[|c0 cs]|]; try done.
  destruct (_ || _); [done|].
  destruct (Compress_loop _ _ _ _ _) as [cs' [|m nd cnt]]; [done|].
  destruct (_ || _); [done|].
  cbn [aAttrSet set_children set_attrs]. unfold ItemSet.Put.
  apply lookup_union_is_Some. by right.
Qed.

(** X8: [Compress] never adds a record to the tree and never makes it
    deeper: children are only erased, never created or moved down. *)
Theorem Compress_never_grows (r : Stk) :
  (count_records (Compress iep r) ≤ count_records r)%nat
  ∧ (depth (Compress iep r) ≤ depth r)%nat.
Proof. split; [apply Compress_count|apply Compress_depth]. Qed.

Lemma KeepEqual_lookup_inv (other s : SfxItemSet) (w v : Z) :
  ItemSet.KeepEqual other s !! w = Some v →
  s !! w = Some v ∧ other !! w = Some v.
Proof.
  unfold ItemSet.KeepEqual. intros H.
  by apply map_lookup_filter_Some in H.
Qed.

(** When the loop runs to its end, the children follow one another and
    every item of the merge set stood in the set the loop began with and
    in every child, once compressed. *)
Lemma Compress_loop_finished (cs : list Stk) :
  ∀ lastNd lastCnt (aMrgSet : SfxItemSet) cs' aMrgSet' nd cnt,
    Compress_loop iep (Compress iep) cs lastNd lastCnt aMrgSet
    = (cs', Finished aMrgSet' nd cnt) →
    chain_adjacent iep lastNd lastCnt cs = true
    ∧ last_end lastNd lastCnt cs = (nd, cnt)
    ∧ ∀ w v, aMrgSet' !! w = Some v →
        aMrgSet !! w = Some v
        ∧ Forall (λ c, aAttrSet (Compress iep c) !! w = Some v) cs.
Proof.
  induction cs as [|c cs IH]; intros lastNd lastCnt m cs' m' nd cnt;
    rewrite Compress_loop_eq.
  - intros [= <- <- <- <-]. split_and!; try done.
  - cbv zeta. destruct (not_adjacent _ _ _ _) eqn:Hna; [done|].
    destruct (decide _); [done|].
    destruct (Compress_loop _ _ _ _ _ _) as [rest e] eqn:Hloop.
    intros [= <- ->].
    destruct (IH _ _ _ _ _ _ _ Hloop) as (Hadj & Hend & Hm).
    cbn [chain_adjacent last_end]. rewrite Hna. split_and!; try done.
    intros w v Hw. destruct (Hm w v Hw) as [Hk Hall].
    apply KeepEqual_lookup_inv in Hk as [? ?].
    split; [done|]. by constructor.
Qed.

(** X10: [Compress] promotes no item by accident.  When the record holds
    an item after [Compress] that it did not hold before, the first child
    starts where the record starts, the children follow one another, the
    last child ends where the record ends, and the first child and every
    later child, once compressed, hold exactly this item. *)
Theorem compress_promotes_only_shared (r : Stk) (w v : Z) :
  aAttrSet (Compress iep r) !! w = Some v →
  aAttrSet r !! w ≠ Some v →
  ∃ c0 cs,
    m_pChildList r = Some (c0 :: cs)
    ∧ (pSttNd c0, nSttCnt c0) = (pSttNd r, nSttCnt r)
    ∧ chain_adjacent iep (pEndNd c0) (nEndCnt c0) cs = true
    ∧ last_end (pEndNd c0) (nEndCnt c0) cs = (pEndNd r, nEndCnt r)
    ∧ aAttrSet c0 !! w = Some v
    ∧ Forall (λ c, aAttrSet (Compress iep c) !! w = Some v) cs.
Proof.
  rewrite Compress_eq. intros Hafter Hbefore.
  destruct (m_pChildList r) as [[|c0 cs]|] eqn:Hch; try done.
  destruct (_ || _) eqn:Hstart; [done|].
  apply orb_false_elim in Hstart as [Hstart Hc].
  apply orb_false_elim in Hstart as [_ Hn].
  apply negb_false_iff, Z.eqb_eq in Hn, Hc.
  destruct (Compress_loop _ _ _ _ _) as [cs' [|m nd cnt]] eqn:Hloop;
    [done|].
  destruct (_ || _) eqn:Hend; [done|].
  apply orb_false_elim in Hend as [He1 He2].
  apply negb_false_iff, Z.eqb_eq in He1, He2.
  cbn [aAttrSet set_children set_attrs] in Hafter. unfold ItemSet.Put in Hafter.
  apply lookup_union_Some_raw in Hafter as [Hm|[_ ?]]; [|done].
  destruct (Compress_loop_finished _ _ _ _ _ _ _ _ Hloop)
    as (Hadj & Hlast & Hall).
  destruct (Hall w v Hm) as [H0 Hcs].
  exists c0, cs. split_and!; try done; congruence.
Qed.

End CompressMore.

Lemma compress_promotes_only_shared_witness :
  ∃ c0 cs,
    m_pChildList Ex.covered_tree = Some (c0 :: cs)
    ∧ (pSttNd c0, nSttCnt c0)
      = (pSttNd Ex.covered_tree, nSttCnt Ex.covered_tree)
    ∧ chain_adjacent Ex.one_para (pEndNd c0) (nEndCnt c0) cs = true
    ∧ last_end (pEndNd c0) (nEndCnt c0) cs
      = (pEndNd Ex.covered_tree, nEndCnt Ex.covered_tree)
    ∧ aAttrSet c0 !! Ex.weight_id = Some 1
    ∧ Forall (λ c, aAttrSet (Compress Ex.one_para c) !! Ex.weight_id = Some 1)
             cs.
Proof.
  apply (compress_promotes_only_shared Ex.one_para Ex.covered_tree
           Ex.weight_id 1).
  - vm_compute. reflexivity.
  - intros Heq. vm_compute in Heq. discriminate Heq.
Defined.

(** ** The readers of the colour and the font table *)

Lemma finish_color_byte (ch : Channels) (tbl : list Color) :
  (0 ≤ nRed ch < 256) → (0 ≤ nGreen ch < 256) → (0 ≤ nBlue ch < 256) →
  ∃ c, finish_color ch tbl = tbl ++ [c] ∧ byte_color c.
Proof.
  intros Hr Hg Hb. unfold finish_color. eexists. split; [reflexivity|].
  destruct (_ && _); cbn; done.
Qed.

Lemma sal_uInt8_byte (v : Z) : 0 ≤ sal_uInt8 v < 256.
Proof. unfold sal_uInt8. apply Z.mod_pos_bound. lia. Qed.

(** The table the body leaves, by the kind of the token. *)
Lemma ReadColorTable_body_table (t : Token) (ch : Channels)
      (tbl : list Color) :
  snd (ReadColorTable_body t true (ch, tbl))
  = if finishes_color t then finish_color ch tbl else tbl.
Proof.
  unfold ReadColorTable_body, finishes_color. destruct t; try done.
  by destruct (lacks_semicolon aToken).
Qed.

Lemma ReadColorTable_body_channels (t : Token) (w : bool) (ch : Channels)
      (tbl : list Color) :
  (0 ≤ nRed ch < 256) → (0 ≤ nGreen ch < 256) → (0 ≤ nBlue ch < 256) →
  let ch' := fst (ReadColorTable_body t w (ch, tbl)) in
  (0 ≤ nRed ch' < 256) ∧ (0 ≤ nGreen ch' < 256) ∧ (0 ≤ nBlue ch' < 256).
Proof.
  intros Hr Hg Hb. pose proof sal_uInt8_byte as Hbyte.
  unfold ReadColorTable_body.
  destruct t; try destruct (lacks_semicolon _); destruct w;
    cbn [fst nRed nGreen nBlue]; split_and!; first [done | apply Hbyte | lia].
Qed.

Lemma ReadColorTable_loop_bytes (pend : list Token) :
  ∀ l ch tbl,
    (0 ≤ nRed ch < 256) → (0 ≤ nGreen ch < 256) → (0 ≤ nBlue ch < 256) →
    ∃ added,
      snd (snd (ReadColorTable_loop pend l (ch, tbl))) = tbl ++ added
      ∧ Forall byte_color added.
Proof.
  induction pend as [|t0 pend IH]; intros l ch tbl Hr Hg Hb;
    rewrite ReadColorTable_loop_eq;
    destruct (Lex.GetNextToken l) as [nToken l'];
    destruct (is_close_brace nToken || negb (Lex.IsParserWorking l'));
    try (exists []; rewrite app_nil_r; split; [done | constructor]).
  pose proof (ReadColorTable_body_channels nToken (Lex.IsParserWorking l')
                ch tbl Hr Hg Hb) as (Hr' & Hg' & Hb').
  destruct (ReadColorTable_body_cases nToken (Lex.IsParserWorking l') ch tbl)
    as [Hsame | (_ & _ & Hfin)].
  - destruct (ReadColorTable_body _ _ _) as [ch' tbl']. cbn [fst snd] in *.
    subst tbl'. by apply IH.
  - rewrite Hfin in *. cbn [fst] in *.
    destruct (finish_color_byte ch tbl Hr Hg Hb) as (c & -> & Hc).
    destruct (IH l' (MkChannels 0 0 0) (tbl ++ [c]) Hr' Hg' Hb')
      as (added & -> & Hadd).
    exists (c :: added). split; [by rewrite <- app_assoc|by constructor].
Qed.

Lemma ReadColorTable_loop_count (pend : list Token) :
  ∀ l ch tbl,
    pending l = pend → working l = true →
    length (snd (snd (ReadColorTable_loop pend l (ch, tbl))))
    = (length tbl
       + length (filter (λ t, finishes_color t = true) (up_to_close pend)))%nat.
Proof.
  induction pend as [|t pend IH]; intros l ch tbl Hp Hw;
    rewrite ReadColorTable_loop_eq.
  - unfold Lex.GetNextToken. rewrite Hp. cbn. lia.
  - destruct (GetNextToken_cons l t pend Hp) as (l' & -> & Hp' & Hw').
    unfold Lex.IsParserWorking. rewrite Hw', Hw. cbn [negb up_to_close].
    rewrite orb_false_r. destruct (is_close_brace t); [cbn; lia|].
    pose proof (ReadColorTable_body_table t ch tbl) as Hbody.
    destruct (ReadColorTable_body t true (ch, tbl)) as [ch' tbl'].
    cbn [snd] in Hbody. subst tbl'.
    rewrite IH by congruence. rewrite filter_cons.
    destruct (finishes_color t); cbn [decide_rel]; case_decide; try done.
    unfold finish_color. rewrite length_app. cbn [length]. lia.
Qed.

(** The reader stops in front of the first closing brace. *)
Lemma ReadColorTable_loop_stops (pre : list Token) :
  ∀ rest l st,
    pending l = pre ++ T_CloseBrace :: rest → working l = true →
    Forall (λ t, is_close_brace t = false) pre →
    ∃ l', fst (ReadColorTable_loop (pre ++ T_CloseBrace :: rest) l st) = l'
          ∧ pending (Lex.SkipToken_back 1 l') = T_CloseBrace :: rest
          ∧ working (Lex.SkipToken_back 1 l') = true.
Proof.
  induction pre as [|t pre IH]; intros rest l st Hp Hw Hall.
  - cbn [app] in *. rewrite ReadColorTable_loop_eq.
    unfold Lex.GetNextToken. rewrite Hp. cbn. eexists. split; [reflexivity|].
    by rewrite Hw.
  - inversion Hall as [|? ? Ht Hall']; subst.
    destruct (GetNextToken_cons l t (pre ++ T_CloseBrace :: rest) Hp)
      as (l' & Hget & Hp' & Hw').
    rewrite <- app_comm_cons, ReadColorTable_loop_eq, Hget.
    unfold Lex.IsParserWorking. rewrite Ht, Hw', Hw. cbn [orb negb].
    apply IH; [done | congruence | done].
Qed.

Section ColorTableMore.
Context {D : Type} `{!External D}.
Implicit Type p : SvxRTFParser D.

(** X15: the colour table reader stores one colour for every separator,
    and for every text that holds one, in front of the first closing
    brace, and no other: the table grows by exactly their number. *)
Theorem ReadColorTable_one_color_per_separator p :
  working (lexer p) = true →
  length (aColorTbl (ReadColorTable p))
  = (length (aColorTbl p)
     + length (filter (λ t, finishes_color t = true)
                      (up_to_close (pending (lexer p)))))%nat.
Proof.
  intros Hw. rewrite ReadColorTable_table.
  by apply ReadColorTable_loop_count.
Qed.

(** X16: the colours already in the table keep their index, and every
    colour the reader appends is the automatic colour or has its three
    channels between 0 and 255, whatever the values of the channel
    tokens. *)
Theorem ReadColorTable_appends_byte_colors p :
  ∃ added,
    aColorTbl (ReadColorTable p) = aColorTbl p ++ added
    ∧ Forall byte_color added.
Proof.
  rewrite ReadColorTable_table.
  apply ReadColorTable_loop_bytes; cbn [nRed nGreen nBlue]; lia.
Qed.

(** X17: the reader leaves the closing brace of the table to its caller:
    after it the next token is the first closing brace that followed, and
    the parser is still working. *)
Theorem ReadColorTable_leaves_closing_brace p (pre rest : list Token) :
  working (lexer p) = true →
  pending (lexer p) = pre ++ T_CloseBrace :: rest →
  Forall (λ t, is_close_brace t = false) pre →
  pending (lexer (ReadColorTable p)) = T_CloseBrace :: rest
  ∧ working (lexer (ReadColorTable p)) = true.
Proof.
  intros Hw Hp Hpre. unfold ReadColorTable. rewrite Hp.
  destruct (ReadColorTable_loop_stops pre rest (lexer p)
              (MkChannels 255 255 255, aColorTbl p) Hp Hw Hpre)
    as (l' & Hl & Hpend & Hwork).
  destruct (ReadColorTable_loop _ _ _) as [l [ch tbl]].
  cbn [fst] in Hl. subst l'. done.
Qed.

End ColorTableMore.

Lemma ReadColorTable_one_color_per_separator_witness :
  length (aColorTbl (ReadColorTable (Ex.with_tokens Ex.color_tokens)))
  = (length (aColorTbl (Ex.with_tokens Ex.color_tokens))
     + length (filter (λ t, finishes_color t = true)
                 (up_to_close (pending (lexer (Ex.with_tokens
                                                 Ex.color_tokens))))))%nat.
Proof.
  apply (ReadColorTable_one_color_per_separator
           (Ex.with_tokens Ex.color_tokens)).
  reflexivity.
Defined.

Lemma ReadColorTable_leaves_closing_brace_witness :
  pending (lexer (ReadColorTable (Ex.with_tokens Ex.color_tokens)))
  = [T_CloseBrace]
  ∧ working (lexer (ReadColorTable (Ex.with_tokens Ex.color_tokens))) = true.
Proof.
  apply (ReadColorTable_leaves_closing_brace
           (Ex.with_tokens Ex.color_tokens)
           [T_Semicolon; RTF_RED 255; RTF_GREEN 0; RTF_BLUE 0; T_Semicolon]
           []).
  - reflexivity.
  - reflexivity.
  - repeat constructor.
Defined.

(** *** Font names *)

Lemma stripStart_spec (s : list Z) :
  ∃ pre, s = pre ++ stripStart s ∧ Forall (λ c, c = 32) pre
         ∧ no_leading_space (stripStart s).
Proof.
  induction s as [|c s (pre & Hs & Hpre & Hno)]; [by exists []|].
  cbn [stripStart]. destruct (c =? 32) eqn:Hc.
  - apply Z.eqb_eq in Hc. exists (c :: pre). split_and!; [|by constructor|done].
    cbn. by rewrite <- Hs.
  - apply Z.eqb_neq in Hc. exists []. split_and!; [done|constructor|done].
Qed.

Lemma stripEnd_prefix (s : list Z) : ∃ post, s = stripEnd s ++ post.
Proof.
  unfold stripEnd. destruct (stripStart_spec (rev s)) as (pre & Hs & _).
  exists (rev pre). rewrite <- rev_app_distr, <- Hs. by rewrite rev_involutive.
Qed.

Lemma removelast_prefix (s : list Z) : ∃ post, s = removelast s ++ post.
Proof.
  destruct s as [|c s] using rev_ind; [by exists []|].
  exists [c]. by rewrite removelast_last.
Qed.

Lemma no_leading_space_prefix (a b : list Z) :
  no_leading_space (a ++ b) → no_leading_space a.
Proof. by destruct a. Qed.

Lemma DelCharAtEnd_eq (rStr : list Z) (cDel : Z) :
  DelCharAtEnd rStr cDel
  = let r1 := stripStart rStr in
    let r2 :=
      match last r1 with
      | Some c => if c =? 32 then stripEnd r1 else r1
      | None => r1
      end in
    match last r2 with
    | Some c => if c =? cDel then removelast r2 else r2
    | None => r2
    end.
Proof.
  unfold DelCharAtEnd. destruct rStr as [|c s]; [done|].
  cbn [stripStart]. by destruct (c =? 32).
Qed.

(** X18: what [DelCharAtEnd] takes from a font name is taken at its two
    ends only: the result is the string between some leading spaces and
    some end of the string, and it never begins with a space. *)
Theorem DelCharAtEnd_trims_the_ends (rStr : list Z) (cDel : Z) :
  no_leading_space (DelCharAtEnd rStr cDel)
  ∧ ∃ pre post,
      rStr = pre ++ DelCharAtEnd rStr cDel ++ post
      ∧ Forall (λ c, c = 32) pre.
Proof.
  rewrite DelCharAtEnd_eq. cbv zeta.
  destruct (stripStart_spec rStr) as (pre & Hs & Hpre & Hno).
  set (r1 := stripStart rStr) in *.
  assert (∃ post2, r1 = match last r1 with
                        | Some c => if c =? 32 then stripEnd r1 else r1
                        | None => r1
                        end ++ post2) as [post2 H2].
  { destruct (last r1) as [c|]; [destruct (c =? 32)|];
      try (exists []; by rewrite app_nil_r).
    apply stripEnd_prefix. }
  set (r2 := match last r1 with
             | Some c => if c =? 32 then stripEnd r1 else r1
             | None => r1
             end) in *.
  assert (∃ post3, r2 = match last r2 with
                        | Some c => if c =? cDel then removelast r2 else r2
                        | None => r2
                        end ++ post3) as [post3 H3].
  { destruct (last r2) as [c|]; [destruct (c =? cDel)|];
      try (exists []; by rewrite app_nil_r).
    apply removelast_prefix. }
  set (r3 := match last r2 with
             | Some c => if c =? cDel then removelast r2 else r2
             | None => r2
             end) in *.
  split.
  - apply (no_leading_space_prefix r3 post3). rewrite <- H3.
    apply (no_leading_space_prefix r2 post2). by rewrite <- H2.
  - exists pre, (post3 ++ post2). split; [|done].
    rewrite (app_assoc r3), <- H3, <- H2. done.
Qed.

(** X19: a font name that does not begin with a space comes back when its
    delimiter is taken off: [DelCharAtEnd] of the name followed by the
    delimiter is the name, trailing spaces of the name included. *)
Theorem DelCharAtEnd_takes_delimiter_off (sFntNm : list Z) (cDel : Z) :
  no_leading_space sFntNm → cDel ≠ 32 →
  DelCharAtEnd (sFntNm ++ [cDel]) cDel = sFntNm.
Proof.
  intros Hno Hc. rewrite DelCharAtEnd_eq. cbv zeta.
  assert (stripStart (sFntNm ++ [cDel]) = sFntNm ++ [cDel]) as ->.
  { destruct sFntNm as [|c s]; cbn [app stripStart].
    - by rewrite (proj2 (Z.eqb_neq _ _) Hc).
    - cbn in Hno. by rewrite (proj2 (Z.eqb_neq _ _) Hno). }
  rewrite last_snoc, (proj2 (Z.eqb_neq _ _) Hc), last_snoc, Z.eqb_refl.
  apply removelast_last.
Qed.

Lemma DelCharAtEnd_takes_delimiter_off_witness :
  DelCharAtEnd ([84; 105; 109; 101; 115] ++ [59]) 59 = [84; 105; 109; 101; 115].
Proof.
  apply (DelCharAtEnd_takes_delimiter_off [84; 105; 109; 101; 115] 59).
  - cbn. lia.
  - lia.
Defined.

(** *** The font table *)

Lemma GetNextToken_turns (l : Lexer) :
  (turns_left (Lex.GetNextToken l).2 ≤ turns_left l)%nat
  ∧ (working l = true →
     (turns_left (Lex.GetNextToken l).2 < turns_left l)%nat).
Proof.
  unfold Lex.GetNextToken, turns_left.
  destruct (pending l) as [|t rest]; cbn [snd working pending length];
    destruct (working l); split; try done; lia.
Qed.

Lemma peek_turns (l : Lexer) :
  (turns_left (Lex.SkipToken_back 1 (Lex.GetNextToken l).2) ≤ turns_left l)%nat.
Proof.
  unfold Lex.GetNextToken, turns_left.
  destruct (pending l) as [|t rest];
    cbn [Lex.SkipToken_back snd consumed working pending length];
    destruct (working l); lia.
Qed.

Lemma peek2_turns (l : Lexer) :
  (turns_left
     (Lex.SkipToken_back 2
        (Lex.GetNextToken (Lex.GetNextToken l).2).2) ≤ turns_left l)%nat.
Proof.
  unfold Lex.GetNextToken, turns_left.
  destruct (pending l) as [|t [|t' rest]];
    cbn [Lex.SkipToken_back snd consumed working pending length];
    destruct (working l); lia.
Qed.

Lemma skip_group_length (pend : list Token) :
  ∀ n cons, (length (Lex.skip_group n cons pend).2 ≤ length pend)%nat.
Proof.
  induction pend as [|t pend IH]; intros n cons; [done|].
  destruct t; cbn [Lex.skip_group length];
    try (etransitivity; [apply IH|lia]).
  destruct n; cbn [snd length]; [lia|]. etransitivity; [apply IH|lia].
Qed.

Lemma ReadUnknownData_turns (l : Lexer) :
  (turns_left (Lex.ReadUnknownData l) ≤ turns_left l)%nat.
Proof.
  unfold Lex.ReadUnknownData, turns_left.
  pose proof (skip_group_length (pending l) 0 (consumed l)) as Hlen.
  destruct (Lex.skip_group 0 (consumed l) (pending l)) as [c q].
  cbn [snd working pending] in *. destruct (working l); lia.
Qed.

Lemma set_error_turns (l : Lexer) : turns_left (Lex.set_error l) = 0%nat.
Proof. done. Qed.

Lemma SetEncoding_turns (e : rtl_TextEncoding) (l : Lexer) :
  turns_left (Lex.SetEncoding e l) = turns_left l.
Proof. done. Qed.

Section FontTableMore.
Context {D : Type} `{!External D}.
Implicit Type p : SvxRTFParser D.

Lemma ReadFontTable_switch_turns (nToken : Token) (v : FontLocals)
      (l : Lexer) :
  (turns_left (ReadFontTable_switch nToken v l).2 ≤ turns_left l)%nat.
Proof.
  unfold ReadFontTable_switch.
  destruct nToken; cbn [snd]; try lia.
  - pose proof (peek_turns l) as H1. pose proof (peek2_turns l) as H2.
    pose proof (GetNextToken_turns l) as [G1 _].
    destruct (Lex.GetNextToken l) as [t1 l1]. cbn [snd] in *.
    destruct (negb (is_ignoreflag t1)); [done|].
    pose proof (GetNextToken_turns l1) as [G2 _].
    destruct (Lex.GetNextToken l1) as [t2 l2]. cbn [snd] in *.
    destruct (negb (is_filtered_group t2)); [done|].
    pose proof (ReadUnknownData_turns l2) as G3.
    pose proof (GetNextToken_turns (Lex.ReadUnknownData l2)) as [G4 _].
    destruct (Lex.GetNextToken (Lex.ReadUnknownData l2)) as [t3 l4].
    cbn [snd] in *. destruct (is_close_brace t3);
      rewrite ?set_error_turns; lia.
  - by destruct (DelCharAtEnd aToken 59), (bIsAltFntNm v).
  - destruct (nTokenValue =? -1); cbn [snd]; [lia|].
    by rewrite SetEncoding_turns.
  - by destruct (nTokenValue =? 1), (nTokenValue =? 2).
Qed.

(** Every turn of the loop uses up a token or ends the working state. *)
Lemma ReadFontTable_turn_turns (v : FontLocals) (l : Lexer)
      (tbl : gmap Z Font) :
  working l = true →
  (turns_left (ReadFontTable_turn v l tbl).1.2 < turns_left l)%nat.
Proof.
  intros Hw. unfold ReadFontTable_turn.
  pose proof (GetNextToken_turns l) as [_ Hlt]. specialize (Hlt Hw).
  destruct (Lex.GetNextToken l) as [nToken l0]. cbn [snd] in Hlt.
  pose proof (ReadFontTable_switch_turns nToken v l0) as Hsw.
  destruct (ReadFontTable_switch nToken v l0) as [[b v1] l1].
  cbn [snd] in Hsw.
  destruct (_ && _); [destruct (font_ready v1 tbl)|]; cbn [fst snd]; lia.
Qed.

Lemma ReadFontTable_loop_ends (fuel : nat) :
  ∀ v l tbl,
    (turns_left l ≤ fuel)%nat →
    _nOpenBrakets (ReadFontTable_loop fuel v l tbl).1.1 = 0
    ∨ working (ReadFontTable_loop fuel v l tbl).1.2 = false.
Proof.
  induction fuel as [|fuel IH]; intros v l tbl Hfuel;
    cbn [ReadFontTable_loop]; unfold Lex.IsParserWorking;
    destruct (_nOpenBrakets v =? 0) eqn:Hopen;
    try (left; cbn [fst negb andb]; by apply Z.eqb_eq);
    destruct (working l) eqn:Hw; try (right; done); cbn [negb andb].
  - unfold turns_left in Hfuel. rewrite Hw in Hfuel. lia.
  - pose proof (ReadFontTable_turn_turns v l tbl Hw) as Hlt.
    destruct (ReadFontTable_turn v l tbl) as [[v1 l1] tbl1].
    cbn [fst snd] in Hlt. apply IH. lia.
Qed.

(** X14: the loop of the font table reader always runs to its own end:
    every turn uses up a token or stops the parser, so after at most one
    turn per token to come, and one for the end of the stream, no group
    of the table is open any more or the parser has stopped. *)
Theorem ReadFontTable_loop_runs_to_its_end (v : FontLocals) (l : Lexer)
        (tbl : gmap Z Font) :
  let r := ReadFontTable_loop (S (length (pending l))) v l tbl in
  _nOpenBrakets r.1.1 = 0 ∨ working r.1.2 = false.
Proof.
  cbv zeta. apply ReadFontTable_loop_ends. unfold turns_left.
  destruct (working l); lia.
Qed.

Lemma std_map_insert_new {A} (k k' : Z) (v' x : A) (m : gmap Z A) :
  std_map_insert k' v' m !! k = Some x →
  m !! k = Some x ∨ (m !! k = None ∧ x = v').
Proof.
  unfold std_map_insert. destruct (m !! k') eqn:Hk'; [by left|].
  destruct (decide (k = k')) as [->|Hne].
  - rewrite lookup_insert_eq. intros [= <-]. by right.
  - rewrite lookup_insert_ne by done. by left.
Qed.

Lemma ReadFontTable_turn_named (v : FontLocals) (l : Lexer)
      (tbl : gmap Z Font) (nId : Z) (f : Font) :
  (ReadFontTable_turn v l tbl).2 !! nId = Some f →
  tbl !! nId = Some f ∨ (tbl !! nId = None ∧ FamilyName f ≠ []).
Proof.
  unfold ReadFontTable_turn.
  destruct (Lex.GetNextToken l) as [nToken l0].
  destruct (ReadFontTable_switch nToken v l0) as [[b v1] l1].
  destruct (_ && _) eqn:Hready; [|by left].
  apply andb_true_iff in Hready as [_ Hname].
  apply negb_true_iff, bool_decide_eq_false in Hname.
  unfold font_ready. cbn [snd]. intros Hf.
  apply std_map_insert_new in Hf as [?|[? ->]]; [by left|right].
  split; [done|]. cbn [FamilyName].
  destruct (sAltNm v1); [done|]. by destruct (sFntNm v1).
Qed.

Lemma ReadFontTable_loop_named (fuel : nat) (nId : Z) (f : Font) :
  ∀ v l tbl,
    (ReadFontTable_loop fuel v l tbl).2 !! nId = Some f →
    tbl !! nId = Some f ∨ (tbl !! nId = None ∧ FamilyName f ≠ []).
Proof.
  induction fuel as [|fuel IH]; intros v l tbl; cbn [ReadFontTable_loop];
    destruct (_ && _); try (by left).
  pose proof (ReadFontTable_turn_named v l tbl nId) as Hturn.
  pose proof (ReadFontTable_turn_keeps v l tbl nId) as Hkeep.
  destruct (ReadFontTable_turn v l tbl) as [[v1 l1] tbl1].
  cbn [snd] in Hturn, Hkeep. intros Hf.
  destruct (IH _ _ _ Hf) as [Hin|[Hnone Hname]]; [by apply Hturn|].
  right. split; [|done].
  destruct (tbl !! nId) as [g|] eqn:Hg; [|done].
  rewrite (Hkeep g eq_refl) in Hnone. done.
Qed.

Lemma m_FontTable_ReadFontTable p :
  m_FontTable (ReadFontTable p)
  = (ReadFontTable_loop
       (S (length (pending (Lex.SetEncoding
                              (lcl_GetDefaultTextEncodingForRTF (ext p))
                              (lexer p)))))
       (MkFontLocals 1 (MkFont [] FAMILY_DONTKNOW PITCH_DONTKNOW
                               (lcl_GetDefaultTextEncodingForRTF (ext p)))
                     0 0 [] [] false
                     (lcl_GetDefaultTextEncodingForRTF (ext p)))
       (Lex.SetEncoding (lcl_GetDefaultTextEncodingForRTF (ext p)) (lexer p))
       (m_FontTable p)).2.
Proof.
  unfold ReadFontTable. destruct (ReadFontTable_loop _ _ _ _) as [[v1 l1] t1].
  cbn [snd]. by destruct (_ && _).
Qed.

(** X12: a font the table holds under an id is never replaced by the
    font table reader: whatever the table being read declares under this
    id, the id maps to the same font afterwards. *)
Theorem declared_font_is_never_replaced p (nId : Z) (f : Font) :
  m_FontTable p !! nId = Some f →
  m_FontTable (ReadFontTable p) !! nId = Some f.
Proof.
  intros Hf. rewrite m_FontTable_ReadFontTable.
  by apply ReadFontTable_loop_keeps.
Qed.

(** X13: every font the font table reader adds has a name and goes under
    an id that the table did not hold: no nameless font is ever stored. *)
Theorem added_font_has_a_name p (nId : Z) (f : Font) :
  m_FontTable (ReadFontTable p) !! nId = Some f →
  m_FontTable p !! nId = Some f
  ∨ (m_FontTable p !! nId = None ∧ FamilyName f ≠ []).
Proof.
  rewrite m_FontTable_ReadFontTable. apply ReadFontTable_loop_named.
Qed.

End FontTableMore.

Lemma declared_font_is_never_replaced_witness :
  m_FontTable
    (ReadFontTable
       (with_m_FontTable {[ 0 := Ex.Arial_font ]}
                         (Ex.with_tokens Ex.font_tokens))) !! 0
  = Some Ex.Arial_font.
Proof.
  apply (declared_font_is_never_replaced
           (with_m_FontTable {[ 0 := Ex.Arial_font ]}
                             (Ex.with_tokens Ex.font_tokens))
           0 Ex.Arial_font).
  vm_compute. reflexivity.
Defined.

Lemma added_font_has_a_name_witness :
  m_FontTable (Ex.with_tokens Ex.font_tokens) !! 0 = Some Ex.Times_font
  ∨ (m_FontTable (Ex.with_tokens Ex.font_tokens) !! 0 = None
     ∧ FamilyName Ex.Times_font ≠ []).
Proof.
  apply (added_font_has_a_name (Ex.with_tokens Ex.font_tokens) 0
           Ex.Times_font).
  vm_compute. reflexivity.
Defined.

(** ** Groups without content *)

Section EmptyGroups.
Context {D : Type} `{!External D}.
Implicit Type p : SvxRTFParser D.

Lemma NextTokens_app (a b : list Token) : ∀ p,
  NextTokens (a ++ b) p
  = match NextTokens a p with
    | Some q => NextTokens b q
    | None => None
    end.
Proof.
  induction a as [|t a IH]; intros p; [done|].
  cbn [app NextTokens]. by destruct (NextToken t p).
Qed.

Lemma groups_opened_flag p (k : nat) q (b : bool) :
  groups_opened p k q → groups_opened p k (with_bNewGroup b q).
Proof. done. Qed.

Lemma groups_opened_open p (k : nat) q :
  groups_opened p k q → groups_opened p (S k) (GetAttrSet_ q).
Proof.
  intros ((news & Hst & Hlen & Hall) & Hfl & Hn & Hc & Htab).
  unfold GetAttrSet_.
  pose proof (GetRTFDefaults_frame q) as (Hst' & Hfl' & _ & _ & _ & Hn' & Hc' & _).
  pose proof (GetRTFDefaults_tables q) as Htab'.
  destruct (GetRTFDefaults q) as [defs q0]. cbn [snd] in *.
  set (pNew := SetRTFDefaults defs _).
  assert (m_pChildList pNew = None ∧ pSttNd pNew = GetNodeIdx (ext p)
          ∧ nSttCnt pNew = GetCntIdx (ext p)) as HpNew.
  { unfold pNew. rewrite <- Hn, <- Hc. by destruct (aAttrStack q). }
  split_and!.
  - exists (pNew :: news).
    cbn [aAttrStack with_bNewGroup with_aAttrStack app length].
    rewrite Hst', Hst, Hlen. split_and!; [done|done|by constructor].
  - cbn [m_AttrSetList with_bNewGroup with_aAttrStack]. congruence.
  - cbn [ext with_bNewGroup with_aAttrStack]. congruence.
  - cbn [ext with_bNewGroup with_aAttrStack]. congruence.
  - eapply same_tables_trans; [exact Htab|].
    eapply same_tables_trans; [exact Htab'|]. done.
Qed.

Lemma groups_opened_close p (k : nat) q :
  groups_opened p (S k) q → groups_opened p k (AttrGroupEnd q).
Proof.
  intros ((news & Hst & Hlen & Hall) & Hfl & Hn & Hc & Htab).
  destruct news as [|pOld news]; [done|].
  inversion Hall as [|? ? (Hch & Hsn & Hsc) Hall']; subst.
  unfold AttrGroupEnd. rewrite Hst. cbn [app].
  assert (nothing_to_set pOld (ext q) = true) as Hdrop.
  { unfold nothing_to_set, has_children.
    rewrite Hch, Hsn, Hsc, Hn, Hc, !Z.eqb_refl. by rewrite orb_true_r. }
  rewrite AttrGroupEnd_popped_eq. cbv zeta.
  cbn [ext with_aAttrStack]. rewrite Hdrop.
  split_and!; try done.
  exists news. cbn [aAttrStack with_bNewGroup with_aAttrStack length] in *.
  split_and!; [done|lia|done].
Qed.

Lemma opens_run p (m : nat) : ∀ k q,
  groups_opened p k q → bNewGroup q = true →
  ∃ q', NextTokens (repeat T_OpenBrace m) q = Some q'
        ∧ groups_opened p (k + m) q' ∧ bNewGroup q' = true.
Proof.
  induction m as [|m IH]; intros k q Hq Hflag.
  - exists q. rewrite Nat.add_0_r. done.
  - cbn [repeat NextTokens NextToken]. rewrite Hflag.
    destruct (IH (S k) (with_bNewGroup true (GetAttrSet_ q))
                 (groups_opened_flag _ _ _ true (groups_opened_open _ _ _ Hq))
                 eq_refl)
      as (q' & Hrun & Hq' & Hflag').
    exists q'. rewrite Nat.add_succ_r. done.
Qed.

Lemma closes_run p (k : nat) : ∀ q,
  groups_opened p k q → bNewGroup q = false →
  ∃ q', NextTokens (repeat T_CloseBrace k) q = Some q'
        ∧ groups_opened p 0 q' ∧ bNewGroup q' = false.
Proof.
  induction k as [|k IH]; intros q Hq Hflag.
  - exists q. done.
  - cbn [repeat NextTokens NextToken]. rewrite Hflag. cbn [negb].
    apply IH; [|done].
    by apply groups_opened_flag, groups_opened_close.
Qed.

(** X20: groups without content leave no trace, however deep they are
    nested: after [n] opening braces followed by [n] closing braces the
    scope stack and the flush list are what they were, the cursor has not
    moved, no group is pending and the tables are untouched. *)
Theorem nested_empty_groups_leave_no_trace (n : nat) p :
  bNewGroup p = false →
  ∃ q,
    NextTokens (repeat T_OpenBrace n ++ repeat T_CloseBrace n) p = Some q
    ∧ aAttrStack q = aAttrStack p
    ∧ m_AttrSetList q = m_AttrSetList p
    ∧ GetNodeIdx (ext q) = GetNodeIdx (ext p)
    ∧ GetCntIdx (ext q) = GetCntIdx (ext p)
    ∧ same_tables p q
    ∧ bNewGroup q = false.
Proof.
  intros Hflag. rewrite NextTokens_app.
  assert (groups_opened p 0 p) as H0.
  { split_and!; try done. by exists []. }
  destruct n as [|n].
  - exists p. cbn [repeat NextTokens]. split_and!; done.
  - cbn [repeat NextTokens NextToken]. rewrite Hflag.
    destruct (opens_run p n 0 (with_bNewGroup true p) H0 eq_refl)
      as (q1 & -> & Hq1 & Hflag1).
    cbn [Nat.add] in Hq1. rewrite Hflag1. cbn [negb].
    destruct (closes_run p n (with_bNewGroup false q1) Hq1 eq_refl)
      as (q2 & -> & ((news & Hst & Hlen & _) & Hfl & Hn & Hc & Htab) & Hflag2).
    exists q2. destruct news; [|done]. split_and!; done.
Qed.

End EmptyGroups.

Lemma nested_empty_groups_leave_no_trace_witness :
  ∃ q,
    NextTokens (repeat T_OpenBrace 3 ++ repeat T_CloseBrace 3) Ex.start
    = Some q
    ∧ aAttrStack q = aAttrStack Ex.start
    ∧ m_AttrSetList q = m_AttrSetList Ex.start
    ∧ GetNodeIdx (ext q) = GetNodeIdx (ext Ex.start)
    ∧ GetCntIdx (ext q) = GetCntIdx (ext Ex.start)
    ∧ same_tables Ex.start q
    ∧ bNewGroup q = false.
Proof.
  apply (nested_empty_groups_leave_no_trace 3 Ex.start). reflexivity.
Defined.
